(** * Navi: the tree layout and navigation engine (package [ui], tree model)

    A shallow embedding of [buildTree], [compressTree], [countLeaves],
    [findNode], [NewTreeModel], the navigation methods,
    [getExpandedMap], [getVisibleChildren], the layout pass, [View] and
    [SelectedPath], together with the properties the specification states
    about them.

    Conventions.
    - Go strings are byte strings: [string], with [String.length] for
      [len]. [strings.Split], [strings.Join], [strings.Contains],
      [strings.TrimPrefix], [filepath.Clean] and [filepath.Join] (with
      the separator [/]) are written out in module [Str].
    - Go [int] values are [Z]; the sums and differences the engine
      computes stay far below the 64-bit range, so no wrap-around is
      written out.
    - A [*Node] is the place of the node in the tree ([pos]): the builder
      creates every node once, with [Parent] set to the node it is
      appended to, and the compressor re-parents the grandchildren it
      moves, so the [Parent] field always points at the structural
      parent. [Root] is never nil.
    - A [map] with a zero default is a total function ([historyPaths],
      [ColWidths], the row counters) or the list of its keys (the
      expanded map).
    - A run-time panic is the result [Panics]; slice creation succeeds
      for every length that is not negative. *)

From Stdlib Require Import List String Ascii ZArith Lia Bool Arith PeanoNat.
Import ListNotations.
Open Scope string_scope.
Open Scope list_scope.

Set Warnings "-register-all".

(* ===================================================================== *)
(** ** Strings: [strings.Split], [filepath.Clean], [filepath.Join]        *)
(* ===================================================================== *)

Module Str.

(** [filepath.Separator] on the platforms the tool targets. *)
Definition Separator : ascii := "/"%char.
Definition SepS : string := "/".

(** [strings.Split(s, "/")]: always at least one element. *)
Fixpoint Split (s : string) : list string :=
  match s with
  | EmptyString => [EmptyString]
  | String c r =>
      if Ascii.eqb c Separator then EmptyString :: Split r
      else match Split r with
           | [] => [String c EmptyString]
           | h :: t => String c h :: t
           end
  end.

(** [strings.Join(elems, "/")]. *)
Fixpoint JoinSep (l : list string) : string :=
  match l with
  | [] => ""
  | [x] => x
  | x :: r => x ++ SepS ++ JoinSep r
  end.

(** [strings.Contains(s, "/")]. *)
Fixpoint ContainsSep (s : string) : bool :=
  match s with
  | EmptyString => false
  | String c r => Ascii.eqb c Separator || ContainsSep r
  end.

(** [strings.TrimPrefix(s, p)]. *)
Fixpoint stripPrefix (p s : string) : option string :=
  match p with
  | EmptyString => Some s
  | String a p' =>
      match s with
      | EmptyString => None
      | String b s' => if Ascii.eqb a b then stripPrefix p' s' else None
      end
  end.

Definition TrimPrefix (s p : string) : string :=
  match stripPrefix p s with
  | Some r => r
  | None => s
  end.

(** One step of the lexical processing of [filepath.Clean]: [out] is the
    stack of components kept so far, most recent first. *)
Definition cleanStep (rooted : bool) (out : list string) (seg : string)
  : list string :=
  if String.eqb seg "" then out
  else if String.eqb seg "." then out
  else if String.eqb seg ".." then
    match out with
    | top :: rest => if String.eqb top ".." then seg :: out else rest
    | [] => if rooted then [] else [seg]
    end
  else seg :: out.

Definition isRooted (s : string) : bool :=
  match s with
  | String c _ => Ascii.eqb c Separator
  | EmptyString => false
  end.

(** [filepath.Clean]. *)
Definition Clean (path : string) : string :=
  if String.eqb path "" then "."
  else
    let rooted := isRooted path in
    let body := JoinSep (rev (fold_left (cleanStep rooted) (Split path) [])) in
    if rooted then SepS ++ body
    else if String.eqb body "" then "." else body.

(** [filepath.Join(elem...)]: the elements from the first non-empty one on
    are joined with the separator and cleaned; all empty gives [""]. *)
Fixpoint JoinList (elem : list string) : string :=
  match elem with
  | [] => ""
  | e :: r => if String.eqb e "" then JoinList r else Clean (JoinSep elem)
  end.

Definition Join (a b : string) : string := JoinList [a; b].

Definition len (s : string) : Z := Z.of_nat (String.length s).

End Str.

(* ===================================================================== *)
(** ** The tree                                                           *)
(* ===================================================================== *)

(** [type Node struct]. The [Parent] back-reference is the position of the
    node (see [pos] below); [X], [Y] are the layout coordinates. *)
Inductive Node : Type :=
  mkNode {
    Name : string;
    Path : string;
    Children : list Node;
    IsDir : bool;
    IsHistory : bool;
    X : Z;
    Y : Z
  }.

Definition setChildren (n : Node) (cs : list Node) : Node :=
  mkNode (Name n) (Path n) cs (IsDir n) (IsHistory n) (X n) (Y n).
Definition setIsDir (n : Node) (b : bool) : Node :=
  mkNode (Name n) (Path n) (Children n) b (IsHistory n) (X n) (Y n).
Definition setIsHistory (n : Node) (b : bool) : Node :=
  mkNode (Name n) (Path n) (Children n) (IsDir n) b (X n) (Y n).
Definition setXY (n : Node) (x y : Z) : Node :=
  mkNode (Name n) (Path n) (Children n) (IsDir n) (IsHistory n) x y.

(** [historyPaths map[string]bool]: a lookup yields [false] on a missing
    key. *)
Definition HistorySet := string -> bool.

(** Induction principle that reaches the children of a node. *)
Section NodeInd.
Variable P : Node -> Prop.
Hypothesis step : forall n, Forall P (Children n) -> P n.

Fixpoint Node_ind' (n : Node) : P n :=
  step n
    ((fix go (l : list Node) : Forall P l :=
        match l with
        | [] => Forall_nil P
        | c :: r => Forall_cons c (Node_ind' c) (go r)
        end) (Children n)).
End NodeInd.

(** Number of nodes of a subtree. *)
Fixpoint size (n : Node) : nat :=
  S (fold_right (fun c acc => size c + acc)%nat 0%nat (Children n)).

(* ===================================================================== *)
(** ** [buildTree]                                                        *)
(* ===================================================================== *)

(** The inner search loop: index and node of the first child named
    [part]. *)
Fixpoint findChild (part : string) (cs : list Node) : option (nat * Node) :=
  match cs with
  | [] => None
  | c :: r =>
      if String.eqb (Name c) part then Some (0%nat, c)
      else match findChild part r with
           | Some (i, d) => Some (S i, d)
           | None => None
           end
  end.

Fixpoint replaceAt (i : nat) (x : Node) (cs : list Node) : list Node :=
  match cs, i with
  | [], _ => []
  | _ :: r, O => x :: r
  | c :: r, S j => c :: replaceAt j x r
  end.

Section Build.
Variable historyPaths : HistorySet.
Variable path : string.

(** The walk over [parts] of one input path, started at [current]; the
    result is [current] after the walk has updated its subtree.
    [walked] tells whether [current] was reached by the walk (it is then
    the loop's final [current] when [parts] is exhausted). *)
Fixpoint insertParts (parts : list string) (walked : bool) (current : Node)
  : Node :=
  match parts with
  | [] =>
      if walked && historyPaths path then setIsHistory current true
      else current
  | part :: rest =>
      match findChild part (Children current) with
      | None =>
          let isDir := match rest with [] => false | _ => true end in
          let childPath := Str.Join (Path current) part in
          let isHistory := historyPaths path || historyPaths childPath in
          let child := mkNode part childPath [] isDir isHistory 0 0 in
          let child := setIsDir child true in
          setChildren current
            (Children current ++ [insertParts rest true child])
      | Some (i, c) =>
          let c :=
            if historyPaths path || historyPaths (Path c)
            then setIsHistory c true else c in
          let c := setIsDir c true in
          setChildren current
            (replaceAt i (insertParts rest true c) (Children current))
      end
  end.
End Build.

Definition rootNode : Node := mkNode "ROOT" "." [] true false 0 0.

Definition insertPath (historyPaths : HistorySet) (root : Node) (path : string)
  : Node :=
  insertParts historyPaths path (Str.Split path) false root.

Definition buildTree (paths : list string) (historyPaths : HistorySet) : Node :=
  fold_left (insertPath historyPaths) paths rootNode.

(* ===================================================================== *)
(** ** [countLeaves] and [compressTree]                                   *)
(* ===================================================================== *)

Fixpoint countLeaves (n : Node) : Z :=
  match Children n with
  | [] => 1
  | _ => fold_right (fun c acc => countLeaves c + acc)%Z 0%Z (Children n)
  end.

(** [compressTree], by recursion on a step budget: the call on the merged
    node is not a call on a child. [compressTree] below supplies a budget
    that is never used up (lemma [compressFuel_enough]). *)
Fixpoint compressFuel (fuel : nat) (node : Node) : Node :=
  match fuel with
  | O => node
  | S f =>
      if negb (IsDir node) || (List.length (Children node) =? 0)%nat then node
      else
        (* Compress children first *)
        let node := setChildren node (map (compressFuel f) (Children node)) in
        if String.eqb (Name node) "ROOT" then node
        else
          match Children node with
          | [child] =>
              let potentialNameLen :=
                (Str.len (Name node) + 1 + Str.len (Name child))%Z in
              if (18 <? potentialNameLen)%Z && (4 <? countLeaves child)%Z
              then node (* Skip merge *)
              else
                (* Merge child into current node *)
                compressFuel f
                  (mkNode (Str.Join (Name node) (Name child)) (Path child)
                          (Children child) (IsDir child) (IsHistory node)
                          (X node) (Y node))
          | _ => node
          end
  end.

Definition compressTree (node : Node) : Node := compressFuel (size node) node.

(* ===================================================================== *)
(** ** Positions, [findNode], [NewTreeModel], [SelectedPath]              *)
(* ===================================================================== *)

(** A node pointer: the child indices from the node up to the root, the
    node's own index in its parent first. The root is [[]], and the
    [Parent] of [i :: q] is [q]. *)
Definition pos := list nat.

Fixpoint descend (n : Node) (route : list nat) : option Node :=
  match route with
  | [] => Some n
  | i :: r =>
      match nth_error (Children n) i with
      | Some c => descend c r
      | None => None
      end
  end.

Definition nodeAt (root : Node) (q : pos) : option Node := descend root (rev q).

(** [n.Parent]: [nil] for the root. *)
Definition parentOf (q : pos) : option pos :=
  match q with
  | [] => None
  | _ :: p => Some p
  end.

(** The children of the node at [q] as pointers, in list order. *)
Definition childPtrs (q : pos) (n : Node) : list pos :=
  map (fun i => i :: q) (seq 0 (List.length (Children n))).

Definition childEntries (q : pos) (n : Node) : list (pos * Node) :=
  combine (childPtrs q n) (Children n).

(** The loop of [findNode]. The stack is kept top first, so
    [append(stack, n.Children...)] puts the reversed child list in front:
    the last child is popped next. *)
Fixpoint findLoop (fuel : nat) (targetPath : string) (stack : list (pos * Node))
  : option pos :=
  match stack with
  | [] => None
  | (q, n) :: rest =>
      match fuel with
      | O => None
      | S f =>
          if String.eqb (Path n) targetPath then Some q
          else findLoop f targetPath (rev (childEntries q n) ++ rest)
      end
  end.

Definition findNode (root : Node) (targetPath : string) : option pos :=
  if String.eqb (Path root) targetPath then Some []
  else findLoop (size root) targetPath [([], root)].

(** [type TreeModel struct]; [SelectedNode] is [None] for a nil pointer,
    [ColWidths] yields 0 on a missing key. *)
Record TreeModel : Type :=
  mkTreeModel {
    Root : Node;
    SelectedNode : option pos;
    Width : Z;
    Height : Z;
    ScrollOffset : Z;
    ColWidths : Z -> Z
  }.

Definition setSelected (m : TreeModel) (s : option pos) : TreeModel :=
  mkTreeModel (Root m) s (Width m) (Height m) (ScrollOffset m) (ColWidths m).

Definition NewTreeModel (paths : list string) (width height : Z)
           (historyPaths : HistorySet) : TreeModel :=
  let root := compressTree (buildTree paths historyPaths) in
  let firstChildOrRoot : pos :=
    match Children root with
    | [] => []
    | _ :: _ => [0%nat]
    end in
  let sel :=
    match paths with
    | p0 :: _ =>
        match findNode root p0 with
        | Some bestMatch => bestMatch
        | None => firstChildOrRoot
        end
    | [] => firstChildOrRoot
    end in
  mkTreeModel root (Some sel) width height 0 (fun _ => 0%Z).

Definition SelectedPath (m : TreeModel) : string :=
  match SelectedNode m with
  | Some q =>
      match nodeAt (Root m) q with
      | Some n => Str.TrimPrefix (Path n) "ROOT/"
      | None => ""
      end
  | None => ""
  end.

(* ===================================================================== *)
(** ** Navigation                                                         *)
(* ===================================================================== *)

(** [moveSelection]: the loop over the siblings stops at the selection's
    own index, which is the head of its position. *)
Definition moveSelection (m : TreeModel) (delta : Z) : TreeModel :=
  match SelectedNode m with
  | None => m
  | Some [] => m
  | Some (i :: p) =>
      match nodeAt (Root m) p with
      | None => m
      | Some parent =>
          let next := (Z.of_nat i + delta)%Z in
          if (0 <=? next)%Z && (next <? Z.of_nat (List.length (Children parent)))%Z
          then setSelected m (Some (Z.to_nat next :: p))
          else m
      end
  end.

Definition enterDirectory (m : TreeModel) : TreeModel :=
  match SelectedNode m with
  | None => m
  | Some q =>
      match nodeAt (Root m) q with
      | Some n =>
          if IsDir n && (0 <? List.length (Children n))%nat
          then setSelected m (Some (0%nat :: q))
          else m
      | None => m
      end
  end.

Definition leaveDirectory (m : TreeModel) : TreeModel :=
  match SelectedNode m with
  | Some (_ :: (_ :: _) as p) => setSelected m (Some p)
  | _ => m
  end.

(* ===================================================================== *)
(** ** Visibility: [getExpandedMap] and [getVisibleChildren]              *)
(* ===================================================================== *)

Definition pos_eqb (a b : pos) : bool :=
  if list_eq_dec Nat.eq_dec a b then true else false.

(** A [map[*Node]bool] that only ever stores [true]: the list of its keys. *)
Definition ExpandedMap := list pos.

Definition isExpanded (expanded : ExpandedMap) (q : pos) : bool :=
  existsb (pos_eqb q) expanded.

(** The loop [for curr != nil { expanded[curr] = true; curr = curr.Parent }]. *)
Fixpoint markUpwards (curr : pos) : ExpandedMap :=
  curr :: match curr with
          | [] => []
          | _ :: parent => markUpwards parent
          end.

Definition getExpandedMap (m : TreeModel) : ExpandedMap :=
  [] :: match SelectedNode m with
        | Some s => markUpwards s
        | None => []
        end.

(** The loop that walks up from the selection until it meets the node whose
    parent is [node]. *)
Fixpoint childOnPath (node : pos) (curr : pos) : option pos :=
  match curr with
  | [] => None
  | _ :: parent =>
      if pos_eqb parent node then Some curr else childOnPath node parent
  end.

(** [getVisibleChildren] for the node [n] that sits at [q]. *)
Definition visibleChildren (sel : option pos) (expanded : ExpandedMap)
           (q : pos) (n : Node) : list pos :=
  if negb (isExpanded expanded q) then []
  else
    match sel with
    | Some s =>
        if pos_eqb q s
           || match parentOf s with Some p => pos_eqb q p | None => false end
        then childPtrs q n
        else match childOnPath q s with
             | Some c => [c]
             | None => childPtrs q n
             end
    | None => childPtrs q n
    end.

Definition getVisibleChildren (m : TreeModel) (q : pos) (expanded : ExpandedMap)
  : list pos :=
  match nodeAt (Root m) q with
  | Some n => visibleChildren (SelectedNode m) expanded q n
  | None => []
  end.

(* ===================================================================== *)
(** ** Layout: [layoutRoot] and [layoutAssign]                            *)
(* ===================================================================== *)

(** The two maps the layout pass updates; both yield 0 on a missing key. *)
Record LayoutState : Type :=
  mkLayoutState {
    yCounters : Z -> Z;
    widths : Z -> Z
  }.

Definition upd (f : Z -> Z) (k v : Z) : Z -> Z :=
  fun k' => if (k' =? k)%Z then v else f k'.

(** The bytes of the ellipsis character of the contracted label. *)
Definition ellipsis : string :=
  String (ascii_of_nat 226) (String (ascii_of_nat 128)
    (String (ascii_of_nat 166) EmptyString)).

(** The display width [layoutAssign] computes for a node. *)
Definition displayWidth (isSelected : bool) (name : string) : Z :=
  let w := (Str.len name + 4)%Z in
  let w :=
    if negb isSelected && Str.ContainsSep name then
      let parts := Str.Split name in
      if (2 <? List.length parts)%nat then
        (Str.len (ellipsis ++ "/"
                  ++ nth (List.length parts - 2) parts ""
                  ++ "/" ++ nth (List.length parts - 1) parts "") + 4)%Z
      else w
    else w in
  let w := if (40 <? w)%Z then 40%Z else w in
  if (w <? 20)%Z then 20%Z else w.

Definition isSelectedPos (sel : option pos) (q : pos) : bool :=
  match sel with
  | Some s => pos_eqb q s
  | None => false
  end.

Section Layout.
Variable sel : option pos.
Variable expanded : ExpandedMap.

(** [layoutAssign]: the node at [q] gets its coordinates, then the
    visible children are laid out. The visible list is the whole child
    list, one child or nothing (lemma [visibleChildren_shape]), so the
    loop over it is a walk over the child list that skips the children
    that are not visible. *)
Fixpoint layoutAssign (q : pos) (depth : Z) (st : LayoutState) (node : Node)
  : Node * LayoutState :=
  let y := yCounters st depth in
  let w := displayWidth (isSelectedPos sel q) (Name node) in
  let st :=
    mkLayoutState (upd (yCounters st) depth (y + 1)%Z)
      (if (widths st depth <? w)%Z then upd (widths st) depth w
       else widths st) in
  let children := visibleChildren sel expanded q node in
  let '(cs, st) :=
    (fix each (i : nat) (cs : list Node) (st : LayoutState)
       : list Node * LayoutState :=
       match cs with
       | [] => ([], st)
       | c :: r =>
           let '(c', st1) :=
             if existsb (pos_eqb (i :: q)) children
             then layoutAssign (i :: q) (depth + 1)%Z st c
             else (c, st) in
           let '(r', st2) := each (S i) r st1 in
           (c' :: r', st2)
       end) 0%nat (Children node) st in
  (mkNode (Name node) (Path node) cs (IsDir node) (IsHistory node) depth y,
   st).
End Layout.

(** [layoutRoot]: fresh counters and widths, layout from depth 0. *)
Definition layoutRoot (m : TreeModel) (expanded : ExpandedMap) : TreeModel :=
  let '(root, st) :=
    layoutAssign (SelectedNode m) expanded [] 0
      (mkLayoutState (fun _ => 0%Z) (fun _ => 0%Z)) (Root m) in
  mkTreeModel root (SelectedNode m) (Width m) (Height m) (ScrollOffset m)
    (widths st).

(* ===================================================================== *)
(** ** Rendering: [View]                                                  *)
(* ===================================================================== *)

(** A Go run-time panic (slice creation with a negative length, an index
    or slice bound out of range, a nil dereference) ends the call. *)
Inductive result (A : Type) : Type :=
| Done : A -> result A
| Panics : result A.
Arguments Done {A} _.
Arguments Panics {A}.

Definition bind {A B : Type} (r : result A) (k : A -> result B) : result B :=
  match r with
  | Done a => k a
  | Panics => Panics
  end.

Notation "x <- r ;; k" := (bind r (fun x => k))
  (at level 61, r at next level, right associativity).

(** The [lipgloss] styles [View] uses, in the order it checks them. *)
Inductive Style : Type :=
| StyleSelected | StyleAncestor | StyleHistory | StyleNeutral | StyleFaint.

Definition Canvas := list (list string).

(** The loop that descends from the root while there is a single child
    that is a directory. *)
Fixpoint displayRootFrom (q : pos) (n : Node) : pos :=
  match Children n with
  | [c] => if IsDir c then displayRootFrom (0%nat :: q) c else q
  | _ => q
  end.

(** [applyXShift]: every node of the tree, visible or not. *)
Fixpoint applyXShift (shift : Z) (node : Node) : Node :=
  mkNode (Name node) (Path node) (map (applyXShift shift) (Children node))
         (IsDir node) (IsHistory node) (X node + shift)%Z (Y node).

(** [for i := lo; i < hi; i++ { sum += ColWidths[i] }]. *)
Fixpoint sumFrom (cw : Z -> Z) (i : Z) (count : nat) : Z :=
  match count with
  | O => 0%Z
  | S k => (cw i + sumFrom cw (i + 1) k)%Z
  end.

Definition sumRange (cw : Z -> Z) (lo hi : Z) : Z :=
  sumFrom cw lo (Z.to_nat (hi - lo)).

(** The loop that advances [scrollX]; it runs at most [targetCol] times. *)
Fixpoint scrollLoop (cw : Z -> Z) (width targetCol : Z) (fuel : nat)
         (currentW scrollX : Z) : Z :=
  match fuel with
  | O => scrollX
  | S f =>
      if (width <? currentW)%Z && (scrollX <? targetCol)%Z
      then scrollLoop cw width targetCol f
             (currentW - cw scrollX)%Z (scrollX + 1)%Z
      else scrollX
  end.

Definition scrollStart (cw : Z -> Z) (width targetCol : Z) : Z :=
  if (0 <? targetCol)%Z
  then scrollLoop cw width targetCol (Z.to_nat targetCol)
         (sumRange cw 0 (targetCol + 1)) 0
  else 0%Z.

(** [make([][]string, Height)] and, per row, [make([]string, Width)]. *)
Definition makeCanvas (width height : Z) : result Canvas :=
  if (height <? 0)%Z then Panics
  else if (0 <? height)%Z && (width <? 0)%Z then Panics
  else Done (repeat (repeat " " (Z.to_nat width)) (Z.to_nat height)).

Fixpoint setNth {A : Type} (i : nat) (x : A) (l : list A) : option (list A) :=
  match l, i with
  | [], _ => None
  | _ :: r, O => Some (x :: r)
  | a :: r, S j =>
      match setNth j x r with
      | Some r' => Some (a :: r')
      | None => None
      end
  end.

(** [canvas[row][col] = v], with Go's index checks. *)
Definition setCell (cv : Canvas) (row col : Z) (v : string) : result Canvas :=
  if (row <? 0)%Z || (col <? 0)%Z then Panics
  else
    match nth_error cv (Z.to_nat row) with
    | None => Panics
    | Some line =>
        match setNth (Z.to_nat col) v line with
        | None => Panics
        | Some line' =>
            match setNth (Z.to_nat row) line' cv with
            | Some cv' => Done cv'
            | None => Panics
            end
        end
    end.

Definition newline : string := String (ascii_of_nat 10) EmptyString.

(** The final loop of [View]: rows joined, a newline after every row whose
    index is below [Height - 1]. *)
Fixpoint flatten (height : Z) (i : Z) (cv : Canvas) : string :=
  match cv with
  | [] => ""
  | line :: r =>
      String.concat "" line
      ++ (if (i <? height - 1)%Z then newline else "")
      ++ flatten height (i + 1)%Z r
  end.

(** The box-drawing glyphs, by name; their bytes play no role here. *)
Inductive Glyph : Type := GVert | GTee | GDash | GCorner | GBranch.

(** A loop over the child list that threads the canvas and stops at the
    first panic; [f] gets the index of the child. *)
Fixpoint forEachChild (f : nat -> Node -> Canvas -> result Canvas) (i : nat)
         (cs : list Node) (cv : Canvas) : result Canvas :=
  match cs with
  | [] => Done cv
  | c :: r => cv' <- f i c cv ;; forEachChild f (S i) r cv'
  end.

Section Render.
(** [style.Render(s)] of [lipgloss], and the conversion [[]rune(s)]
    followed by [string(r)] for every rune, are taken as given. *)
Variable renderStyle : Style -> string -> string.
Variable runes : string -> list string.
Variable glyph : Glyph -> string.

Variable m : TreeModel.        (* the receiver, after layout and shift *)
Variable expanded : ExpandedMap.
Variable scrollX : Z.

Fixpoint drawRunes (cv : Canvas) (screenY x : Z) (rs : list string)
         (style : Style) : result Canvas :=
  match rs with
  | [] => Done cv
  | r :: rest =>
      cv' <- (if (0 <=? x)%Z && (x <? Width m)%Z
              then setCell cv screenY x (renderStyle style r)
              else Done cv) ;;
      drawRunes cv' screenY (x + 1)%Z rest style
  end.

Definition drawString (cv : Canvas) (x y : Z) (s : string) (style : Style)
  : result Canvas :=
  if (y <? ScrollOffset m)%Z || (ScrollOffset m + Height m <=? y)%Z
  then Done cv
  else
    let screenY := (y - ScrollOffset m)%Z in
    if (Width m <=? x)%Z then Done cv
    else drawRunes cv screenY x (runes s) style.

(** [name[:k] + ".."] when [len(name) > k]; a negative [k] panics. *)
Definition truncateName (name : string) (colWidth : Z) : result string :=
  if (colWidth - 2 <? Str.len name)%Z then
    if (colWidth - 2 <? 0)%Z then Panics
    else Done (substring 0 (Z.to_nat (colWidth - 2)) name ++ "..")%string
  else Done name.

Definition styleOf (q : pos) (n : Node) : Style :=
  if isSelectedPos (SelectedNode m) q then StyleSelected
  else if match SelectedNode m with
          | Some s => existsb (pos_eqb q) (markUpwards s)
          | None => false
          end
       then StyleAncestor
       else if IsHistory n then StyleHistory else StyleNeutral.

Definition shownName (q : pos) (n : Node) : string :=
  let name :=
    if negb (isSelectedPos (SelectedNode m) q) && Str.ContainsSep (Name n)
    then
      let parts := Str.Split (Name n) in
      if (2 <? List.length parts)%nat
      then Str.JoinList [ellipsis;
                         nth (List.length parts - 2) parts "";
                         nth (List.length parts - 1) parts ""]
      else Name n
    else Name n in
  if IsDir n then name ++ "/" else name.

(** The connector loop [for y := minY; y <= maxY; y++]. *)
Fixpoint drawConnectors (cv : Canvas) (vx : Z) (childYs : list Z)
         (minY maxY : Z) (count : nat) (y : Z) : result Canvas :=
  match count with
  | O => Done cv
  | S k =>
      let isChildY := existsb (Z.eqb y) childYs in
      let char :=
        if isChildY then
          if (y =? minY)%Z then
            if (1 <? List.length childYs)%nat then GTee else GDash
          else if (y =? maxY)%Z then GCorner else GBranch
        else GVert in
      cv1 <- drawString cv vx y (glyph char) StyleFaint ;;
      cv2 <- (if isChildY
              then drawString cv1 (vx + 1)%Z y (glyph GDash) StyleFaint
              else Done cv1) ;;
      drawConnectors cv2 vx childYs minY maxY k (y + 1)%Z
  end.

(** The nodes the visible child pointers of the node at [q] point at, in
    the order of the child list. *)
Fixpoint keepVisible (children : list pos) (q : pos) (i : nat)
         (cs : list Node) : list Node :=
  match cs with
  | [] => []
  | c :: r =>
      if existsb (pos_eqb (i :: q)) children
      then c :: keepVisible children q (S i) r
      else keepVisible children q (S i) r
  end.

(** The closure [renderNode]; the loops over the visible children are
    written as in [layoutAssign]. *)
Fixpoint renderNode (q : pos) (n : Node) (cv : Canvas) : result Canvas :=
  let effX := (X n - scrollX)%Z in
  let screenX :=
    if (0 <=? effX)%Z then sumRange (ColWidths m) scrollX (X n)
    else (-100)%Z in
  let colWidth := ColWidths m (X n) in
  cv <- (if (0 <=? effX)%Z && (screenX <? Width m)%Z then
           let cursor :=
             if isSelectedPos (SelectedNode m) q then "> " else "" in
           name <- truncateName (shownName q n) colWidth ;;
           drawString cv screenX (Y n) (cursor ++ name)%string (styleOf q n)
         else Done cv) ;;
  let children := visibleChildren (SelectedNode m) expanded q n in
  let shown := keepVisible children q 0 (Children n) in
  match shown with
  | [] => Done cv
  | first :: _ =>
      cv <- (if (scrollX <=? X n)%Z then
               let vx :=
                 (sumRange (ColWidths m) scrollX (X n) + colWidth - 2)%Z in
               if (vx <? Width m)%Z then
                 let minY := Y first in
                 let maxY := Y (last shown first) in
                 drawConnectors cv vx (map Y shown) minY maxY
                   (Z.to_nat (maxY - minY + 1)) minY
               else Done cv
             else Done cv) ;;
      forEachChild
        (fun i c cv =>
           if existsb (pos_eqb (i :: q)) children
           then renderNode (i :: q) c cv
           else Done cv) 0%nat (Children n) cv
  end.
End Render.

Section ViewDef.
Variable renderStyle : Style -> string -> string.
Variable runes : string -> list string.
Variable glyph : Glyph -> string.

(** The tree and column widths that [View] renders: layout from the
    root, then the shift that puts the display root at column -1. *)
Definition viewLayout (m : TreeModel) : TreeModel :=
  let displayRoot := displayRootFrom [] (Root m) in
  let m1 := layoutRoot m (getExpandedMap m) in
  let shiftX :=
    match displayRoot with
    | [] => (-1)%Z
    | _ :: _ =>
        match nodeAt (Root m1) displayRoot with
        | Some d => (- (X d + 1))%Z
        | None => (-1)%Z
        end
    end in
  mkTreeModel (applyXShift shiftX (Root m1)) (SelectedNode m1) (Width m1)
    (Height m1) (ScrollOffset m1) (ColWidths m1).

(** [View]. The selection is dereferenced for its column: a nil
    selection panics. *)
Definition View (m : TreeModel) : result string :=
  let m2 := viewLayout m in
  match SelectedNode m2 with
  | None => Panics
  | Some s =>
      match nodeAt (Root m2) s with
      | None => Panics
      | Some selected =>
          let scrollX :=
            scrollStart (ColWidths m2) (Width m2) (X selected) in
          canvas <- makeCanvas (Width m2) (Height m2) ;;
          canvas <- renderNode renderStyle runes glyph m2
                      (getExpandedMap m) scrollX [] (Root m2) canvas ;;
          Done (flatten (Height m2) 0 canvas)
      end
  end.
End ViewDef.

(* ===================================================================== *)
(** ** Auxiliary notions used by the statements                           *)
(* ===================================================================== *)

(** A property of every node of a subtree. *)
Inductive AllNodes (P : Node -> Prop) : Node -> Prop :=
  AllNodes_intro :
    forall n, P n -> Forall (AllNodes P) (Children n) -> AllNodes P n.

(** The rebuild of the host program on new search results: the tree model
    is replaced by [NewTreeModel] on the new inputs; nothing of the old
    model is passed on. *)
Definition rebuild (old : TreeModel) (paths : list string) (width height : Z)
           (historyPaths : HistorySet) : TreeModel :=
  NewTreeModel paths width height historyPaths.

(** [q] is [s] or one of its ancestors. *)
Definition onPathTo (s q : pos) : Prop := exists l, s = l ++ q.

(** Sample inputs: the path lists of the repository's tree test program
    and small lists used to exercise the statements. *)
Definition noHistory : HistorySet := fun _ => false.

Definition deepPaths : list string :=
  ["a/b/c/d/e/f.go"; "a/b/c/g/h.go"; "a/x/y.go"].

Definition deepModel : TreeModel := NewTreeModel deepPaths 80 20 noHistory.

Definition twoFiles : list string := ["a/b"; "a/c"].

Definition twoFilesModel : TreeModel := NewTreeModel twoFiles 80 20 noHistory.

(** The display root of a model, as [View] computes it. *)
Definition displayRoot (m : TreeModel) : pos := displayRootFrom [] (Root m).

(** The history set that holds the directory ["a/b"] only. *)
Definition historyAB : HistorySet := fun s => String.eqb s "a/b".

Definition sumSizes (cs : list Node) : nat :=
  fold_right (fun c acc => size c + acc)%nat 0%nat cs.

(** The paths of the leaves of a subtree, left to right. *)
Fixpoint leafPaths (n : Node) : list string :=
  match Children n with
  | [] => [Path n]
  | _ => flat_map leafPaths (Children n)
  end.

(** A plain path segment: not empty, without separator, neither ["."] nor
    [".."]. *)
Definition plainSeg (s : string) : bool :=
  negb (String.eqb s "") && negb (Str.ContainsSep s)
  && negb (String.eqb s ".") && negb (String.eqb s "..").

(** A clean relative path: every segment is plain. *)
Definition cleanRelative (p : string) : bool := forallb plainSeg (Str.Split p).

(** The path the builder gives to the node reached by the segments
    [route]: the root's ["."] for the empty route. *)
Definition routePath (route : list string) : string :=
  match route with
  | [] => "."
  | _ => Str.JoinSep route
  end.

(** The two parts of the merge step of [compressTree]: the test that
    skips the merge, and the node that results from absorbing [child]. *)
Definition skipsMerge (node child : Node) : bool :=
  (18 <? Str.len (Name node) + 1 + Str.len (Name child))%Z
  && (4 <? countLeaves child)%Z.

Definition mergeInto (node child : Node) : Node :=
  mkNode (Str.Join (Name node) (Name child)) (Path child) (Children child)
         (IsDir child) (IsHistory node) (X node) (Y node).

(** The merge as the specification words it: the label is the two labels
    joined by the separator. *)
Definition mergeBySeparator (node child : Node) : Node :=
  mkNode (Name node ++ "/" ++ Name child) (Path child) (Children child)
         (IsDir child) (IsHistory node) (X node) (Y node).

(** A label made of plain segments. *)
Definition plainLabel (s : string) : Prop :=
  exists segs, segs <> [] /\ Forall (fun x => plainSeg x = true) segs
               /\ s = Str.JoinSep segs.

(** The tree of two absolute paths, and its node for the empty first
    segment. *)
Definition absolutePaths : list string := ["/home/x"; "/home/y"].

Definition emptySegmentNode : Node :=
  nth 0 (Children (buildTree absolutePaths noHistory)) rootNode.

(** The node reached from [n] by following child names, as the walk of
    [buildTree] does. *)
Fixpoint follow (n : Node) (route : list string) : option Node :=
  match route with
  | [] => Some n
  | x :: r =>
      match findChild x (Children n) with
      | Some (_, c) => follow c r
      | None => None
      end
  end.

Definition childNamesAt (t : Node) (route : list string) : list string :=
  match follow t route with
  | Some n => map Name (Children n)
  | None => []
  end.

(** The segment that follows [route] in [segs], when [route] is a proper
    prefix of [segs]. *)
Fixpoint nextAfter (route segs : list string) : option string :=
  match route, segs with
  | [], x :: _ => Some x
  | [], [] => None
  | _ :: _, [] => None
  | y :: r, x :: s => if String.eqb x y then nextAfter r s else None
  end.

Definition addIfNew (names : list string) (x : option string) : list string :=
  match x with
  | Some s => if existsb (String.eqb s) names then names else names ++ [s]
  | None => names
  end.

(** The segments that follow [route] in the input paths, each listed once,
    in the order of its first occurrence. *)
Definition firstOccurrences (route : list string) (paths : list string)
  : list string :=
  fold_left (fun names p => addIfNew names (nextAfter route (Str.Split p)))
            paths [].

(** The loop over the children inside [layoutAssign], on its own. *)
Fixpoint layoutChildren (sel : option pos) (expanded : ExpandedMap)
         (children : list pos) (q : pos) (depth : Z) (i : nat)
         (cs : list Node) (st : LayoutState) : list Node * LayoutState :=
  match cs with
  | [] => ([], st)
  | c :: r =>
      let '(c', st1) :=
        if existsb (pos_eqb (i :: q)) children
        then layoutAssign sel expanded (i :: q) (depth + 1)%Z st c
        else (c, st) in
      let '(r', st2) :=
        layoutChildren sel expanded children q depth (S i) r st1 in
      (c' :: r', st2)
  end.

(** The state [layoutAssign] hands to the loop over the children. *)
Definition afterOwnRow (sel : option pos) (q : pos) (depth : Z)
           (st : LayoutState) (node : Node) : LayoutState :=
  let w := displayWidth (isSelectedPos sel q) (Name node) in
  mkLayoutState (upd (yCounters st) depth (yCounters st depth + 1)%Z)
    (if (widths st depth <? w)%Z then upd (widths st) depth w
     else widths st).

(** The rows [base], [base + 1], ... *)
Definition rowsFrom (base : Z) (k : nat) : list Z :=
  map (fun j => (base + Z.of_nat j)%Z) (seq 0 k).

(** The repository's tree test input. *)
Definition testPaths : list string :=
  ["src/main.go"; "src/utils/helper.go"; "src/utils/string.go";
   "README.md"; "go.mod"; "go.sum"].

(** Every node below [n] carries the path of the segments that lead to
    it, [n] itself being reached by [route]. *)
Inductive PathsFrom : list string -> Node -> Prop :=
  PathsFrom_intro :
    forall route n,
      Path n = routePath route ->
      Forall (fun c => PathsFrom (route ++ [Name c]) c) (Children n) ->
      PathsFrom route n.

(** Some node of the subtree of [n] has the path [target]. *)
Definition hasPath (target : string) (n : Node) : Prop :=
  exists r n', descend n r = Some n' /\ Path n' = target.

(** A path list whose first path is a directory of a later one, and a
    list with one absolute path. *)
Definition prefixPaths : list string := ["a"; "a/b"].

Definition oneAbsolute : list string := ["/a"].

Definition twoTop : list string := ["a"; "b"].

(** An entry of the stack of [findNode]: the node that sits at the
    recorded place of the tree. *)
Definition validEntry (root : Node) (e : pos * Node) : Prop :=
  nodeAt root (fst e) = Some (snd e).

(** A canvas of [h] rows of [w] cells. *)
Definition wellShaped (w h : Z) (cv : Canvas) : Prop :=
  List.length cv = Z.to_nat h
  /\ Forall (fun line => List.length line = Z.to_nat w) cv.

(** The result of a layout pass followed by a shift, seen from the node
    at [q] of depth [d]: the node sits in column [d + shift], every column
    up to [d] has a width of at least 20, and the same holds for the
    visible children. *)
Inductive Laid (sel : option pos) (expanded : ExpandedMap) (cw : Z -> Z)
          (shift : Z) : pos -> Z -> Node -> Prop :=
  Laid_intro :
    forall q d n,
      X n = (d + shift)%Z ->
      (forall k, (0 <= k <= d)%Z -> (20 <= cw k)%Z) ->
      (forall i c,
          nth_error (Children n) i = Some c ->
          existsb (pos_eqb (i :: q)) (visibleChildren sel expanded q n) = true ->
          Laid sel expanded cw shift (i :: q) (d + 1)%Z c) ->
      Laid sel expanded cw shift q d n.

(** The frame of [h] rows without columns. *)
Definition emptyRows (h : Z) : string :=
  flatten h 0 (repeat [] (Z.to_nat h)).

(** [deepModel] with a negative width. *)
Definition negativeWidthModel : TreeModel :=
  mkTreeModel (Root deepModel) (SelectedNode deepModel) (-1) 3 0
              (fun _ => 0%Z).

(** Plain stand-ins for the terminal styling, the rune conversion (one
    rune per byte) and the glyphs, to run [View] on samples. *)
Definition plainStyle (_ : Style) (s : string) : string := s.

Fixpoint byteRunes (s : string) : list string :=
  match s with
  | EmptyString => []
  | String c r => String c EmptyString :: byteRunes r
  end.

Definition asciiGlyph (g : Glyph) : string :=
  match g with
  | GVert => "|" | GTee => "T" | GDash => "-" | GCorner => "L"
  | GBranch => "+"
  end.

(* ===================================================================== *)
(** ** The states of the engine                                           *)
(* ===================================================================== *)

(** The keys [Update] reacts to; every other message only re-runs the
    layout and the scroll adjustment. *)
Inductive Key : Type := KeyUp | KeyDown | KeyRight | KeyLeft | KeyOther.

(** [Update]: the navigation step, then a layout pass and the vertical
    scroll adjustment that keeps the selection in view. *)
Definition Update (m : TreeModel) (k : Key) : TreeModel :=
  let m :=
    match k with
    | KeyUp => moveSelection m (-1)
    | KeyDown => moveSelection m 1
    | KeyRight => enterDirectory m
    | KeyLeft => leaveDirectory m
    | KeyOther => m
    end in
  match SelectedNode m with
  | None => m
  | Some s =>
      let m1 := layoutRoot m (getExpandedMap m) in
      match nodeAt (Root m1) s with
      | None => m1
      | Some selected =>
          let off :=
            if (Y selected <? ScrollOffset m1)%Z then Y selected
            else ScrollOffset m1 in
          let off :=
            if (off + Height m1 <=? Y selected)%Z
            then (Y selected - Height m1 + 1)%Z
            else off in
          mkTreeModel (Root m1) (SelectedNode m1) (Width m1) (Height m1) off
                      (ColWidths m1)
      end
  end.

(** What a call of [View] leaves behind: the coordinates it wrote into the
    nodes; the receiver is a copy, so its other fields stay. *)
Definition afterView (m : TreeModel) : TreeModel :=
  mkTreeModel (Root (viewLayout m)) (SelectedNode m) (Width m) (Height m)
              (ScrollOffset m) (ColWidths m).

(** The host's resize: it assigns the two dimensions. *)
Definition resize (m : TreeModel) (width height : Z) : TreeModel :=
  mkTreeModel (Root m) (SelectedNode m) width height (ScrollOffset m)
              (ColWidths m).

(** The states the engine goes through after [NewTreeModel]. *)
Inductive Reachable : TreeModel -> Prop :=
| Reach_new : forall paths width height historyPaths,
    Reachable (NewTreeModel paths width height historyPaths)
| Reach_update : forall m k, Reachable m -> Reachable (Update m k)
| Reach_view : forall m, Reachable m -> Reachable (afterView m)
| Reach_resize : forall m width height,
    Reachable m -> Reachable (resize m width height).

(** What [View] needs of a state: the selection is a node of the tree,
    and the display root carries a column of at least -1. *)
Definition Renderable (m : TreeModel) : Prop :=
  exists s, SelectedNode m = Some s
            /\ nodeAt (Root m) s <> None
            /\ (forall d0, nodeAt (Root m) (displayRoot m) = Some d0 ->
                           (-1 <= X d0)%Z).

(* ===================================================================== *)
(** ** Further code: the host program around the tree                     *)
(* ===================================================================== *)

(** A tree with all layout coordinates reset: what is left is the
    structure the builder and the compressor made. *)
Fixpoint eraseXY (n : Node) : Node :=
  mkNode (Name n) (Path n) (map eraseXY (Children n)) (IsDir n)
         (IsHistory n) 0 0.

(** [combineFiles] of the host program: [pathSet] is the list of the keys
    set to [true]; one step of either loop. *)
Definition addUnseen (st : list string * list string) (path : string)
  : list string * list string :=
  if existsb (String.eqb path) (fst st) then st
  else (path :: fst st, snd st ++ [path]).

Definition combineFiles (historyFiles currentDirFiles : list string)
  : list string :=
  snd (fold_left addUnseen currentDirFiles
         (fold_left addUnseen historyFiles ([], []))).

(** [strings.HasPrefix] and [filepath.IsAbs]. *)
Definition HasPrefix (s p : string) : bool :=
  match Str.stripPrefix p s with
  | Some _ => true
  | None => false
  end.

Definition IsAbs (p : string) : bool := Str.isRooted p.

(** [resolveSelectedPath] of the host program. *)
Definition resolveSelectedPath (selectedPath baseDir : string) : string :=
  if String.eqb selectedPath "" then ""
  else if IsAbs selectedPath then selectedPath
  else
    let cleaned := Str.Clean selectedPath in
    let baseClean := Str.Clean baseDir in
    if negb (String.eqb baseClean "")
       && HasPrefix cleaned (Str.TrimPrefix baseClean "/")
    then ("/" ++ cleaned)%string
    else if String.eqb baseClean "" then cleaned
         else Str.Join baseClean cleaned.




(** The walk of [buildTree] finds the whole of [parts] in the tree, with
    the flags it would set already set. *)
Fixpoint Present (historyPaths : HistorySet) (path : string)
         (parts : list string) (walked : bool) (t : Node) : Prop :=
  match parts with
  | [] => walked && historyPaths path = true -> IsHistory t = true
  | x :: rest =>
      exists i c,
        findChild x (Children t) = Some (i, c)
        /\ IsDir c = true
        /\ (historyPaths path || historyPaths (Path c) = true ->
            IsHistory c = true)
        /\ Present historyPaths path rest true c
  end.

(** [route] is the beginning of [segs]. *)
Fixpoint isPrefix (route segs : list string) : bool :=
  match route, segs with
  | [], _ => true
  | _ :: _, [] => false
  | y :: r, x :: s => String.eqb x y && isPrefix r s
  end.

(** The test input in a window of two rows, and the state after the keys
    left, down, down. *)
Definition smallWindow : TreeModel := NewTreeModel testPaths 80 2 noHistory.

Definition scrolledOnce : TreeModel :=
  Update (Update (Update smallWindow KeyLeft) KeyDown) KeyDown.









(* ===================================================================== *)
(** ** Facts about the builder                                            *)
(* ===================================================================== *)

Lemma AllNodes_here {P n} : AllNodes P n -> P n.
Proof. now destruct 1. Qed.

Lemma AllNodes_children {P n} : AllNodes P n -> Forall (AllNodes P) (Children n).
Proof. now destruct 1. Qed.

Lemma findChild_Some part cs i c :
  findChild part cs = Some (i, c) ->
  nth_error cs i = Some c /\ Name c = part.
Proof.
  revert i c; induction cs as [|d r IH]; simpl; intros i c H; [discriminate|].
  destruct (String.eqb (Name d) part) eqn:E.
  - inversion H; subst. split; [reflexivity | now apply String.eqb_eq].
  - destruct (findChild part r) as [[j e]|]; [|discriminate].
    inversion H; subst. simpl. now apply IH.
Qed.

Lemma findChild_None part cs :
  findChild part cs = None -> ~ In part (map Name cs).
Proof.
  induction cs as [|d r IH]; simpl; intros H; [tauto|].
  destruct (String.eqb (Name d) part) eqn:E; [discriminate|].
  destruct (findChild part r) as [[j e]|]; [discriminate|].
  intros [A|A]; [apply String.eqb_neq in E; contradiction | now apply IH].
Qed.

Lemma Forall_replaceAt (P : Node -> Prop) i x cs :
  Forall P cs -> P x -> Forall P (replaceAt i x cs).
Proof.
  intros H Hx; revert i; induction H as [|c r Hc Hr IH]; intros [|i]; simpl; auto.
Qed.

Section BuildFacts.
Variable historyPaths : HistorySet.

Lemma insertParts_dirs path parts walked current :
AllNodes (fun n => IsDir n = true) current ->
AllNodes (fun n => IsDir n = true)
  (insertParts historyPaths path parts walked current).
Proof.
revert walked current; induction parts as [|part rest IH]; intros walked current H; simpl.
- destruct (walked && historyPaths path); [|assumption].
  constructor; [apply (AllNodes_here H) | apply (AllNodes_children H)].
- destruct (findChild part (Children current)) as [[i c]|] eqn:E.
  + constructor; [apply (AllNodes_here H)|]. simpl.
    apply Forall_replaceAt; [apply (AllNodes_children H)|].
    apply IH. apply findChild_Some in E as [E _].
    apply nth_error_In in E.
    pose proof (AllNodes_children H) as Hc.
    rewrite Forall_forall in Hc. specialize (Hc _ E).
    destruct (historyPaths path || historyPaths (Path c));
      constructor; simpl; try reflexivity; apply (AllNodes_children Hc).
  + constructor; [apply (AllNodes_here H)|]. simpl.
    apply Forall_app; split; [apply (AllNodes_children H)|].
    constructor; [|constructor]. apply IH.
    constructor; simpl; [reflexivity | constructor].
Qed.
End BuildFacts.

Lemma buildTree_from historyPaths paths t :
  AllNodes (fun n => IsDir n = true) t ->
  AllNodes (fun n => IsDir n = true) (fold_left (insertPath historyPaths) paths t).
Proof.
  revert t; induction paths as [|p r IH]; intros t H; simpl; [assumption|].
  apply IH. now apply insertParts_dirs.
Qed.

(** * C9 *)
(** Claim C9 on the code: after the build step every node of the tree
    carries [IsDir = true], the terminal node of a path that nothing
    extends included; the assignment [current.IsDir = true] that follows
    every step of the walk overrides the flag computed from the segment's
    place in the path. *)
Theorem buildTree_every_node_is_directory paths historyPaths :
  AllNodes (fun n => IsDir n = true) (buildTree paths historyPaths).
Proof.
  apply buildTree_from. constructor; simpl; [reflexivity | constructor].
Qed.

(* ===================================================================== *)
(** ** Facts about positions and visibility                               *)
(* ===================================================================== *)

Lemma pos_eqb_true a b : pos_eqb a b = true <-> a = b.
Proof. unfold pos_eqb; destruct (list_eq_dec Nat.eq_dec a b); split; congruence. Qed.

Lemma pos_eqb_refl a : pos_eqb a a = true.
Proof. now apply pos_eqb_true. Qed.

Lemma pos_eqb_false a b : pos_eqb a b = false <-> a <> b.
Proof. unfold pos_eqb; destruct (list_eq_dec Nat.eq_dec a b); split; congruence. Qed.

Lemma markUpwards_spec s q : In q (markUpwards s) <-> onPathTo s q.
Proof.
  unfold onPathTo. induction s as [|i p IH]; simpl.
  - split.
    + intros [H|[]]; subst. now exists [].
    + intros [l H]. symmetry in H. apply app_eq_nil in H as [_ H]. now left.
  - split.
    + intros [H|H]; [subst; now exists []|].
      apply IH in H as [l H]. exists (i :: l). now rewrite H.
    + intros [[|j l] H]; simpl in H; [now left|].
      right. apply IH. inversion H. now exists l.
Qed.

Lemma isExpanded_In e q : isExpanded e q = true <-> In q e.
Proof.
  unfold isExpanded. rewrite existsb_exists. split.
  - intros [x [H E]]. apply pos_eqb_true in E. now subst.
  - intros H. exists q. split; [assumption | apply pos_eqb_refl].
Qed.

Lemma app_length_neq (l q : pos) : l <> [] -> l ++ q <> q.
Proof.
  intros Hl E. apply (f_equal (@List.length nat)) in E.
  rewrite length_app in E. destruct l; [congruence | simpl in E; lia].
Qed.

Lemma childOnPath_spec q l i : childOnPath q (l ++ i :: q) = Some (i :: q).
Proof.
  induction l as [|j l IH]; simpl.
  - now rewrite pos_eqb_refl.
  - destruct (pos_eqb (l ++ i :: q) q) eqn:E; [|exact IH].
    apply pos_eqb_true in E. exfalso.
    apply (@app_length_neq (l ++ [i]) q); [now destruct l|].
    now rewrite <- app_assoc.
Qed.

(** The visible children of a node: all its children, the one child
    whose parent it is on the way up from the selection, or none. *)
Lemma visibleChildren_shape sel expanded q n :
  visibleChildren sel expanded q n = childPtrs q n
  \/ visibleChildren sel expanded q n = []
  \/ exists i, visibleChildren sel expanded q n = [i :: q].
Proof.
  unfold visibleChildren.
  destruct (negb (isExpanded expanded q)); [now right; left|].
  destruct sel as [s|]; [|now left].
  destruct (pos_eqb q s
            || match parentOf s with Some p => pos_eqb q p | None => false end);
    [now left|].
  destruct (childOnPath q s) as [c|] eqn:E; [|now left].
  right; right. clear - E. induction s as [|i p IH]; simpl in E; [discriminate|].
  destruct (pos_eqb p q) eqn:P.
  - apply pos_eqb_true in P. inversion E; subst. now exists i.
  - now apply IH.
Qed.

(** * C2 *)
(** Claim C2. For a model whose selection is [s], the visible children of
    a node at [q] are: all its children when [q] is the selection or the
    selection's parent; only the child on the way to the selection when
    [q] is a higher ancestor (the root included), and that child is one of
    the node's children when the selection is in the tree; nothing when [q]
    is neither the selection nor one of its ancestors. *)
Theorem visible_children_policy (m : TreeModel) (s q : pos) (n : Node) :
  SelectedNode m = Some s ->
  nodeAt (Root m) q = Some n ->
  let vis := getVisibleChildren m q (getExpandedMap m) in
  (q = s \/ parentOf s = Some q -> vis = childPtrs q n)
  /\ (forall l i, l <> [] -> s = l ++ i :: q ->
        vis = [i :: q] /\ (List.length vis <= 1)%nat
        /\ (nodeAt (Root m) s <> None -> In (i :: q) (childPtrs q n)))
  /\ (~ onPathTo s q -> vis = []).
Proof.
  intros Hs Hq vis. subst vis.
  unfold getVisibleChildren, getExpandedMap, visibleChildren.
  rewrite Hq, Hs. repeat split.
  - intros H.
    assert (E : isExpanded ([] :: markUpwards s) q = true).
    { apply isExpanded_In. right. apply markUpwards_spec.
      destruct H as [H|H]; [subst; now exists []|].
      destruct s as [|i p]; simpl in H; [discriminate|].
      inversion H; subst. now exists [i]. }
    rewrite E. simpl.
    destruct H as [H|H].
    + subst. now rewrite pos_eqb_refl.
    + rewrite H, pos_eqb_refl. now rewrite orb_true_r.
  - assert (E : isExpanded ([] :: markUpwards s) q = true).
    { apply isExpanded_In. right. apply markUpwards_spec.
      exists (l ++ [i]). now rewrite <- app_assoc. }
    rewrite E. simpl.
    assert (N1 : pos_eqb q s = false).
    { apply pos_eqb_false. intros F. subst q.
      apply (@app_length_neq (l ++ [i]) s); [now destruct l|].
      now rewrite <- app_assoc. }
    assert (N2 : match parentOf s with Some p => pos_eqb q p | None => false end = false).
    { destruct s as [|j p]; [reflexivity|]. simpl.
      apply pos_eqb_false. intros F. subst p.
      destruct l as [|k l]; [congruence|]. simpl in H0. inversion H0.
      apply (@app_length_neq (l ++ [i]) q); [now destruct l|].
      now rewrite <- app_assoc. }
    rewrite N1, N2. simpl. subst s. now rewrite childOnPath_spec.
  - assert (E : isExpanded ([] :: markUpwards s) q = true).
    { apply isExpanded_In. right. apply markUpwards_spec.
      exists (l ++ [i]). now rewrite <- app_assoc. }
    rewrite E. simpl.
    assert (N1 : pos_eqb q s = false).
    { apply pos_eqb_false. intros F. subst q.
      apply (@app_length_neq (l ++ [i]) s); [now destruct l|].
      now rewrite <- app_assoc. }
    assert (N2 : match parentOf s with Some p => pos_eqb q p | None => false end = false).
    { destruct s as [|j p]; [reflexivity|]. simpl.
      apply pos_eqb_false. intros F. subst p.
      destruct l as [|k l]; [congruence|]. simpl in H0. inversion H0.
      apply (@app_length_neq (l ++ [i]) q); [now destruct l|].
      now rewrite <- app_assoc. }
    rewrite N1, N2. simpl. subst s. rewrite childOnPath_spec. simpl. lia.
  - intros Hv. subst s.
    unfold nodeAt in Hv, Hq. rewrite rev_app_distr in Hv. simpl in Hv.
    rewrite <- app_assoc in Hv. simpl in Hv.
    assert (D : forall r1 r2 t, descend t (r1 ++ r2) =
                match descend t r1 with Some u => descend u r2 | None => None end).
    { induction r1 as [|a r1 IH]; intros r2 t; simpl; [reflexivity|].
      destruct (nth_error (Children t) a); [apply IH | reflexivity]. }
    rewrite D, Hq in Hv. simpl in Hv.
    unfold childPtrs. apply in_map_iff. exists i. split; [reflexivity|].
    apply in_seq. split; [lia|]. simpl.
    destruct (nth_error (Children n) i) eqn:En; [|congruence].
    apply nth_error_Some. congruence.
  - intros Hn.
    assert (E : isExpanded ([] :: markUpwards s) q = false).
    { destruct (isExpanded ([] :: markUpwards s) q) eqn:E; [|reflexivity].
      exfalso. apply Hn. apply isExpanded_In in E as [E|E].
      - subst q. exists s. now rewrite app_nil_r.
      - now apply markUpwards_spec. }
    now rewrite E.
Qed.

Lemma visible_children_policy_witness :
  SelectedNode deepModel = Some [0; 0; 0]%nat
  /\ nodeAt (Root deepModel) [] = Some (Root deepModel)
  /\ getVisibleChildren deepModel [] (getExpandedMap deepModel) = [[0%nat]].
Proof.
  split; [reflexivity|]. split; [reflexivity|].
  refine (proj1 (proj1 (proj2 (@visible_children_policy deepModel
            [0; 0; 0]%nat [] (Root deepModel) eq_refl eq_refl))
            [0; 0]%nat 0%nat _ eq_refl)).
  discriminate.
Defined.

(* ===================================================================== *)
(** ** Navigation bounds                                                  *)
(* ===================================================================== *)




(** The terminal node of the only path ["a"] is a directory after the
    build. *)
Example single_file_is_directory :
  map IsDir (Children (buildTree ["a"] noHistory)) = [true].
Proof. reflexivity. Qed.

(* ===================================================================== *)
(** ** The empty path list                                                *)
(* ===================================================================== *)

(** * C7 *)
(** Claim C7 on the code: built from the empty path list, the tree is the
    root alone and the selection is the root; [SelectedPath] then returns
    the root's own path ["."], not the empty string. *)
Theorem empty_list_model width height historyPaths :
  let m := NewTreeModel [] width height historyPaths in
  Root m = rootNode
  /\ Children (Root m) = []
  /\ SelectedNode m = Some []
  /\ SelectedPath m = "."
  /\ SelectedPath m <> "".
Proof.
  simpl. repeat split. discriminate.
Qed.

(* ===================================================================== *)
(** ** The historical flag under merging                                  *)
(* ===================================================================== *)

Lemma compressFuel_IsHistory fuel n :
  IsHistory (compressFuel fuel n) = IsHistory n.
Proof.
  revert n; induction fuel as [|f IH]; intros n; simpl; [reflexivity|].
  destruct (negb (IsDir n) || (List.length (Children n) =? 0)%nat);
    [reflexivity|].
  destruct (String.eqb (Name n) "ROOT"); [reflexivity|].
  destruct (map (compressFuel f) (Children n)) as [|c [|d r]];
    try reflexivity.
  destruct ((18 <? Str.len (Name n) + 1 + Str.len (Name c))%Z
            && (4 <? countLeaves c)%Z); [reflexivity|].
  now rewrite IH.
Qed.

(** * C4 *)
(** Claim C4 on the code: a merge keeps the absorbing node's own
    [IsHistory] and drops the child's, so the compressor never changes the
    flag of the node it is called on. With ["a/b"] marked historical and
    the paths ["a/b/c"] and ["a/b/d"], the builder marks the node [b]; the
    compressor merges [a] with [b] into a node whose path is ["a/b"] and
    whose flag is [false]. *)
Theorem merge_drops_child_history :
  let built := buildTree ["a/b/c"; "a/b/d"] historyAB in
  let merged := compressTree built in
  map (fun a => (Name a, IsHistory a,
                 map (fun b => (Name b, Path b, IsHistory b)) (Children a)))
      (Children built)
  = [("a", false, [("b", "a/b", true)])]
  /\ map (fun a => (Name a, Path a, IsHistory a)) (Children merged)
     = [("a/b", "a/b", false)]
  /\ historyAB "a/b" = true
  /\ (forall n, IsHistory (compressTree n) = IsHistory n).
Proof.
  repeat split. intros n. apply compressFuel_IsHistory.
Qed.

(* ===================================================================== *)
(** ** Facts about the compressor                                         *)
(* ===================================================================== *)

Lemma size_unfold n : size n = S (sumSizes (Children n)).
Proof. destruct n; reflexivity. Qed.

Lemma size_child c cs : In c cs -> (size c <= sumSizes cs)%nat.
Proof.
  induction cs as [|d r IH]; simpl; [tauto|].
  intros [H|H]; [subst; lia | specialize (IH H); lia].
Qed.

Lemma sumSizes_map_le (f : Node -> Node) cs :
  (forall c, In c cs -> (size (f c) <= size c)%nat) ->
  (sumSizes (map f cs) <= sumSizes cs)%nat.
Proof.
  induction cs as [|d r IH]; simpl; intros H; [lia|].
  pose proof (H d (or_introl eq_refl)).
  assert (sumSizes (map f r) <= sumSizes r)%nat by (apply IH; intros; apply H; now right).
  lia.
Qed.

Lemma compressFuel_size fuel n : (size (compressFuel fuel n) <= size n)%nat.
Proof.
  revert n; induction fuel as [|f IH]; intros n; simpl; [lia|].
  destruct (negb (IsDir n) || (List.length (Children n) =? 0)%nat); [lia|].
  assert (Hm : (sumSizes (map (compressFuel f) (Children n))
                <= sumSizes (Children n))%nat)
    by (apply sumSizes_map_le; intros; apply IH).
  rewrite (size_unfold n).
  destruct (String.eqb (Name n) "ROOT").
  { rewrite size_unfold. simpl. lia. }
  destruct (map (compressFuel f) (Children n)) as [|c [|d r]] eqn:E.
  - rewrite size_unfold. simpl. lia.
  - destruct ((18 <? Str.len (Name n) + 1 + Str.len (Name c))%Z
              && (4 <? countLeaves c)%Z).
    + rewrite size_unfold. simpl. simpl in Hm. lia.
    + etransitivity; [apply IH|]. rewrite size_unfold. simpl.
      simpl in Hm. rewrite (size_unfold c) in Hm. lia.
  - rewrite size_unfold. simpl. simpl in Hm. lia.
Qed.

(** A budget of at least the size of the subtree is never used up. *)
Lemma compressFuel_enough f1 : forall f2 n,
  (size n <= f1)%nat -> (size n <= f2)%nat ->
  compressFuel f1 n = compressFuel f2 n.
Proof.
  induction f1 as [|a IH]; intros f2 n H1 H2.
  { rewrite size_unfold in H1. lia. }
  destruct f2 as [|b]; [rewrite size_unfold in H2; lia|].
  simpl.
  destruct (negb (IsDir n) || (List.length (Children n) =? 0)%nat);
    [reflexivity|].
  assert (Hm : map (compressFuel a) (Children n)
               = map (compressFuel b) (Children n)).
  { apply map_ext_in. intros c Hc. apply size_child in Hc.
    rewrite size_unfold in H1, H2. apply IH; lia. }
  rewrite <- Hm.
  destruct (String.eqb (Name n) "ROOT"); [reflexivity|].
  destruct (map (compressFuel a) (Children n)) as [|c [|d r]] eqn:E;
    try reflexivity.
  destruct ((18 <? Str.len (Name n) + 1 + Str.len (Name c))%Z
            && (4 <? countLeaves c)%Z); [reflexivity|].
  assert (Hc : (size c <= sumSizes (Children n))%nat).
  { assert (Hs : (sumSizes (map (compressFuel a) (Children n))
                  <= sumSizes (Children n))%nat)
      by (apply sumSizes_map_le; intros; apply compressFuel_size).
    rewrite E in Hs. simpl in Hs. lia. }
  rewrite size_unfold in H1, H2.
  apply IH; rewrite size_unfold; simpl; rewrite (size_unfold c) in Hc; lia.
Qed.

Lemma compressFuel_tree fuel n :
  (size n <= fuel)%nat -> compressFuel fuel n = compressTree n.
Proof. intros H. unfold compressTree. now apply compressFuel_enough. Qed.

Lemma map_compressFuel fuel cs :
  (sumSizes cs <= fuel)%nat ->
  map (compressFuel fuel) cs = map compressTree cs.
Proof.
  intros H. apply map_ext_in. intros c Hc. apply compressFuel_tree.
  apply size_child in Hc. lia.
Qed.

(** The defining equation of [compressTree], free of the step budget. *)
Lemma compressTree_eq n :
  compressTree n =
  if negb (IsDir n) || (List.length (Children n) =? 0)%nat then n
  else
    let node := setChildren n (map compressTree (Children n)) in
    if String.eqb (Name n) "ROOT" then node
    else
      match Children node with
      | [child] =>
          if (18 <? Str.len (Name n) + 1 + Str.len (Name child))%Z
             && (4 <? countLeaves child)%Z
          then node
          else compressTree
                 (mkNode (Str.Join (Name n) (Name child)) (Path child)
                         (Children child) (IsDir child) (IsHistory n)
                         (X n) (Y n))
      | _ => node
      end.
Proof.
  unfold compressTree at 1. rewrite size_unfold. simpl.
  destruct (negb (IsDir n) || (List.length (Children n) =? 0)%nat);
    [reflexivity|].
  rewrite map_compressFuel by lia.
  destruct (String.eqb (Name n) "ROOT"); [reflexivity|].
  destruct (map compressTree (Children n)) as [|c [|d r]] eqn:E;
    try reflexivity.
  destruct ((18 <? Str.len (Name n) + 1 + Str.len (Name c))%Z
            && (4 <? countLeaves c)%Z); [reflexivity|].
  apply compressFuel_tree. rewrite size_unfold. simpl.
  assert (Hs : (sumSizes (map compressTree (Children n))
                <= sumSizes (Children n))%nat)
    by (apply sumSizes_map_le; intros; apply compressFuel_size).
  rewrite E in Hs. simpl in Hs. rewrite (size_unfold c) in Hs. lia.
Qed.

Lemma countLeaves_unfold n :
  countLeaves n =
  match Children n with
  | [] => 1%Z
  | _ => fold_right (fun c acc => countLeaves c + acc)%Z 0%Z (Children n)
  end.
Proof. destruct n; reflexivity. Qed.

Lemma leafPaths_unfold n :
  leafPaths n =
  match Children n with
  | [] => [Path n]
  | _ => flat_map leafPaths (Children n)
  end.
Proof. destruct n; reflexivity. Qed.

Lemma fold_countLeaves_map (f : Node -> Node) cs :
  (forall c, countLeaves (f c) = countLeaves c) ->
  fold_right (fun c acc => countLeaves c + acc)%Z 0%Z (map f cs)
  = fold_right (fun c acc => countLeaves c + acc)%Z 0%Z cs.
Proof. intros H; induction cs as [|c r IH]; simpl; [reflexivity|]. now rewrite H, IH. Qed.

Lemma flat_leafPaths_map (f : Node -> Node) cs :
  (forall c, leafPaths (f c) = leafPaths c) ->
  flat_map leafPaths (map f cs) = flat_map leafPaths cs.
Proof. intros H; induction cs as [|c r IH]; simpl; [reflexivity|]. now rewrite H, IH. Qed.

Lemma compressFuel_countLeaves fuel n :
  countLeaves (compressFuel fuel n) = countLeaves n.
Proof.
  revert n; induction fuel as [|f IH]; intros n; simpl; [reflexivity|].
  destruct (negb (IsDir n) || (List.length (Children n) =? 0)%nat);
    [reflexivity|].
  assert (Hn : countLeaves (setChildren n (map (compressFuel f) (Children n)))
               = countLeaves n).
  { rewrite (countLeaves_unfold n), countLeaves_unfold. simpl.
    rewrite fold_countLeaves_map by apply IH.
    now destruct (Children n). }
  destruct (String.eqb (Name n) "ROOT"); [exact Hn|].
  destruct (map (compressFuel f) (Children n)) as [|c [|d r]] eqn:E;
    try exact Hn.
  destruct ((18 <? Str.len (Name n) + 1 + Str.len (Name c))%Z
            && (4 <? countLeaves c)%Z); [exact Hn|].
  rewrite IH, <- Hn.
  rewrite (countLeaves_unfold (setChildren _ _)), countLeaves_unfold. simpl.
  rewrite (countLeaves_unfold c). destruct (Children c); lia.
Qed.

Lemma compressFuel_leafPaths fuel n :
  leafPaths (compressFuel fuel n) = leafPaths n.
Proof.
  revert n; induction fuel as [|f IH]; intros n; simpl; [reflexivity|].
  destruct (negb (IsDir n) || (List.length (Children n) =? 0)%nat);
    [reflexivity|].
  assert (Hn : leafPaths (setChildren n (map (compressFuel f) (Children n)))
               = leafPaths n).
  { rewrite (leafPaths_unfold n), leafPaths_unfold. simpl.
    rewrite flat_leafPaths_map by apply IH.
    now destruct (Children n). }
  destruct (String.eqb (Name n) "ROOT"); [exact Hn|].
  destruct (map (compressFuel f) (Children n)) as [|c [|d r]] eqn:E;
    try exact Hn.
  destruct ((18 <? Str.len (Name n) + 1 + Str.len (Name c))%Z
            && (4 <? countLeaves c)%Z); [exact Hn|].
  rewrite IH, <- Hn.
  rewrite (leafPaths_unfold (setChildren _ _)), leafPaths_unfold. simpl.
  rewrite (leafPaths_unfold c), app_nil_r. now destruct (Children c).
Qed.

Lemma compressTree_countLeaves n : countLeaves (compressTree n) = countLeaves n.
Proof. apply compressFuel_countLeaves. Qed.

Lemma compressTree_leafPaths n : leafPaths (compressTree n) = leafPaths n.
Proof. apply compressFuel_leafPaths. Qed.

(* ===================================================================== *)
(** ** Facts about [Split], [Clean] and [Join]                            *)
(* ===================================================================== *)

Lemma str_app_assoc (a b c : string) :
  ((a ++ b) ++ c)%string = (a ++ (b ++ c))%string.
Proof. induction a as [|x a IH]; simpl; [reflexivity | now rewrite IH]. Qed.

Lemma str_app_length (a b : string) :
  String.length (a ++ b) = (String.length a + String.length b)%nat.
Proof. induction a as [|x a IH]; simpl; [reflexivity | now rewrite IH]. Qed.

Lemma Split_nonempty s : Str.Split s <> [].
Proof.
  destruct s as [|c r]; simpl; [discriminate|].
  destruct (Ascii.eqb c Str.Separator); [discriminate|].
  destruct (Str.Split r); discriminate.
Qed.

Lemma JoinSep_cons x r :
  r <> [] -> Str.JoinSep (x :: r) = (x ++ "/" ++ Str.JoinSep r)%string.
Proof. destruct r; [congruence | reflexivity]. Qed.

Lemma JoinSep_Split s : Str.JoinSep (Str.Split s) = s.
Proof.
  induction s as [|c r IH]; [reflexivity|]. simpl.
  destruct (Ascii.eqb c Str.Separator) eqn:E.
  - apply Ascii.eqb_eq in E. subst c.
    rewrite JoinSep_cons by apply Split_nonempty. simpl. now rewrite IH.
  - destruct (Str.Split r) as [|h t] eqn:S; [now apply Split_nonempty in S|].
    destruct t as [|h' t].
    + simpl in *. now rewrite IH.
    + rewrite JoinSep_cons by discriminate.
      rewrite JoinSep_cons in IH by discriminate.
      simpl. now rewrite <- IH.
Qed.

Lemma Split_plain s : Str.ContainsSep s = false -> Str.Split s = [s].
Proof.
  induction s as [|c r IH]; simpl; [reflexivity|].
  intros H. apply orb_false_iff in H as [H1 H2].
  rewrite H1, (IH H2). reflexivity.
Qed.

Lemma Split_app_String a rest :
  Str.ContainsSep a = false ->
  Str.Split (a ++ String "/"%char rest) = a :: Str.Split rest.
Proof.
  induction a as [|c r IH]; simpl; intros H; [reflexivity|].
  apply orb_false_iff in H as [H1 H2].
  rewrite H1, (IH H2). reflexivity.
Qed.

Lemma Split_app_sep a rest :
  Str.ContainsSep a = false ->
  Str.Split (a ++ "/" ++ rest) = a :: Str.Split rest.
Proof. exact (@Split_app_String a rest). Qed.

Lemma Split_JoinSep segs :
  segs <> [] ->
  Forall (fun s => Str.ContainsSep s = false) segs ->
  Str.Split (Str.JoinSep segs) = segs.
Proof.
  induction segs as [|a r IH]; [congruence|]. intros _ H.
  inversion H as [|? ? Ha Hr]; subst.
  destruct r as [|b r]; [now apply Split_plain|].
  rewrite JoinSep_cons by discriminate.
  rewrite Split_app_sep by assumption.
  now rewrite IH.
Qed.

Lemma JoinSep_app l1 l2 :
  l1 <> [] -> l2 <> [] ->
  Str.JoinSep (l1 ++ l2) = (Str.JoinSep l1 ++ "/" ++ Str.JoinSep l2)%string.
Proof.
  induction l1 as [|a r IH]; [congruence|]. intros _ H2.
  destruct r as [|b r].
  - change ([a] ++ l2) with (a :: l2). now rewrite JoinSep_cons.
  - change ((a :: b :: r) ++ l2) with (a :: b :: (r ++ l2)).
    rewrite JoinSep_cons by discriminate.
    change (b :: r ++ l2) with ((b :: r) ++ l2).
    rewrite IH by (discriminate || assumption).
    rewrite (JoinSep_cons a (b :: r)) by discriminate.
    now rewrite !str_app_assoc.
Qed.

Lemma plainSeg_spec s :
  plainSeg s = true ->
  s <> "" /\ Str.ContainsSep s = false /\ s <> "." /\ s <> "..".
Proof.
  unfold plainSeg. rewrite !andb_true_iff, !negb_true_iff.
  intros [[[A B] C] D]. repeat split; try assumption;
    now apply String.eqb_neq.
Qed.

Lemma cleanStep_plain rooted out s :
  plainSeg s = true -> Str.cleanStep rooted out s = s :: out.
Proof.
  intros H. apply plainSeg_spec in H as (A & _ & C & D).
  unfold Str.cleanStep.
  apply String.eqb_neq in A, C, D. now rewrite A, C, D.
Qed.

Lemma fold_cleanStep_plain rooted segs out :
  Forall (fun s => plainSeg s = true) segs ->
  fold_left (Str.cleanStep rooted) segs out = rev segs ++ out.
Proof.
  intros H; revert out; induction H as [|s r Hs Hr IH]; intros out; simpl;
    [reflexivity|].
  rewrite cleanStep_plain by assumption. rewrite IH.
  now rewrite <- app_assoc.
Qed.

Lemma plain_not_rooted s r :
  plainSeg s = true -> Str.isRooted (s ++ r) = false.
Proof.
  intros H. apply plainSeg_spec in H as (A & B & _).
  destruct s as [|c s]; [congruence|]. simpl in *.
  now apply orb_false_iff in B as [B _].
Qed.

Lemma JoinSep_plain_head s r :
  plainSeg s = true ->
  exists t, Str.JoinSep (s :: r) = (s ++ t)%string.
Proof.
  intros _. destruct r as [|b r].
  - exists "". simpl. clear. induction s; simpl; congruence.
  - exists ("/" ++ Str.JoinSep (b :: r))%string. reflexivity.
Qed.

Lemma append_nonempty (a b : string) : a <> "" -> (a ++ b)%string <> "".
Proof. destruct a; [congruence | discriminate]. Qed.

(** [Clean] leaves the join of plain segments as it is. *)
Lemma Clean_plain segs :
  segs <> [] ->
  Forall (fun s => plainSeg s = true) segs ->
  Str.Clean (Str.JoinSep segs) = Str.JoinSep segs.
Proof.
  intros Hne H. unfold Str.Clean.
  destruct segs as [|s r]; [congruence|].
  inversion H as [|? ? Hs Hr]; subst.
  destruct (JoinSep_plain_head s r Hs) as [t Et].
  assert (N : Str.JoinSep (s :: r) <> "").
  { rewrite Et. apply append_nonempty. now apply plainSeg_spec in Hs. }
  apply String.eqb_neq in N. rewrite N.
  assert (R : Str.isRooted (Str.JoinSep (s :: r)) = false)
    by (rewrite Et; now apply plain_not_rooted).
  rewrite R.
  rewrite Split_JoinSep; [| discriminate |].
  2:{ eapply Forall_impl; [|exact H]. intros a Ha.
      now apply plainSeg_spec in Ha. }
  rewrite fold_cleanStep_plain by assumption.
  rewrite app_nil_r, rev_involutive. now rewrite N.
Qed.

(** [Join] of two labels made of plain segments is their join by the
    separator. *)
Lemma Join_plain sa sb :
  sa <> [] -> sb <> [] ->
  Forall (fun s => plainSeg s = true) sa ->
  Forall (fun s => plainSeg s = true) sb ->
  Str.Join (Str.JoinSep sa) (Str.JoinSep sb)
  = (Str.JoinSep sa ++ "/" ++ Str.JoinSep sb)%string
  /\ Str.Join (Str.JoinSep sa) (Str.JoinSep sb) = Str.JoinSep (sa ++ sb).
Proof.
  intros Ha Hb Fa Fb.
  assert (E : Str.Join (Str.JoinSep sa) (Str.JoinSep sb)
              = Str.JoinSep (sa ++ sb)).
  { unfold Str.Join, Str.JoinList.
    destruct sa as [|s r]; [congruence|].
    inversion Fa as [|? ? Hs Hr]; subst.
    destruct (JoinSep_plain_head s r Hs) as [t Et].
    assert (N : Str.JoinSep (s :: r) <> "").
    { rewrite Et. apply append_nonempty. now apply plainSeg_spec in Hs. }
    apply String.eqb_neq in N. rewrite N.
    change (Str.JoinSep [Str.JoinSep (s :: r); Str.JoinSep sb])
      with (Str.JoinSep (s :: r) ++ "/" ++ Str.JoinSep sb)%string.
    rewrite <- JoinSep_app by (discriminate || assumption).
    apply Clean_plain; [discriminate|].
    apply Forall_app. split; assumption. }
  split; [|exact E]. rewrite E. now apply JoinSep_app.
Qed.

Lemma Join_root part :
  plainSeg part = true -> Str.Join "." part = part.
Proof.
  intros H. pose proof (plainSeg_spec _ H) as (A & B & C & D).
  unfold Str.Join, Str.JoinList. simpl String.eqb.
  change (Str.JoinSep ["."; part]) with ("./" ++ part)%string.
  unfold Str.Clean. simpl String.eqb. simpl Str.isRooted.
  change ("./" ++ part)%string with ("." ++ "/" ++ part)%string.
  rewrite Split_app_sep by reflexivity.
  rewrite Split_plain by assumption. simpl fold_left.
  rewrite cleanStep_plain by assumption. simpl.
  apply String.eqb_neq in A. now rewrite A.
Qed.

Lemma Join_route route part :
  Forall (fun s => plainSeg s = true) route ->
  plainSeg part = true ->
  Str.Join (routePath route) part = routePath (route ++ [part]).
Proof.
  intros Hr Hp. destruct route as [|s r].
  - simpl. now apply Join_root.
  - change (routePath (s :: r)) with (Str.JoinSep (s :: r)).
    replace (routePath ((s :: r) ++ [part]))
      with (Str.JoinSep ((s :: r) ++ [part])) by reflexivity.
    change part with (Str.JoinSep [part]) at 1.
    apply Join_plain; try discriminate; auto.
Qed.

(* ===================================================================== *)
(** ** The merge rule of the compressor                                   *)
(* ===================================================================== *)

(** * C1 *)
(** Claim C1, as the code has it. A directory node other than [ROOT] with
    exactly one child is, once the child is compressed, left un-merged if
    [len(label) + 1 + len(child label)] exceeds 18 bytes and the child's
    subtree has more than 4 leaves, and otherwise replaced by the merged
    node, which is compressed again; the merged node takes the child's
    path, directory flag and children and the label
    [filepath.Join(label, child label)], which is the two labels joined by
    the separator when both are made of plain segments. Compressing the
    child does not change its leaf count. *)
Theorem compress_single_child (n c : Node) :
  IsDir n = true ->
  Children n = [c] ->
  Name n <> "ROOT" ->
  let c' := compressTree c in
  countLeaves c' = countLeaves c
  /\ compressTree n =
     (if (18 <? Str.len (Name n) + 1 + Str.len (Name c'))%Z
         && (4 <? countLeaves c)%Z
      then setChildren n [c']
      else compressTree (mergeInto n c'))
  /\ Path (mergeInto n c') = Path c'
  /\ IsDir (mergeInto n c') = IsDir c'
  /\ Children (mergeInto n c') = Children c'
  /\ (plainLabel (Name n) -> plainLabel (Name c') ->
      Name (mergeInto n c') = (Name n ++ "/" ++ Name c')%string
      /\ Str.len (Name (mergeInto n c'))
         = (Str.len (Name n) + 1 + Str.len (Name c'))%Z
      /\ plainLabel (Name (mergeInto n c'))).
Proof.
  intros Hd Hc Hn c'. subst c'.
  split; [apply compressTree_countLeaves|].
  split.
  { rewrite (compressTree_eq n). rewrite Hd, Hc. simpl.
    apply String.eqb_neq in Hn. rewrite Hn.
    rewrite compressTree_countLeaves. reflexivity. }
  repeat split; try reflexivity.
  - destruct H as (sa & Ha & Fa & Ea). destruct H0 as (sb & Hb & Fb & Eb).
    simpl. rewrite Ea, Eb. now apply Join_plain.
  - destruct H as (sa & Ha & Fa & Ea). destruct H0 as (sb & Hb & Fb & Eb).
    simpl. rewrite Ea, Eb.
    destruct (Join_plain sa sb Ha Hb Fa Fb) as [E _]. rewrite E.
    unfold Str.len. rewrite !str_app_length. simpl. lia.
  - destruct H as (sa & Ha & Fa & Ea). destruct H0 as (sb & Hb & Fb & Eb).
    exists (sa ++ sb). split; [destruct sa; [congruence | discriminate]|].
    split; [apply Forall_app; now split|].
    simpl. rewrite Ea, Eb. now apply Join_plain.
Qed.

Lemma compress_single_child_witness :
  let n := nth 0 (Children (buildTree ["a/b/c"; "a/b/d"] noHistory)) rootNode in
  let c := nth 0 (Children n) rootNode in
  Name n = "a" /\ Name c = "b"
  /\ compressTree n = compressTree (mergeInto n (compressTree c))
  /\ Name (compressTree n) = "a/b".
Proof.
  intros n c. split; [reflexivity|]. split; [reflexivity|].
  split; [|reflexivity].
  refine (proj1 (proj2 (@compress_single_child n c eq_refl eq_refl _))).
  discriminate.
Defined.

(** The claim as the specification words it, with the label of the merged
    node being the two labels joined by the separator: the node for the
    empty first segment of an absolute path absorbs [home], and its label
    is ["home"], not ["/home"]. *)
Lemma merged_label_not_separator_joined :
  ~ (forall n c,
       IsDir n = true -> Children n = [c] -> Name n <> "ROOT" ->
       skipsMerge n (compressTree c) = false ->
       compressTree n = compressTree (mergeBySeparator n (compressTree c))).
Proof.
  intros H.
  specialize (H emptySegmentNode (nth 0 (Children emptySegmentNode) rootNode)
                eq_refl eq_refl).
  assert (N : Name emptySegmentNode <> "ROOT") by discriminate.
  specialize (H N eq_refl).
  apply (f_equal Name) in H. vm_compute in H. discriminate H.
Qed.

(* ===================================================================== *)
(** ** The builder keeps the order of first occurrence                    *)
(* ===================================================================== *)

Lemma findChild_replaceAt_same x cs i c d :
  findChild x cs = Some (i, c) -> Name d = x ->
  findChild x (replaceAt i d cs) = Some (i, d).
Proof.
  revert i c; induction cs as [|e r IH]; simpl; intros i c H Hd; [discriminate|].
  destruct (String.eqb (Name e) x) eqn:E.
  - inversion H; subst. simpl. now rewrite String.eqb_refl.
  - destruct (findChild x r) as [[j k]|] eqn:F; [|discriminate].
    inversion H; subst. simpl. rewrite E.
    now rewrite (IH j c eq_refl eq_refl).
Qed.

Lemma findChild_replaceAt_other y cs i c d :
  nth_error cs i = Some c -> Name c <> y -> Name d <> y ->
  findChild y (replaceAt i d cs) = findChild y cs.
Proof.
  revert i; induction cs as [|e r IH]; intros [|i]; simpl; intros H Hc Hd;
    try discriminate.
  - inversion H; subst.
    apply String.eqb_neq in Hc, Hd. now rewrite Hc, Hd.
  - destruct (String.eqb (Name e) y); [reflexivity|].
    now rewrite (IH i H Hc Hd).
Qed.

Lemma findChild_app_new x cs d :
  findChild x cs = None -> Name d = x ->
  findChild x (cs ++ [d]) = Some (List.length cs, d).
Proof.
  induction cs as [|e r IH]; simpl; intros H Hd.
  - subst. now rewrite String.eqb_refl.
  - destruct (String.eqb (Name e) x); [discriminate|].
    destruct (findChild x r) as [[j k]|]; [discriminate|].
    now rewrite (IH eq_refl Hd).
Qed.

Lemma findChild_app_other y cs d :
  Name d <> y -> findChild y (cs ++ [d]) = findChild y cs.
Proof.
  intros Hd. induction cs as [|e r IH]; simpl.
  - apply String.eqb_neq in Hd. now rewrite Hd.
  - destruct (String.eqb (Name e) y); [reflexivity|]. now rewrite IH.
Qed.

Lemma map_Name_replaceAt cs i c d :
  nth_error cs i = Some c -> Name d = Name c ->
  map Name (replaceAt i d cs) = map Name cs.
Proof.
  revert i; induction cs as [|e r IH]; intros [|i]; simpl; intros H Hd;
    try discriminate.
  - inversion H; subst. now rewrite Hd.
  - now rewrite (IH i H Hd).
Qed.

Lemma insertParts_Name historyPaths path parts walked t :
  Name (insertParts historyPaths path parts walked t) = Name t.
Proof.
  destruct parts as [|x rest]; simpl.
  - now destruct (walked && historyPaths path).
  - now destruct (findChild x (Children t)) as [[i c]|].
Qed.

Lemma insertParts_Path historyPaths path parts walked t :
  Path (insertParts historyPaths path parts walked t) = Path t.
Proof.
  destruct parts as [|x rest]; simpl.
  - now destruct (walked && historyPaths path).
  - now destruct (findChild x (Children t)) as [[i c]|].
Qed.

Lemma follow_children t t' route :
  Children t = Children t' -> route <> [] -> follow t route = follow t' route.
Proof. intros H Hr. destruct route; [congruence|]. simpl. now rewrite H. Qed.

Lemma childNamesAt_children t t' route :
  Children t = Children t' -> childNamesAt t route = childNamesAt t' route.
Proof.
  intros H. unfold childNamesAt. destruct route as [|x r].
  - simpl. now rewrite H.
  - now rewrite (follow_children t t' (x :: r) H) by discriminate.
Qed.

Lemma childNamesAt_leaf t route : Children t = [] -> childNamesAt t route = [].
Proof.
  intros H. unfold childNamesAt. destruct route as [|x r]; simpl; rewrite H;
    reflexivity.
Qed.

Lemma existsb_name x names :
  existsb (String.eqb x) names = true <-> In x names.
Proof.
  rewrite existsb_exists. split.
  - intros [y [H E]]. apply String.eqb_eq in E. now subst.
  - intros H. exists x. split; [assumption | apply String.eqb_refl].
Qed.

(** One walk of the builder adds to the children of the node at [route]
    the segment that follows [route] in the walked path, at the end, and
    only if no child carries it yet. *)
Lemma insertParts_childNames historyPaths path parts :
  forall walked t route,
    childNamesAt (insertParts historyPaths path parts walked t) route
    = addIfNew (childNamesAt t route) (nextAfter route parts).
Proof.
  induction parts as [|x rest IH]; intros walked t route.
  - assert (N : nextAfter route [] = None) by (now destruct route).
    rewrite N. simpl. destruct (walked && historyPaths path); [|reflexivity].
    now apply childNamesAt_children.
  - simpl insertParts.
    destruct (findChild x (Children t)) as [[i c]|] eqn:F.
    + pose proof (findChild_Some _ _ _ _ F) as [Hn Hx].
      set (c1 := setIsDir (if historyPaths path || historyPaths (Path c)
                           then setIsHistory c true else c) true).
      assert (Hc1 : Children c1 = Children c)
        by (unfold c1; now destruct (historyPaths path || historyPaths (Path c))).
      assert (Nc1 : Name c1 = Name c)
        by (unfold c1; now destruct (historyPaths path || historyPaths (Path c))).
      set (c2 := insertParts historyPaths path rest true c1).
      assert (Nc2 : Name c2 = x)
        by (unfold c2; rewrite insertParts_Name; congruence).
      destruct route as [|y r].
      * unfold childNamesAt. simpl.
        rewrite (map_Name_replaceAt _ _ _ c2 Hn) by congruence.
        assert (E : existsb (String.eqb x) (map Name (Children t)) = true).
        { apply existsb_name. rewrite <- Hx. apply in_map.
          now apply nth_error_In in Hn. }
        now rewrite E.
      * simpl nextAfter. destruct (String.eqb x y) eqn:E.
        -- apply String.eqb_eq in E. subst y.
           unfold childNamesAt at 1 2. simpl follow.
           rewrite (findChild_replaceAt_same _ _ _ _ c2 F Nc2), F.
           fold (childNamesAt c2 r). fold (childNamesAt c r).
           unfold c2. rewrite IH. f_equal.
           now apply childNamesAt_children.
        -- apply String.eqb_neq in E. simpl addIfNew.
           unfold childNamesAt. simpl follow.
           rewrite (findChild_replaceAt_other y _ _ _ c2 Hn); congruence.
    + set (c1 := setIsDir (mkNode x (Str.Join (Path t) x) []
                    match rest with [] => false | _ :: _ => true end
                    (historyPaths path || historyPaths (Str.Join (Path t) x))
                    0 0) true).
      set (c2 := insertParts historyPaths path rest true c1).
      assert (Nc2 : Name c2 = x) by (unfold c2; now rewrite insertParts_Name).
      destruct route as [|y r].
      * unfold childNamesAt. simpl. rewrite map_app. simpl. rewrite Nc2.
        assert (E : existsb (String.eqb x) (map Name (Children t)) = false).
        { destruct (existsb (String.eqb x) (map Name (Children t))) eqn:E;
            [|reflexivity].
          apply existsb_name in E. now apply findChild_None in F. }
        now rewrite E.
      * simpl nextAfter. destruct (String.eqb x y) eqn:E.
        -- apply String.eqb_eq in E. subst y.
           unfold childNamesAt at 1 2. simpl follow.
           rewrite (findChild_app_new _ _ c2 F Nc2), F.
           fold (childNamesAt c2 r). unfold c2. rewrite IH.
           now rewrite childNamesAt_leaf.
        -- apply String.eqb_neq in E. simpl addIfNew.
           unfold childNamesAt. simpl follow.
           rewrite (findChild_app_other y _ c2); congruence.
Qed.

Lemma buildTree_childNames_from historyPaths route paths :
  forall t names,
    childNamesAt t route = names ->
    childNamesAt (fold_left (insertPath historyPaths) paths t) route
    = fold_left (fun names p => addIfNew names (nextAfter route (Str.Split p)))
                paths names.
Proof.
  induction paths as [|p r IH]; intros t names H; simpl; [assumption|].
  apply IH. unfold insertPath. rewrite insertParts_childNames. now rewrite H.
Qed.

Lemma buildTree_childNames paths historyPaths route :
  childNamesAt (buildTree paths historyPaths) route
  = firstOccurrences route paths.
Proof.
  apply buildTree_childNames_from. now apply childNamesAt_leaf.
Qed.

(* ===================================================================== *)
(** ** Facts about the layout pass                                        *)
(* ===================================================================== *)

Lemma layoutAssign_eq sel expanded q depth st node :
  layoutAssign sel expanded q depth st node =
  let '(cs, st') :=
    layoutChildren sel expanded (visibleChildren sel expanded q node) q depth
      0 (Children node) (afterOwnRow sel q depth st node) in
  (mkNode (Name node) (Path node) cs (IsDir node) (IsHistory node) depth
          (yCounters st depth), st').
Proof.
  destruct node as [nm pth cs dir hist x y].
  unfold layoutAssign; fold layoutAssign. unfold afterOwnRow.
  cbn [Name Path Children IsDir IsHistory].
  match goal with
  | |- context [?f 0%nat cs ?s] => set (F := f)
  end.
  assert (E : forall l i s0,
             F i l s0
             = layoutChildren sel expanded
                 (visibleChildren sel expanded q
                    (mkNode nm pth cs dir hist x y)) q depth i l s0).
  { induction l as [|c r IH]; intros i s0; [reflexivity|].
    change (F i (c :: r) s0)
      with (let '(c', st1) :=
              if existsb (pos_eqb (i :: q))
                   (visibleChildren sel expanded q
                      (mkNode nm pth cs dir hist x y))
              then layoutAssign sel expanded (i :: q) (depth + 1)%Z s0 c
              else (c, s0) in
            let '(r', st2) := F (S i) r st1 in
            (c' :: r', st2)).
    cbn [layoutChildren].
    destruct (if existsb (pos_eqb (i :: q))
                   (visibleChildren sel expanded q
                      (mkNode nm pth cs dir hist x y))
              then layoutAssign sel expanded (i :: q) (depth + 1)%Z s0 c
              else (c, s0)) as [c' st1].
    now rewrite IH. }
  rewrite E. reflexivity.
Qed.

Lemma layoutChildren_cons sel expanded vis q depth i c r st :
  layoutChildren sel expanded vis q depth i (c :: r) st =
  let cs1 :=
    if existsb (pos_eqb (i :: q)) vis
    then layoutAssign sel expanded (i :: q) (depth + 1)%Z st c
    else (c, st) in
  let rs := layoutChildren sel expanded vis q depth (S i) r (snd cs1) in
  (fst cs1 :: fst rs, snd rs).
Proof.
  cbn [layoutChildren].
  destruct (if existsb (pos_eqb (i :: q)) vis
            then layoutAssign sel expanded (i :: q) (depth + 1)%Z st c
            else (c, st)) as [c' st1].
  simpl.
  now destruct (layoutChildren sel expanded vis q depth (S i) r st1).
Qed.

Lemma layoutAssign_fst sel expanded q depth st node :
  fst (layoutAssign sel expanded q depth st node) =
  mkNode (Name node) (Path node)
    (fst (layoutChildren sel expanded (visibleChildren sel expanded q node)
            q depth 0 (Children node) (afterOwnRow sel q depth st node)))
    (IsDir node) (IsHistory node) depth (yCounters st depth).
Proof.
  rewrite layoutAssign_eq.
  now destruct (layoutChildren sel expanded (visibleChildren sel expanded q node)
                  q depth 0 (Children node) (afterOwnRow sel q depth st node)).
Qed.

Lemma layoutAssign_snd sel expanded q depth st node :
  snd (layoutAssign sel expanded q depth st node) =
  snd (layoutChildren sel expanded (visibleChildren sel expanded q node)
         q depth 0 (Children node) (afterOwnRow sel q depth st node)).
Proof.
  rewrite layoutAssign_eq.
  now destruct (layoutChildren sel expanded (visibleChildren sel expanded q node)
                  q depth 0 (Children node) (afterOwnRow sel q depth st node)).
Qed.

Section LayoutFacts.
Variable sel : option pos.
Variable expanded : ExpandedMap.

(** The layout of a subtree at depth [d] leaves the row counters of the
    columns to the left as they are. *)
Lemma layoutAssign_counters_left node :
  forall q d st d', (d' < d)%Z ->
    yCounters (snd (layoutAssign sel expanded q d st node)) d'
    = yCounters st d'.
Proof.
  induction node as [node IH] using Node_ind'.
  intros q d st d' Hd. rewrite layoutAssign_snd.
  assert (C : forall vis i s0,
             yCounters (snd (layoutChildren sel expanded vis q d i
                               (Children node) s0)) d'
             = yCounters s0 d').
  { induction IH as [|c r Hc Hr IHr]; intros vis i s0; [reflexivity|].
    rewrite layoutChildren_cons. cbn [snd]. rewrite IHr.
    destruct (existsb (pos_eqb (i :: q)) vis); [|reflexivity].
    apply Hc. lia. }
  rewrite C. unfold afterOwnRow, upd. simpl.
  destruct (d' =? d)%Z eqn:E; [apply Z.eqb_eq in E; lia | reflexivity].
Qed.

Lemma layoutChildren_counters_left vis q d cs :
  forall i st d', (d' <= d)%Z ->
    yCounters (snd (layoutChildren sel expanded vis q d i cs st)) d'
    = yCounters st d'.
Proof.
  induction cs as [|c r IH]; intros i st d' Hd; [reflexivity|].
  rewrite layoutChildren_cons. cbn [snd]. rewrite IH by assumption.
  destruct (existsb (pos_eqb (i :: q)) vis); [|reflexivity].
  apply layoutAssign_counters_left. lia.
Qed.

(** A laid-out node takes the next row of its column. *)
Lemma layoutAssign_row node q d st :
  Y (fst (layoutAssign sel expanded q d st node)) = yCounters st d
  /\ X (fst (layoutAssign sel expanded q d st node)) = d
  /\ yCounters (snd (layoutAssign sel expanded q d st node)) d
     = (yCounters st d + 1)%Z.
Proof.
  rewrite layoutAssign_fst, layoutAssign_snd. simpl.
  repeat split.
  rewrite layoutChildren_counters_left by lia.
  unfold afterOwnRow, upd. simpl. now rewrite Z.eqb_refl.
Qed.

Lemma rowsFrom_cons base k :
  rowsFrom base (S k) = base :: rowsFrom (base + 1) k.
Proof.
  unfold rowsFrom. simpl. f_equal; [lia|].
  rewrite <- seq_shift, map_map. apply map_ext. intros j. lia.
Qed.

(** The visible children of a node take consecutive rows of the next
    column, in the order of the child list. *)
Lemma layoutChildren_rows vis q d cs :
  forall i st,
    let res := layoutChildren sel expanded vis q d i cs st in
    let shown := keepVisible vis q i (fst res) in
    map Y shown = rowsFrom (yCounters st (d + 1)) (List.length shown)
    /\ yCounters (snd res) (d + 1)
       = (yCounters st (d + 1) + Z.of_nat (List.length shown))%Z
    /\ map Name (fst res) = map Name cs
    /\ List.length shown = List.length (keepVisible vis q i cs).
Proof.
  induction cs as [|c r IH]; intros i st.
  - simpl. repeat split. lia.
  - cbv zeta. rewrite layoutChildren_cons. cbn [fst snd keepVisible].
    destruct (existsb (pos_eqb (i :: q)) vis) eqn:E.
    + destruct (layoutAssign_row c (i :: q) (d + 1) st) as (Hy & _ & Hc).
      specialize (IH (S i) (snd (layoutAssign sel expanded (i :: q) (d + 1) st c))).
      cbv zeta in IH. destruct IH as (I1 & I2 & I3 & I4).
      cbn [map List.length]. rewrite rowsFrom_cons, Hy, I1, I2, I3, I4, Hc.
      rewrite layoutAssign_fst. cbn [Name].
      repeat split; try reflexivity. lia.
    + specialize (IH (S i) st). cbv zeta in IH.
      destruct IH as (I1 & I2 & I3 & I4). cbn [snd fst map].
      rewrite I3. repeat split; assumption.
Qed.
End LayoutFacts.

Lemma insertParts_IsDir historyPaths path parts t :
  IsDir (insertParts historyPaths path parts false t) = IsDir t.
Proof.
  destruct parts as [|x rest]; simpl; [reflexivity|].
  now destruct (findChild x (Children t)) as [[i c]|].
Qed.

Lemma buildTree_root paths historyPaths :
  Name (buildTree paths historyPaths) = "ROOT"
  /\ IsDir (buildTree paths historyPaths) = true
  /\ Path (buildTree paths historyPaths) = ".".
Proof.
  unfold buildTree.
  assert (G : forall t, Name t = "ROOT" /\ IsDir t = true /\ Path t = "." ->
              Name (fold_left (insertPath historyPaths) paths t) = "ROOT"
              /\ IsDir (fold_left (insertPath historyPaths) paths t) = true
              /\ Path (fold_left (insertPath historyPaths) paths t) = ".").
  { induction paths as [|p r IH]; intros t H; simpl; [assumption|].
    apply IH. unfold insertPath.
    now rewrite insertParts_Name, insertParts_IsDir, insertParts_Path. }
  apply G. repeat split.
Qed.

Lemma compressTree_root_children t :
  Name t = "ROOT" -> IsDir t = true ->
  Children (compressTree t) = map compressTree (Children t).
Proof.
  intros Hn Hd. rewrite compressTree_eq. rewrite Hd. simpl negb. simpl orb.
  destruct (List.length (Children t) =? 0)%nat eqn:E.
  - apply Nat.eqb_eq in E. destruct (Children t); [reflexivity | discriminate].
  - cbv zeta. apply String.eqb_eq in Hn. now rewrite Hn.
Qed.

(* ===================================================================== *)
(** ** Order preservation                                                 *)
(* ===================================================================== *)

(** * C6 *)
(** Claim C6. In the built tree the children of the node reached by any
    run of segments are the segments that follow that run in the input
    paths, each once, in the order of first occurrence; the compressor
    keeps the root's children in place, each compressed on its own; and
    the layout gives the root's visible children the rows 0, 1, 2, ... in
    the order of the child list, without changing that order, and the
    visible children of every node it lays out the next free rows of their
    column, in the order of the child list. *)
Theorem order_preserved (paths : list string) (historyPaths : HistorySet) :
  (forall route,
      childNamesAt (buildTree paths historyPaths) route
      = firstOccurrences route paths)
  /\ Children (compressTree (buildTree paths historyPaths))
     = map compressTree (Children (buildTree paths historyPaths))
  /\ (forall m : TreeModel,
        let expanded := getExpandedMap m in
        let laid := layoutRoot m expanded in
        let vis := getVisibleChildren m [] expanded in
        let shown := keepVisible vis [] 0 (Children (Root laid)) in
        map Y shown = rowsFrom 0 (List.length shown)
        /\ map Name (Children (Root laid)) = map Name (Children (Root m))
        /\ List.length shown
           = List.length (keepVisible vis [] 0 (Children (Root m))))
  /\ (forall sel expanded q d st n,
        let laid := fst (layoutAssign sel expanded q d st n) in
        let shown :=
          keepVisible (visibleChildren sel expanded q n) q 0 (Children laid) in
        map Y shown = rowsFrom (yCounters st (d + 1)) (List.length shown)
        /\ map Name (Children laid) = map Name (Children n)).
Proof.
  split; [intros route; apply buildTree_childNames|].
  split.
  { destruct (buildTree_root paths historyPaths) as (Hn & Hd & _).
    now apply compressTree_root_children. }
  split.
  2:{ intros sel expanded q d st n laid shown. subst shown laid.
      rewrite layoutAssign_fst. cbn [Children].
      pose proof (layoutChildren_rows sel expanded
                    (visibleChildren sel expanded q n) q d (Children n) 0
                    (afterOwnRow sel q d st n)) as H.
      cbv zeta in H. destruct H as (H1 & _ & H3 & _).
      split; [|assumption]. rewrite H1. f_equal.
      unfold afterOwnRow, upd. simpl.
      destruct (d + 1 =? d)%Z eqn:E; [apply Z.eqb_eq in E; lia | reflexivity]. }
  intros m expanded laid vis shown.
  subst shown vis laid. unfold layoutRoot, getVisibleChildren.
  change (nodeAt (Root m) []) with (Some (Root m)). cbv iota beta.
  rewrite (surjective_pairing
             (layoutAssign (SelectedNode m) expanded [] 0
                {| yCounters := fun _ => 0%Z; widths := fun _ => 0%Z |}
                (Root m))).
  cbn [Root]. rewrite layoutAssign_fst. cbn [Children].
  pose proof (layoutChildren_rows (SelectedNode m) expanded
                (visibleChildren (SelectedNode m) expanded [] (Root m))
                [] 0 (Children (Root m)) 0
                (afterOwnRow (SelectedNode m) [] 0
                   {| yCounters := fun _ => 0%Z; widths := fun _ => 0%Z |}
                   (Root m))) as H.
  cbv zeta in H. destruct H as (H1 & _ & H3 & H4).
  split; [|split; assumption].
  rewrite H1. reflexivity.
Qed.

(** On the repository's test input, with the selection moved up to the
    top level, the rows follow the input order, not the alphabet. *)
Example test_input_rows :
  let m := leaveDirectory (NewTreeModel testPaths 80 20 noHistory) in
  map (fun n => (Name n, Y n)) (Children (Root (layoutRoot m (getExpandedMap m))))
  = [("src", 0%Z); ("README.md", 1%Z); ("go.mod", 2%Z); ("go.sum", 3%Z)].
Proof. reflexivity. Qed.

(* ===================================================================== *)
(** ** The nodes of the input paths                                       *)
(* ===================================================================== *)

Lemma follow_insert_self historyPaths path parts :
  forall walked t,
    exists c, follow (insertParts historyPaths path parts walked t) parts
              = Some c.
Proof.
  induction parts as [|x rest IH]; intros walked t.
  - simpl. eauto.
  - simpl insertParts.
    destruct (findChild x (Children t)) as [[i c]|] eqn:F.
    + set (c2 := insertParts historyPaths path rest true _).
      assert (Nc2 : Name c2 = x).
      { unfold c2. rewrite insertParts_Name.
        apply findChild_Some in F as [_ F].
        now destruct (historyPaths path || historyPaths (Path c)). }
      simpl follow. rewrite (findChild_replaceAt_same _ _ _ _ c2 F Nc2).
      apply IH.
    + set (c2 := insertParts historyPaths path rest true _).
      assert (Nc2 : Name c2 = x) by (unfold c2; now rewrite insertParts_Name).
      simpl follow. rewrite (findChild_app_new _ _ c2 F Nc2).
      apply IH.
Qed.

Lemma follow_insert_keeps historyPaths path route :
  forall parts walked t c,
    follow t route = Some c ->
    exists c', follow (insertParts historyPaths path parts walked t) route
               = Some c'.
Proof.
  induction route as [|y r IH]; intros parts walked t c H.
  - simpl. eauto.
  - simpl in H.
    destruct (findChild y (Children t)) as [[j d]|] eqn:Fy; [|discriminate].
    destruct parts as [|x rest].
    + simpl. destruct (walked && historyPaths path); simpl; rewrite Fy; eauto.
    + simpl insertParts.
      destruct (findChild x (Children t)) as [[i e]|] eqn:F.
      * set (e1 := setIsDir (if historyPaths path || historyPaths (Path e)
                             then setIsHistory e true else e) true).
        set (e2 := insertParts historyPaths path rest true e1).
        assert (Ne2 : Name e2 = x).
        { unfold e2, e1. rewrite insertParts_Name.
          apply findChild_Some in F as [_ F].
          now destruct (historyPaths path || historyPaths (Path e)). }
        destruct (String.eqb x y) eqn:E.
        -- apply String.eqb_eq in E. subst y.
           rewrite F in Fy. inversion Fy; subst j d.
           simpl follow. rewrite (findChild_replaceAt_same _ _ _ _ e2 F Ne2).
           assert (K : exists c0, follow e1 r = Some c0).
           { destruct r as [|z r']; [simpl; eauto|].
             exists c. rewrite <- H. apply follow_children; [|discriminate].
             unfold e1.
             now destruct (historyPaths path || historyPaths (Path e)). }
           destruct K as [c0 K]. unfold e2. apply (IH rest true e1 c0 K).
        -- apply String.eqb_neq in E.
           pose proof (findChild_Some _ _ _ _ F) as [Hn Hx].
           simpl follow.
           rewrite (findChild_replaceAt_other y _ _ _ e2 Hn); try congruence.
           rewrite Fy. eauto.
      * set (e2 := insertParts historyPaths path rest true _).
        assert (Ne2 : Name e2 = x) by (unfold e2; now rewrite insertParts_Name).
        destruct (String.eqb x y) eqn:E.
        -- apply String.eqb_eq in E. subst y. congruence.
        -- apply String.eqb_neq in E. simpl follow.
           rewrite (findChild_app_other y _ e2) by congruence.
           rewrite Fy. eauto.
Qed.

Lemma follow_build historyPaths p paths :
  forall t, In p paths ->
    exists c, follow (fold_left (insertPath historyPaths) paths t)
                (Str.Split p) = Some c.
Proof.
  assert (K : forall ps t route c,
             follow t route = Some c ->
             exists c', follow (fold_left (insertPath historyPaths) ps t) route
                        = Some c').
  { induction ps as [|a r IH]; intros t route c H; simpl; [eauto|].
    destruct (follow_insert_keeps historyPaths a route (Str.Split a) false t c H)
      as [c' H'].
    now apply (IH _ _ c'). }
  induction paths as [|a r IH]; intros t Hin; [destruct Hin|].
  simpl. destruct Hin as [E|Hin].
  - subst a.
    destruct (follow_insert_self historyPaths p (Str.Split p) false t) as [c H].
    now apply (K r _ _ c).
  - now apply IH.
Qed.

Lemma firstOccurrences_none route paths :
  (forall p', In p' paths -> nextAfter route (Str.Split p') = None) ->
  firstOccurrences route paths = [].
Proof.
  unfold firstOccurrences. generalize (@nil string) as names.
  induction paths as [|a r IH]; intros names H; simpl; [reflexivity|].
  rewrite (H a (or_introl eq_refl)). simpl. apply IH.
  intros p' Hp. apply H. now right.
Qed.

Lemma PathsFrom_path {route n} : PathsFrom route n -> Path n = routePath route.
Proof. now destruct 1. Qed.

Lemma PathsFrom_children {route n} :
  PathsFrom route n ->
  Forall (fun c => PathsFrom (route ++ [Name c]) c) (Children n).
Proof. now destruct 1. Qed.

Lemma Forall_nth_error {A} (P : A -> Prop) l i x :
  Forall P l -> nth_error l i = Some x -> P x.
Proof.
  intros H E. apply nth_error_In in E. rewrite Forall_forall in H. auto.
Qed.

Lemma PathsFrom_insert historyPaths path parts :
  forall walked t route,
    Forall (fun s => plainSeg s = true) route ->
    Forall (fun s => plainSeg s = true) parts ->
    PathsFrom route t ->
    PathsFrom route (insertParts historyPaths path parts walked t).
Proof.
  induction parts as [|x rest IH]; intros walked t route Hr Hp Ht.
  - simpl. destruct (walked && historyPaths path); [|assumption].
    constructor; [apply (PathsFrom_path Ht) | apply (PathsFrom_children Ht)].
  - inversion Hp as [|? ? Hx Hrest]; subst.
    assert (Hrx : Forall (fun s => plainSeg s = true) (route ++ [x]))
      by (apply Forall_app; split; [assumption | now constructor]).
    simpl insertParts.
    destruct (findChild x (Children t)) as [[i c]|] eqn:F.
    + pose proof (findChild_Some _ _ _ _ F) as [Hn Hc].
      pose proof (Forall_nth_error _ _ _ _ (PathsFrom_children Ht) Hn) as Pc.
      simpl in Pc. rewrite Hc in Pc.
      set (c1 := setIsDir (if historyPaths path || historyPaths (Path c)
                           then setIsHistory c true else c) true).
      assert (P1 : PathsFrom (route ++ [x]) c1).
      { unfold c1. destruct (historyPaths path || historyPaths (Path c));
          constructor; simpl;
          (apply (PathsFrom_path Pc) || apply (PathsFrom_children Pc)). }
      constructor; [apply (PathsFrom_path Ht)|]. simpl.
      pose proof (PathsFrom_children Ht) as Hc0.
      clear - Hc0 Hn IH P1 Hrx Hrest Hc.
      revert i Hn. induction Hc0 as [|d r Hd Hr0 IHr]; intros [|i] Hn;
        simpl in *; try discriminate.
      * constructor; [|assumption]. rewrite insertParts_Name.
        inversion Hn; subst d. unfold c1.
        replace (Name (setIsDir _ true)) with (Name c)
          by (now destruct (historyPaths path || historyPaths (Path c))).
        rewrite Hc. now apply IH.
      * constructor; [assumption | now apply IHr].
    + constructor; [apply (PathsFrom_path Ht)|]. simpl.
      apply Forall_app. split; [apply (PathsFrom_children Ht)|].
      constructor; [|constructor]. rewrite insertParts_Name. simpl.
      apply IH; try assumption.
      constructor; simpl; [|constructor].
      rewrite (PathsFrom_path Ht). now apply Join_route.
Qed.

Lemma PathsFrom_follow r :
  forall t route c,
    PathsFrom route t -> follow t r = Some c -> PathsFrom (route ++ r) c.
Proof.
  induction r as [|y r IH]; intros t route c Ht H; simpl in H.
  - inversion H; subst. now rewrite app_nil_r.
  - destruct (findChild y (Children t)) as [[j d]|] eqn:F; [|discriminate].
    pose proof (findChild_Some _ _ _ _ F) as [Hn Hd].
    pose proof (Forall_nth_error _ _ _ _ (PathsFrom_children Ht) Hn) as Pd.
    simpl in Pd. rewrite Hd in Pd.
    replace (route ++ y :: r) with ((route ++ [y]) ++ r)
      by (now rewrite <- app_assoc).
    now apply (IH d).
Qed.

Lemma cleanRelative_segs p :
  cleanRelative p = true -> Forall (fun s => plainSeg s = true) (Str.Split p).
Proof.
  unfold cleanRelative. intros H. apply Forall_forall.
  now apply forallb_forall.
Qed.

Lemma PathsFrom_build paths historyPaths :
  Forall (fun p => cleanRelative p = true) paths ->
  PathsFrom [] (buildTree paths historyPaths).
Proof.
  unfold buildTree.
  assert (G : forall t, PathsFrom [] t ->
              Forall (fun p => cleanRelative p = true) paths ->
              PathsFrom [] (fold_left (insertPath historyPaths) paths t)).
  { induction paths as [|p r IH]; intros t Ht Hp; simpl; [assumption|].
    inversion Hp; subst. apply IH; [|assumption].
    apply PathsFrom_insert; [constructor | now apply cleanRelative_segs | assumption]. }
  intros H. apply G; [|assumption].
  constructor; [reflexivity | constructor].
Qed.

Lemma follow_leaf_in r :
  forall t c, follow t r = Some c -> Children c = [] ->
              In (Path c) (leafPaths t).
Proof.
  induction r as [|y r IH]; intros t c H Hc; simpl in H.
  - inversion H; subst. rewrite leafPaths_unfold, Hc. now left.
  - destruct (findChild y (Children t)) as [[j d]|] eqn:F; [|discriminate].
    pose proof (findChild_Some _ _ _ _ F) as [Hn _].
    rewrite leafPaths_unfold.
    destruct (Children t) as [|e es] eqn:E; [destruct j; discriminate|].
    apply in_flat_map. exists d. split; [now apply nth_error_In in Hn|].
    now apply (IH d).
Qed.

Lemma leaf_hasPath p : forall t, In p (leafPaths t) -> hasPath p t.
Proof.
  induction t as [t IH] using Node_ind'. intros H.
  rewrite leafPaths_unfold in H.
  destruct (Children t) as [|e es] eqn:E.
  - destruct H as [H|[]]. exists [], t. now split.
  - apply in_flat_map in H as [d [Hd Hp]].
    rewrite Forall_forall in IH. destruct (IH d Hd Hp) as (r & n & Hr & Hn).
    apply In_nth_error in Hd as [i Hi].
    exists (i :: r), n. simpl. rewrite E, Hi. now split.
Qed.

(** The node of an input path that no other input path extends is a leaf
    of the built tree and carries the path itself. *)
Lemma buildTree_leaf paths historyPaths p :
  Forall (fun x => cleanRelative x = true) paths ->
  In p paths ->
  (forall p', In p' paths ->
              nextAfter (Str.Split p) (Str.Split p') = None) ->
  In p (leafPaths (buildTree paths historyPaths)).
Proof.
  intros Hc Hin Hnext.
  destruct (follow_build historyPaths p paths rootNode Hin) as [c Hf].
  fold (buildTree paths historyPaths) in Hf.
  pose proof (buildTree_childNames paths historyPaths (Str.Split p)) as Hn.
  rewrite firstOccurrences_none in Hn by assumption.
  unfold childNamesAt in Hn. rewrite Hf in Hn.
  assert (Hl : Children c = []) by (now destruct (Children c)).
  pose proof (PathsFrom_follow _ _ _ _ (PathsFrom_build paths historyPaths Hc) Hf) as Pc.
  simpl in Pc. apply PathsFrom_path in Pc.
  assert (E : Path c = p).
  { rewrite Pc. unfold routePath.
    destruct (Str.Split p) eqn:S; [now apply Split_nonempty in S|].
    rewrite <- S. apply JoinSep_Split. }
  rewrite <- E. now apply (follow_leaf_in (Str.Split p)).
Qed.

(* ===================================================================== *)
(** ** [findNode] finds every path of the tree                            *)
(* ===================================================================== *)

Lemma sumSizes_app a b : sumSizes (a ++ b) = (sumSizes a + sumSizes b)%nat.
Proof. induction a as [|c r IH]; simpl; [reflexivity | rewrite IH; lia]. Qed.

Lemma sumSizes_rev a : sumSizes (rev a) = sumSizes a.
Proof.
  induction a as [|c r IH]; simpl; [reflexivity|].
  rewrite sumSizes_app, IH. simpl. lia.
Qed.

Lemma combine_ptrs (q : pos) (cs : list Node) :
  forall k p c,
    In (p, c) (combine (map (fun i => i :: q) (seq k (List.length cs))) cs)
    <-> exists i, p = (k + i)%nat :: q /\ nth_error cs i = Some c.
Proof.
  induction cs as [|d r IH]; intros k p c; simpl.
  - split; [tauto | intros [[|i] [_ H]]; discriminate].
  - rewrite IH. split.
    + intros [H|[i [Hp Hi]]].
      * inversion H; subst. exists 0%nat. split; [f_equal; lia | reflexivity].
      * exists (S i). split; [rewrite Hp; f_equal; lia | assumption].
    + intros [[|i] [Hp Hi]].
      * left. simpl in Hi. inversion Hi; subst. f_equal. f_equal. lia.
      * right. exists i. split; [rewrite Hp; f_equal; lia | assumption].
Qed.

Lemma childEntries_spec q n p c :
  In (p, c) (childEntries q n)
  <-> exists i, p = i :: q /\ nth_error (Children n) i = Some c.
Proof. unfold childEntries, childPtrs. now rewrite combine_ptrs. Qed.

Lemma childEntries_nodes q n : map snd (childEntries q n) = Children n.
Proof.
  unfold childEntries, childPtrs. generalize 0%nat.
  induction (Children n) as [|d r IH]; intros k; simpl; [reflexivity|].
  now rewrite IH.
Qed.

Lemma descend_app r1 : forall r2 t,
  descend t (r1 ++ r2)
  = match descend t r1 with Some u => descend u r2 | None => None end.
Proof.
  induction r1 as [|a r1 IH]; intros r2 t; simpl; [reflexivity|].
  destruct (nth_error (Children t) a); [apply IH | reflexivity].
Qed.

Lemma nodeAt_child root q n i c :
  nodeAt root q = Some n -> nth_error (Children n) i = Some c ->
  nodeAt root (i :: q) = Some c.
Proof.
  unfold nodeAt. intros Hq Hi. simpl. rewrite descend_app, Hq. simpl.
  now rewrite Hi.
Qed.

Section FindNode.
Variable root : Node.
Variable targetPath : string.

Lemma findLoop_complete fuel :
  forall stack,
    (sumSizes (map snd stack) <= fuel)%nat ->
    Forall (validEntry root) stack ->
    Exists (fun e => hasPath targetPath (snd e)) stack ->
    exists q n, findLoop fuel targetPath stack = Some q
                /\ nodeAt root q = Some n /\ Path n = targetPath.
Proof.
  induction fuel as [|f IH]; intros stack Hs Hv He.
  - destruct stack as [|[q n] rest]; [inversion He|].
    simpl in Hs. rewrite size_unfold in Hs. lia.
  - destruct stack as [|[q n] rest]; [inversion He|].
    simpl findLoop. inversion Hv as [|? ? Hq Hrest]; subst.
    unfold validEntry in Hq. simpl in Hq.
    destruct (String.eqb (Path n) targetPath) eqn:E.
    + apply String.eqb_eq in E. exists q, n. now repeat split.
    + apply String.eqb_neq in E. apply IH.
      * rewrite map_app, map_rev, childEntries_nodes, sumSizes_app, sumSizes_rev.
        simpl in Hs. rewrite size_unfold in Hs. lia.
      * apply Forall_app. split; [|assumption].
        apply Forall_forall. intros [p c] Hin. apply in_rev in Hin.
        apply childEntries_spec in Hin as (i & Hp & Hi). subst p.
        unfold validEntry. simpl. now apply (nodeAt_child _ _ n).
      * apply Exists_app. inversion He as [? ? Hh|? ? Hh]; subst.
        -- left. simpl in Hh. destruct Hh as (r & n' & Hr & Hn).
           destruct r as [|i r]; [simpl in Hr; inversion Hr; congruence|].
           simpl in Hr.
           destruct (nth_error (Children n) i) as [c|] eqn:Hi; [|discriminate].
           apply Exists_exists. exists (i :: q, c). split.
           ++ apply -> in_rev. apply childEntries_spec. now exists i.
           ++ simpl. now exists r, n'.
        -- now right.
Qed.

Lemma findNode_complete :
  hasPath targetPath root ->
  exists q n, findNode root targetPath = Some q
              /\ nodeAt root q = Some n /\ Path n = targetPath.
Proof.
  intros H. unfold findNode.
  destruct (String.eqb (Path root) targetPath) eqn:E.
  - apply String.eqb_eq in E. exists [], root. now repeat split.
  - apply findLoop_complete.
    + simpl. lia.
    + constructor; [reflexivity | constructor].
    + now constructor.
Qed.
End FindNode.

(* ===================================================================== *)
(** ** The default selection and the rebuild                              *)
(* ===================================================================== *)

Lemma findNode_unextended_path
      (paths : list string) (historyPaths : HistorySet) (p : string) :
  Forall (fun x => cleanRelative x = true) paths ->
  In p paths ->
  (forall p', In p' paths ->
              nextAfter (Str.Split p) (Str.Split p') = None) ->
  exists q n,
    findNode (compressTree (buildTree paths historyPaths)) p = Some q
    /\ nodeAt (compressTree (buildTree paths historyPaths)) q = Some n
    /\ Path n = p.
Proof.
  intros Hc Hin Hn.
  apply findNode_complete. apply leaf_hasPath.
  rewrite compressTree_leafPaths. now apply buildTree_leaf.
Qed.

(** * C10 *)
(** Claim C10, as the code has it. For a list of clean relative paths
    (every segment non-empty and neither [.] nor [..]), an input path that
    no input path extends by further segments is the path of a node of the
    built and compressed tree, and [findNode] returns such a node. When
    the first path is a directory of a later one, as in [prefixPaths], its
    node is absorbed by the merge, the lookup fails and the selection
    falls back to the root's first child. *)
Theorem lookup_finds_unextended_path
        (paths : list string) (historyPaths : HistorySet) (p : string) :
  Forall (fun x => cleanRelative x = true) paths ->
  In p paths ->
  (forall p', In p' paths ->
              nextAfter (Str.Split p) (Str.Split p') = None) ->
  let root := compressTree (buildTree paths historyPaths) in
  (exists q n, findNode root p = Some q
               /\ nodeAt root q = Some n /\ Path n = p)
  /\ findNode (compressTree (buildTree prefixPaths noHistory)) "a" = None
  /\ SelectedNode (NewTreeModel prefixPaths 80 20 noHistory) = Some [0%nat].
Proof.
  intros Hc Hin Hn root. split; [|split; reflexivity].
  now apply findNode_unextended_path.
Qed.

Lemma lookup_finds_unextended_path_witness :
  Forall (fun x => cleanRelative x = true) deepPaths
  /\ In "a/x/y.go" deepPaths
  /\ exists q n,
       findNode (compressTree (buildTree deepPaths noHistory)) "a/x/y.go"
       = Some q
       /\ nodeAt (compressTree (buildTree deepPaths noHistory)) q = Some n
       /\ Path n = "a/x/y.go".
Proof.
  assert (Hc : Forall (fun x => cleanRelative x = true) deepPaths)
    by (repeat constructor).
  assert (Hin : In "a/x/y.go" deepPaths) by (simpl; tauto).
  split; [exact Hc|]. split; [exact Hin|].
  refine (proj1 (@lookup_finds_unextended_path deepPaths noHistory "a/x/y.go"
                   Hc Hin _)).
  intros p' [H|[H|[H|[]]]]; subst p'; reflexivity.
Defined.

(** The claim for every path list: the only path ["/a"] is no prefix of
    another input path, the tree holds the paths ["."] and ["a"] only, and
    the lookup fails. *)
Lemma absolute_path_not_found :
  ~ (forall paths historyPaths p,
       In p paths ->
       (forall p', In p' paths -> p' <> p -> String.prefix p p' = false) ->
       exists q n,
         findNode (compressTree (buildTree paths historyPaths)) p = Some q
         /\ nodeAt (compressTree (buildTree paths historyPaths)) q = Some n
         /\ Path n = p).
Proof.
  intros H.
  destruct (H oneAbsolute noHistory "/a") as (q & n & Hf & _).
  - simpl; tauto.
  - intros p' [E|[]] Hne. congruence.
  - vm_compute in Hf. discriminate Hf.
Qed.

(** * C3 *)
(** Claim C3, as the code has it. The rebuild hands nothing of the old
    model to [NewTreeModel]: for a list of clean relative paths whose
    first path no path of the list extends, the selection after the
    rebuild is the node of that first path, and [SelectedPath] returns the
    first path (less a leading ["ROOT/"]), whatever was selected before. *)
Theorem rebuild_selects_first_path
        (old : TreeModel) (p0 : string) (rest : list string)
        (width height : Z) (historyPaths : HistorySet) :
  Forall (fun x => cleanRelative x = true) (p0 :: rest) ->
  (forall p', In p' (p0 :: rest) ->
              nextAfter (Str.Split p0) (Str.Split p') = None) ->
  let m := rebuild old (p0 :: rest) width height historyPaths in
  (exists q n, SelectedNode m = Some q
               /\ nodeAt (Root m) q = Some n /\ Path n = p0)
  /\ SelectedPath m = Str.TrimPrefix p0 "ROOT/".
Proof.
  intros Hc Hn m.
  destruct (@findNode_unextended_path (p0 :: rest) historyPaths p0 Hc
              (or_introl eq_refl) Hn) as (q & n & Hf & Hq & Hp).
  assert (Hs : SelectedNode m = Some q).
  { unfold m, rebuild, NewTreeModel. cbn [SelectedNode]. now rewrite Hf. }
  assert (Hr : Root m = compressTree (buildTree (p0 :: rest) historyPaths))
    by reflexivity.
  split.
  - exists q, n. rewrite Hr. now repeat split.
  - unfold SelectedPath. rewrite Hs, Hr, Hq. now rewrite Hp.
Qed.

Lemma rebuild_selects_first_path_witness :
  SelectedPath (rebuild (moveSelection deepModel 1) deepPaths 80 20 noHistory)
  = "a/b/c/d/e/f.go"
  /\ SelectedPath (moveSelection deepModel 1) = "a/b/c/g/h.go".
Proof.
  split; [|reflexivity].
  refine (proj2 (@rebuild_selects_first_path (moveSelection deepModel 1)
                   "a/b/c/d/e/f.go" ["a/b/c/g/h.go"; "a/x/y.go"] 80 20
                   noHistory _ _)).
  - repeat constructor.
  - intros p' [H|[H|[H|[]]]]; subst p'; reflexivity.
Defined.

(** The claim as the specification states it: with the paths [a], [b]
    and the selection moved to [b], the rebuild from the same list selects
    [a] again. *)
Lemma rebuild_resets_selection :
  ~ (forall paths historyPaths width height p m,
       paths <> [] -> In p paths ->
       Root m = Root (NewTreeModel paths width height historyPaths) ->
       SelectedPath m = p ->
       SelectedPath (rebuild m paths width height historyPaths) = p).
Proof.
  intros H.
  specialize (H twoTop noHistory 80%Z 20%Z "b"
                (moveSelection (NewTreeModel twoTop 80 20 noHistory) 1)).
  assert (N : twoTop <> []) by discriminate.
  assert (I : In "b" twoTop) by (simpl; tauto).
  specialize (H N I eq_refl eq_refl).
  vm_compute in H. discriminate H.
Qed.

(* ===================================================================== *)
(** ** Drawing on the canvas never fails                                  *)
(* ===================================================================== *)

Lemma setNth_ok {A} (x : A) l : forall i,
  (i < List.length l)%nat ->
  exists l', setNth i x l = Some l' /\ List.length l' = List.length l
             /\ (forall P : A -> Prop, Forall P l -> P x -> Forall P l').
Proof.
  induction l as [|a r IH]; intros i H; simpl in H; [lia|].
  destruct i as [|i]; simpl.
  - exists (x :: r). repeat split. intros P Hl Hx. inversion Hl; subst.
    now constructor.
  - destruct (IH i) as (r' & E & L & F); [lia|]. rewrite E.
    exists (a :: r'). repeat split; [simpl; now rewrite L|].
    intros P Hl Hx. inversion Hl; subst. constructor; auto.
Qed.

Lemma setCell_ok w h cv row col v :
  wellShaped w h cv ->
  (0 <= row < h)%Z -> (0 <= col < w)%Z ->
  exists cv', setCell cv row col v = Done cv' /\ wellShaped w h cv'.
Proof.
  intros [Hl Hf] Hr Hc. unfold setCell.
  replace ((row <? 0)%Z || (col <? 0)%Z) with false
    by (symmetry; apply orb_false_iff; split; apply Z.ltb_ge; lia).
  assert (Hrow : (Z.to_nat row < List.length cv)%nat) by lia.
  destruct (nth_error cv (Z.to_nat row)) as [line|] eqn:E;
    [|apply nth_error_None in E; lia].
  assert (Hline : List.length line = Z.to_nat w).
  { rewrite Forall_forall in Hf. apply Hf. now apply nth_error_In in E. }
  destruct (setNth_ok v line (Z.to_nat col)) as (line' & E1 & L1 & _); [lia|].
  rewrite E1.
  destruct (setNth_ok line' cv (Z.to_nat row) Hrow) as (cv' & E2 & L2 & F2).
  rewrite E2. exists cv'. split; [reflexivity|].
  split; [congruence|]. apply F2; [assumption | congruence].
Qed.

Section DrawFacts.
Variable renderStyle : Style -> string -> string.
Variable runes : string -> list string.
Variable glyph : Glyph -> string.
Variable m : TreeModel.

Lemma drawRunes_ok rs : forall cv screenY x style,
  wellShaped (Width m) (Height m) cv -> (0 <= screenY < Height m)%Z ->
  exists cv', drawRunes renderStyle m cv screenY x rs style = Done cv'
              /\ wellShaped (Width m) (Height m) cv'.
Proof.
  induction rs as [|r rest IH]; intros cv screenY x style Hs Hy; simpl.
  - now exists cv.
  - destruct ((0 <=? x)%Z && (x <? Width m)%Z) eqn:E.
    + apply andb_true_iff in E as [E1 E2].
      apply Z.leb_le in E1. apply Z.ltb_lt in E2.
      destruct (setCell_ok (Width m) (Height m) cv screenY x
                  (renderStyle style r) Hs Hy (conj E1 E2)) as (cv' & Ec & Hs').
      rewrite Ec. simpl. now apply IH.
    + simpl. now apply IH.
Qed.

Lemma drawString_ok cv x y s style :
  wellShaped (Width m) (Height m) cv ->
  exists cv', drawString renderStyle runes m cv x y s style = Done cv'
              /\ wellShaped (Width m) (Height m) cv'.
Proof.
  intros Hs. unfold drawString.
  destruct ((y <? ScrollOffset m)%Z || (ScrollOffset m + Height m <=? y)%Z) eqn:E;
    [now exists cv|].
  apply orb_false_iff in E as [E1 E2].
  apply Z.ltb_ge in E1. apply Z.leb_gt in E2.
  destruct (Width m <=? x)%Z; [now exists cv|].
  apply drawRunes_ok; [assumption | lia].
Qed.

Lemma drawConnectors_ok count : forall cv vx childYs minY maxY y,
  wellShaped (Width m) (Height m) cv ->
  exists cv', drawConnectors renderStyle runes glyph m cv vx childYs minY maxY
                count y = Done cv'
              /\ wellShaped (Width m) (Height m) cv'.
Proof.
  induction count as [|k IH]; intros cv vx childYs minY maxY y Hs; simpl.
  - now exists cv.
  - match goal with
    | |- context [drawString ?a ?b ?c ?d ?e ?f ?g ?h] =>
        destruct (drawString_ok d e f g h Hs) as (cv1 & E1 & Hs1)
    end.
    rewrite E1. simpl.
    destruct (existsb (Z.eqb y) childYs).
    + destruct (drawString_ok cv1 (vx + 1) y (glyph GDash) StyleFaint Hs1)
        as (cv2 & E2 & Hs2).
      rewrite E2. simpl. now apply IH.
    + simpl. now apply IH.
Qed.

Lemma truncateName_ok name colWidth :
  (2 <= colWidth)%Z -> exists s, truncateName name colWidth = Done s.
Proof.
  intros H. unfold truncateName.
  destruct (colWidth - 2 <? Str.len name)%Z; [|eauto].
  replace (colWidth - 2 <? 0)%Z with false by (symmetry; apply Z.ltb_ge; lia).
  eauto.
Qed.
End DrawFacts.

Section RenderFacts.
Variable renderStyle : Style -> string -> string.
Variable runes : string -> list string.
Variable glyph : Glyph -> string.
Variable m : TreeModel.
Variable expanded : ExpandedMap.
Variable scrollX : Z.
Variable shift : Z.
Hypothesis shift_le : (shift <= 0)%Z.
Hypothesis scroll_ge : (0 <= scrollX)%Z.

Lemma renderNode_eq q n cv :
  renderNode renderStyle runes glyph m expanded scrollX q n cv =
  let effX := (X n - scrollX)%Z in
  let screenX :=
    if (0 <=? effX)%Z then sumRange (ColWidths m) scrollX (X n)
    else (-100)%Z in
  let colWidth := ColWidths m (X n) in
  cv <- (if (0 <=? effX)%Z && (screenX <? Width m)%Z then
           let cursor :=
             if isSelectedPos (SelectedNode m) q then "> " else "" in
           name <- truncateName (shownName m q n) colWidth ;;
           drawString renderStyle runes m cv screenX (Y n)
             (cursor ++ name)%string (styleOf m q n)
         else Done cv) ;;
  let children := visibleChildren (SelectedNode m) expanded q n in
  let shown := keepVisible children q 0 (Children n) in
  match shown with
  | [] => Done cv
  | first :: _ =>
      cv <- (if (scrollX <=? X n)%Z then
               let vx :=
                 (sumRange (ColWidths m) scrollX (X n) + colWidth - 2)%Z in
               if (vx <? Width m)%Z then
                 let minY := Y first in
                 let maxY := Y (last shown first) in
                 drawConnectors renderStyle runes glyph m cv vx (map Y shown)
                   minY maxY (Z.to_nat (maxY - minY + 1)) minY
               else Done cv
             else Done cv) ;;
      forEachChild
        (fun i c cv =>
           if existsb (pos_eqb (i :: q)) children
           then renderNode renderStyle runes glyph m expanded scrollX
                  (i :: q) c cv
           else Done cv) 0%nat (Children n) cv
  end.
Proof. destruct n; reflexivity. Qed.

(** Rendering a laid-out subtree on a canvas of the viewport's shape
    completes and keeps the shape. *)
Lemma renderNode_ok n :
  forall q d cv,
    Laid (SelectedNode m) expanded (ColWidths m) shift q d n ->
    wellShaped (Width m) (Height m) cv ->
    exists cv',
      renderNode renderStyle runes glyph m expanded scrollX q n cv = Done cv'
      /\ wellShaped (Width m) (Height m) cv'.
Proof.
  induction n as [n IH] using Node_ind'.
  intros q d cv HL Hs. inversion HL as [? ? ? HX Hw Hc]; subst.
  rewrite renderNode_eq. cbv zeta.
  (* the node itself *)
  assert (D : exists cv1,
             (if (0 <=? X n - scrollX)%Z
                 && ((if (0 <=? X n - scrollX)%Z
                      then sumRange (ColWidths m) scrollX (X n)
                      else (-100)%Z) <? Width m)%Z
              then
                name <- truncateName (shownName m q n) (ColWidths m (X n)) ;;
                drawString renderStyle runes m cv
                  (if (0 <=? X n - scrollX)%Z
                   then sumRange (ColWidths m) scrollX (X n)
                   else (-100)%Z) (Y n)
                  ((if isSelectedPos (SelectedNode m) q then "> " else "")
                   ++ name)%string (styleOf m q n)
              else Done cv) = Done cv1
             /\ wellShaped (Width m) (Height m) cv1).
  { destruct ((0 <=? X n - scrollX)%Z
              && ((if (0 <=? X n - scrollX)%Z
                   then sumRange (ColWidths m) scrollX (X n)
                   else (-100)%Z) <? Width m)%Z) eqn:E; [|now exists cv].
    apply andb_true_iff in E as [E _]. apply Z.leb_le in E.
    assert (W : (20 <= ColWidths m (X n))%Z) by (apply Hw; lia).
    destruct (truncateName_ok (shownName m q n) (ColWidths m (X n))) as [s Es];
      [lia|].
    rewrite Es. simpl. now apply drawString_ok. }
  destruct D as (cv1 & E1 & Hs1). rewrite E1. simpl bind.
  destruct (keepVisible (visibleChildren (SelectedNode m) expanded q n) q 0
              (Children n)) as [|first rest] eqn:K; [now exists cv1|].
  (* the connectors *)
  assert (C : exists cv2,
             (if (scrollX <=? X n)%Z then
                if (sumRange (ColWidths m) scrollX (X n)
                    + ColWidths m (X n) - 2 <? Width m)%Z
                then
                  drawConnectors renderStyle runes glyph m cv1
                    (sumRange (ColWidths m) scrollX (X n)
                     + ColWidths m (X n) - 2)
                    (map Y (first :: rest)) (Y first)
                    (Y (last (first :: rest) first))
                    (Z.to_nat (Y (last (first :: rest) first) - Y first + 1))
                    (Y first)
                else Done cv1
              else Done cv1) = Done cv2
             /\ wellShaped (Width m) (Height m) cv2).
  { destruct (scrollX <=? X n)%Z; [|now exists cv1].
    destruct (sumRange (ColWidths m) scrollX (X n)
              + ColWidths m (X n) - 2 <? Width m)%Z; [|now exists cv1].
    now apply drawConnectors_ok. }
  destruct C as (cv2 & E2 & Hs2). rewrite E2. simpl bind.
  (* the children *)
  clear K E1 E2 Hs Hs1 cv cv1 first rest HL.
  assert (G : forall cs i cv,
             Forall (fun c =>
                       forall q d cv,
                         Laid (SelectedNode m) expanded (ColWidths m) shift q d c ->
                         wellShaped (Width m) (Height m) cv ->
                         exists cv',
                           renderNode renderStyle runes glyph m expanded
                             scrollX q c cv = Done cv'
                           /\ wellShaped (Width m) (Height m) cv') cs ->
             (forall j c, nth_error cs j = Some c ->
                          existsb (pos_eqb ((i + j)%nat :: q))
                            (visibleChildren (SelectedNode m) expanded q n) = true ->
                          Laid (SelectedNode m) expanded (ColWidths m) shift
                            ((i + j)%nat :: q) (d + 1) c) ->
             wellShaped (Width m) (Height m) cv ->
             exists cv',
               forEachChild
                 (fun i c cv =>
                    if existsb (pos_eqb (i :: q))
                         (visibleChildren (SelectedNode m) expanded q n)
                    then renderNode renderStyle runes glyph m expanded scrollX
                           (i :: q) c cv
                    else Done cv) i cs cv = Done cv'
               /\ wellShaped (Width m) (Height m) cv').
  { induction cs as [|c r IHr]; intros i cv HF HLc Hs; simpl; [now exists cv|].
    inversion HF as [|? ? Hc0 Hr0]; subst.
    assert (S1 : exists cv1,
               (if existsb (pos_eqb (i :: q))
                     (visibleChildren (SelectedNode m) expanded q n)
                then renderNode renderStyle runes glyph m expanded scrollX
                       (i :: q) c cv
                else Done cv) = Done cv1
               /\ wellShaped (Width m) (Height m) cv1).
    { destruct (existsb (pos_eqb (i :: q))
                  (visibleChildren (SelectedNode m) expanded q n)) eqn:V;
        [|now exists cv].
      apply (Hc0 (i :: q) (d + 1)%Z cv); [|assumption].
      specialize (HLc 0%nat c eq_refl). rewrite Nat.add_0_r in HLc. auto. }
    destruct S1 as (cv1 & E1 & Hs1). rewrite E1. simpl bind.
    apply IHr; try assumption.
    intros j c' Hj Hv. specialize (HLc (S j) c' Hj).
    rewrite Nat.add_succ_r in HLc. now apply HLc. }
  apply G; try assumption.
Qed.
End RenderFacts.

(* ===================================================================== *)
(** ** The layout pass establishes [Laid]                                 *)
(* ===================================================================== *)

Lemma displayWidth_ge b name : (20 <= displayWidth b name)%Z.
Proof.
  unfold displayWidth.
  match goal with |- context [if (?w <? 20)%Z then _ else _] =>
    destruct (w <? 20)%Z eqn:E; [lia | apply Z.ltb_ge in E; exact E] end.
Qed.

Lemma visibleChildren_length sel expanded q n n' :
  List.length (Children n) = List.length (Children n') ->
  visibleChildren sel expanded q n = visibleChildren sel expanded q n'.
Proof. intros H. unfold visibleChildren, childPtrs. now rewrite H. Qed.

Lemma afterOwnRow_widths sel q d st node k :
  (widths st k <= widths (afterOwnRow sel q d st node) k)%Z
  /\ (20 <= widths (afterOwnRow sel q d st node) d)%Z.
Proof.
  unfold afterOwnRow. simpl.
  pose proof (displayWidth_ge (isSelectedPos sel q) (Name node)) as G.
  destruct (widths st d <? displayWidth (isSelectedPos sel q) (Name node))%Z
    eqn:E.
  - apply Z.ltb_lt in E. unfold upd. rewrite Z.eqb_refl. split; [|lia].
    destruct (k =? d)%Z eqn:K; [apply Z.eqb_eq in K; subst; lia | lia].
  - apply Z.ltb_ge in E. split; lia.
Qed.

Section LaidFacts.
Variable sel : option pos.
Variable expanded : ExpandedMap.

Lemma layoutAssign_widths_mono node :
  forall q d st k,
    (widths st k <= widths (snd (layoutAssign sel expanded q d st node)) k)%Z.
Proof.
  induction node as [node IH] using Node_ind'.
  intros q d st k. rewrite layoutAssign_snd.
  assert (C : forall vis i s0,
             (widths s0 k
              <= widths (snd (layoutChildren sel expanded vis q d i
                                (Children node) s0)) k)%Z).
  { induction IH as [|c r Hc Hr IHr]; intros vis i s0; [simpl; lia|].
    rewrite layoutChildren_cons. cbn [snd].
    etransitivity; [|apply IHr].
    destruct (existsb (pos_eqb (i :: q)) vis); [apply Hc | simpl; lia]. }
  etransitivity; [|apply C].
  apply afterOwnRow_widths.
Qed.

Lemma layoutChildren_widths_mono vis q d cs :
  forall i st k,
    (widths st k
     <= widths (snd (layoutChildren sel expanded vis q d i cs st)) k)%Z.
Proof.
  induction cs as [|c r IH]; intros i st k; [simpl; lia|].
  rewrite layoutChildren_cons. cbn [snd].
  etransitivity; [|apply IH].
  destruct (existsb (pos_eqb (i :: q)) vis);
    [apply layoutAssign_widths_mono | simpl; lia].
Qed.

Lemma layoutChildren_length vis q d cs :
  forall i st,
    List.length (fst (layoutChildren sel expanded vis q d i cs st))
    = List.length cs.
Proof.
  induction cs as [|c r IH]; intros i st; [reflexivity|].
  rewrite layoutChildren_cons. cbn [fst List.length]. now rewrite IH.
Qed.

Lemma layoutAssign_length q d st node :
  List.length (Children (fst (layoutAssign sel expanded q d st node)))
  = List.length (Children node).
Proof. rewrite layoutAssign_fst. cbn [Children]. apply layoutChildren_length. Qed.

Lemma Laid_mono cw cw' shift n :
  (forall k, (cw k <= cw' k)%Z) ->
  forall q d, Laid sel expanded cw shift q d n ->
              Laid sel expanded cw' shift q d n.
Proof.
  intros Hm. induction n as [n IH] using Node_ind'.
  intros q d HL. inversion HL as [? ? ? HX Hw Hc]; subst.
  constructor; [assumption | |].
  - intros k Hk. specialize (Hw k Hk). specialize (Hm k). lia.
  - intros i c Hi Hv. rewrite Forall_forall in IH.
    apply IH; [now apply nth_error_In in Hi | now apply Hc].
Qed.

(** The layout of a subtree at depth [d], entered with columns of width
    at least 20 to the left of [d]. *)
Lemma layoutAssign_laid node :
  forall q d st,
    (0 <= d)%Z ->
    (forall k, (0 <= k < d)%Z -> (20 <= widths st k)%Z) ->
    Laid sel expanded (widths (snd (layoutAssign sel expanded q d st node))) 0
         q d (fst (layoutAssign sel expanded q d st node)).
Proof.
  induction node as [node IH] using Node_ind'.
  intros q d st Hd Hw.
  set (st1 := afterOwnRow sel q d st node).
  set (vis := visibleChildren sel expanded q node).
  assert (Hw1 : forall k, (0 <= k <= d)%Z -> (20 <= widths st1 k)%Z).
  { intros k Hk. destruct (Z.eq_dec k d) as [->|Hne].
    - apply afterOwnRow_widths. exact 0%Z.
    - transitivity (widths st k); [apply Hw; lia|].
      apply afterOwnRow_widths. }
  assert (C : forall i s0,
             (forall k, (0 <= k <= d)%Z -> (20 <= widths s0 k)%Z) ->
             forall j c',
               nth_error (fst (layoutChildren sel expanded vis q d i
                                 (Children node) s0)) j = Some c' ->
               existsb (pos_eqb ((i + j)%nat :: q)) vis = true ->
               Laid sel expanded
                 (widths (snd (layoutChildren sel expanded vis q d i
                                 (Children node) s0))) 0
                 ((i + j)%nat :: q) (d + 1) c').
  { induction IH as [|c r Hc Hr IHr]; intros i s0 Hs0 j c' Hj Hv.
    - destruct j; discriminate.
    - rewrite layoutChildren_cons in Hj |- *. cbn [fst snd] in Hj |- *.
      destruct j as [|j].
      + simpl in Hj. inversion Hj; subst c'. rewrite Nat.add_0_r in Hv |- *.
        rewrite Hv. apply Laid_mono with
          (cw := widths (snd (layoutAssign sel expanded (i :: q) (d + 1) s0 c))).
        * intros k. apply layoutChildren_widths_mono.
        * apply Hc; [lia|]. intros k Hk. apply Hs0. lia.
      + simpl in Hj. rewrite Nat.add_succ_r in Hv |- *.
        apply (IHr (S i)); try assumption.
        intros k Hk. etransitivity; [apply Hs0; exact Hk|].
        destruct (existsb (pos_eqb (i :: q)) vis);
          [apply layoutAssign_widths_mono | simpl; lia]. }
  rewrite layoutAssign_fst, layoutAssign_snd. fold st1. fold vis.
  constructor.
  - simpl. lia.
  - intros k Hk. etransitivity; [apply Hw1; exact Hk|].
    apply layoutChildren_widths_mono.
  - cbn [Children]. intros i c Hi Hv.
    rewrite (visibleChildren_length sel expanded q _ node) in Hv
      by (cbn [Children]; apply layoutChildren_length).
    fold vis in Hv.
    apply (C 0%nat st1 Hw1 i c Hi Hv).
Qed.

Lemma applyXShift_laid cw shift n :
  forall q d, Laid sel expanded cw 0 q d n ->
              Laid sel expanded cw shift q d (applyXShift shift n).
Proof.
  induction n as [n IH] using Node_ind'.
  intros q d HL. inversion HL as [? ? ? HX Hw Hc]; subst.
  assert (E : applyXShift shift n
              = mkNode (Name n) (Path n) (map (applyXShift shift) (Children n))
                       (IsDir n) (IsHistory n) (X n + shift) (Y n))
    by (destruct n; reflexivity).
  rewrite E. constructor.
  - simpl. lia.
  - assumption.
  - cbn [Children]. intros i c Hi Hv.
    rewrite nth_error_map in Hi.
    destruct (nth_error (Children n) i) as [c0|] eqn:Hi0; [|discriminate].
    inversion Hi; subst c.
    rewrite (visibleChildren_length sel expanded q _ n) in Hv
      by (cbn [Children]; apply length_map).
    rewrite Forall_forall in IH.
    apply IH; [now apply nth_error_In in Hi0 | now apply Hc].
Qed.
End LaidFacts.

(* ===================================================================== *)
(** ** Places of the tree across the layout and the shift                 *)
(* ===================================================================== *)

Section PlacesFacts.
Variable sel : option pos.
Variable expanded : ExpandedMap.

Lemma layoutChildren_nth vis q d cs :
  forall j st i,
    match nth_error cs i with
    | None =>
        nth_error (fst (layoutChildren sel expanded vis q d j cs st)) i = None
    | Some c =>
        exists c',
          nth_error (fst (layoutChildren sel expanded vis q d j cs st)) i
          = Some c'
          /\ (c' = c
              \/ exists p st0,
                   c' = fst (layoutAssign sel expanded p (d + 1) st0 c))
    end.
Proof.
  induction cs as [|c r IH]; intros j st i.
  - destruct i; reflexivity.
  - rewrite layoutChildren_cons. cbn [fst]. destruct i as [|i]; simpl.
    + destruct (existsb (pos_eqb (j :: q)) vis).
      * eexists. split; [reflexivity|]. right. eauto.
      * eexists. split; [reflexivity|]. now left.
    + apply IH.
Qed.

(** A place of the tree is a place of the laid-out tree, and the node
    there keeps its column unless the pass gave it a column, which is then
    not negative. *)
Lemma descend_layout r :
  forall n q d st,
    (0 <= d)%Z ->
    match descend n r with
    | None => descend (fst (layoutAssign sel expanded q d st n)) r = None
    | Some n0 =>
        exists n', descend (fst (layoutAssign sel expanded q d st n)) r
                   = Some n'
                   /\ (X n' = X n0 \/ (0 <= X n')%Z)
    end.
Proof.
  induction r as [|i r IH]; intros n q d st Hd.
  - simpl. eexists. split; [reflexivity|]. right.
    rewrite layoutAssign_fst. simpl. lia.
  - simpl. rewrite layoutAssign_fst. cbn [Children].
    pose proof (layoutChildren_nth (visibleChildren sel expanded q n) q d
                  (Children n) 0 (afterOwnRow sel q d st n) i) as H.
    destruct (nth_error (Children n) i) as [c|] eqn:Hi.
    + destruct H as (c' & Hc' & [E|(p & st0 & E)]); rewrite Hc'; subst c'.
      * destruct (descend c r) as [n0|]; [|reflexivity].
        exists n0. split; [reflexivity | now left].
      * apply IH. lia.
    + now rewrite H.
Qed.
End PlacesFacts.

Lemma descend_applyXShift shift r :
  forall n, descend (applyXShift shift n) r
            = option_map (applyXShift shift) (descend n r).
Proof.
  induction r as [|i r IH]; intros n; [reflexivity|].
  destruct n as [nm pth cs dir hist x y]. simpl.
  rewrite nth_error_map. destruct (nth_error cs i); simpl; [apply IH | reflexivity].
Qed.

Lemma applyXShift_X shift n : X (applyXShift shift n) = (X n + shift)%Z.
Proof. now destruct n. Qed.

Lemma layoutRoot_eq m expanded :
  layoutRoot m expanded =
  let L := layoutAssign (SelectedNode m) expanded [] 0
             (mkLayoutState (fun _ => 0%Z) (fun _ => 0%Z)) (Root m) in
  mkTreeModel (fst L) (SelectedNode m) (Width m) (Height m) (ScrollOffset m)
              (widths (snd L)).
Proof.
  unfold layoutRoot.
  now destruct (layoutAssign (SelectedNode m) expanded [] 0
                  (mkLayoutState (fun _ => 0%Z) (fun _ => 0%Z)) (Root m)).
Qed.

Lemma scrollLoop_ge cw width targetCol fuel :
  forall currentW scrollX,
    (scrollX <= scrollLoop cw width targetCol fuel currentW scrollX)%Z.
Proof.
  induction fuel as [|f IH]; intros currentW scrollX; simpl; [lia|].
  destruct ((width <? currentW)%Z && (scrollX <? targetCol)%Z); [|lia].
  etransitivity; [|apply IH]. lia.
Qed.

Lemma scrollStart_ge cw width targetCol :
  (0 <= scrollStart cw width targetCol)%Z.
Proof.
  unfold scrollStart. destruct (0 <? targetCol)%Z; [|lia].
  apply scrollLoop_ge.
Qed.

Lemma wellShaped_make w h :
  (0 <= h)%Z -> (0 <= w)%Z ->
  makeCanvas w h = Done (repeat (repeat " " (Z.to_nat w)) (Z.to_nat h))
  /\ wellShaped w h (repeat (repeat " " (Z.to_nat w)) (Z.to_nat h)).
Proof.
  intros Hh Hw. unfold makeCanvas.
  replace (h <? 0)%Z with false by (symmetry; apply Z.ltb_ge; lia).
  replace (w <? 0)%Z with false by (symmetry; apply Z.ltb_ge; lia).
  rewrite andb_false_r. split; [reflexivity|].
  split; [apply repeat_length|].
  apply Forall_forall. intros line Hl. apply repeat_spec in Hl. subst.
  apply repeat_length.
Qed.

Lemma wellShaped_no_columns h cv :
  wellShaped 0 h cv -> cv = repeat [] (Z.to_nat h).
Proof.
  intros [Hl Hf]. rewrite <- Hl. clear Hl.
  induction Hf as [|line r Hline Hr IH]; [reflexivity|].
  simpl. rewrite <- IH. destruct line; [reflexivity | discriminate].
Qed.

(** The layout [View] renders satisfies [Laid] with a shift that is not
    positive, and keeps the selection in the tree. *)
Lemma viewLayout_laid m s :
  SelectedNode m = Some s ->
  nodeAt (Root m) s <> None ->
  (forall d0, nodeAt (Root m) (displayRoot m) = Some d0 -> (-1 <= X d0)%Z) ->
  let m2 := viewLayout m in
  SelectedNode m2 = Some s
  /\ Width m2 = Width m /\ Height m2 = Height m
  /\ (exists selected, nodeAt (Root m2) s = Some selected)
  /\ exists shift, (shift <= 0)%Z
       /\ Laid (SelectedNode m2) (getExpandedMap m) (ColWidths m2) shift
               [] 0 (Root m2).
Proof.
  intros Hs Hv Hd m2. subst m2. unfold viewLayout.
  rewrite layoutRoot_eq. cbv zeta. cbn [Root SelectedNode Width Height ColWidths ScrollOffset].
  set (L := layoutAssign (SelectedNode m) (getExpandedMap m) [] 0
              (mkLayoutState (fun _ => 0%Z) (fun _ => 0%Z)) (Root m)).
  set (shiftX := match displayRootFrom [] (Root m) with
                 | [] => (-1)%Z
                 | _ :: _ =>
                     match nodeAt (fst L) (displayRootFrom [] (Root m)) with
                     | Some d => (- (X d + 1))%Z
                     | None => (-1)%Z
                     end
                 end).
  assert (Hshift : (shiftX <= 0)%Z).
  { unfold shiftX. destruct (displayRootFrom [] (Root m)) as [|i dr] eqn:E;
      [lia|].
    unfold nodeAt.
    pose proof (descend_layout (SelectedNode m) (getExpandedMap m)
                  (rev (i :: dr)) (Root m) [] 0
                  (mkLayoutState (fun _ => 0%Z) (fun _ => 0%Z))
                  (Z.le_refl 0)) as H.
    fold L in H.
    destruct (descend (Root m) (rev (i :: dr))) as [n0|] eqn:E0.
    - destruct H as (n' & Hn' & Hx). rewrite Hn'.
      assert (-1 <= X n0)%Z.
      { apply Hd. unfold displayRoot, nodeAt. now rewrite E. }
      lia.
    - rewrite H. lia. }
  split; [assumption|]. split; [reflexivity|]. split; [reflexivity|].
  split.
  - unfold nodeAt in *. rewrite descend_applyXShift.
    pose proof (descend_layout (SelectedNode m) (getExpandedMap m)
                  (rev s) (Root m) [] 0
                  (mkLayoutState (fun _ => 0%Z) (fun _ => 0%Z))
                  (Z.le_refl 0)) as H.
    fold L in H.
    destruct (descend (Root m) (rev s)) as [n0|]; [|congruence].
    destruct H as (n' & Hn' & _). rewrite Hn'. simpl. eauto.
  - exists shiftX. split; [assumption|].
    apply applyXShift_laid. unfold L. apply layoutAssign_laid; [lia|].
    intros k Hk. lia.
Qed.

Lemma makeCanvas_ok w h :
  h = 0%Z \/ ((0 < h)%Z /\ (0 <= w)%Z) ->
  exists cv, makeCanvas w h = Done cv /\ wellShaped w h cv.
Proof.
  intros [H|[Hh Hw]].
  - subst h. exists []. split; [reflexivity|]. split; [reflexivity | constructor].
  - destruct (wellShaped_make w h) as [E S]; try lia. eauto.
Qed.

(** [View] on a viewport without rows, or with rows and a width that is
    not negative. *)
Lemma View_done
      (renderStyle : Style -> string -> string)
      (runes : string -> list string) (glyph : Glyph -> string)
      (m : TreeModel) (s : pos) :
  SelectedNode m = Some s ->
  nodeAt (Root m) s <> None ->
  (forall d0, nodeAt (Root m) (displayRoot m) = Some d0 -> (-1 <= X d0)%Z) ->
  Height m = 0%Z \/ ((0 < Height m)%Z /\ (0 <= Width m)%Z) ->
  exists frame,
    View renderStyle runes glyph m = Done frame
    /\ (Height m = 0%Z -> frame = "")
    /\ (Width m = 0%Z -> frame = emptyRows (Height m)).
Proof.
  intros Hs Hv Hd Hdim.
  destruct (viewLayout_laid m s Hs Hv Hd)
    as (Hs2 & Hw2 & Hh2 & (selected & Hsel) & shift & Hshift & HL).
  unfold View. cbv zeta. rewrite Hs2, Hsel.
  rewrite <- Hw2, <- Hh2 in Hdim.
  destruct (makeCanvas_ok (Width (viewLayout m)) (Height (viewLayout m)) Hdim)
    as (cv & Ec & Sc).
  rewrite Ec. cbn [bind].
  destruct (renderNode_ok renderStyle runes glyph (viewLayout m)
              (getExpandedMap m)
              (scrollStart (ColWidths (viewLayout m)) (Width (viewLayout m))
                 (X selected))
              shift Hshift (scrollStart_ge _ _ _) (Root (viewLayout m))
              [] 0%Z cv HL Sc) as (cv' & Er & Sr).
  rewrite Er. cbn [bind]. eexists. split; [reflexivity|].
  rewrite Hw2, Hh2 in Sr. rewrite Hh2. split.
  - intros H0. destruct Sr as [Sl _]. rewrite H0 in Sl. simpl in Sl.
    destruct cv'; [reflexivity | discriminate].
  - intros W0. rewrite W0 in Sr. apply wellShaped_no_columns in Sr.
    now rewrite Sr.
Qed.

(* ===================================================================== *)
(** ** The models [NewTreeModel] builds can be rendered                   *)
(* ===================================================================== *)

Lemma insertParts_X0 historyPaths path parts :
  forall walked current,
    AllNodes (fun n => X n = 0%Z) current ->
    AllNodes (fun n => X n = 0%Z)
      (insertParts historyPaths path parts walked current).
Proof.
  induction parts as [|part rest IH]; intros walked current H; simpl.
  - destruct (walked && historyPaths path); [|assumption].
    constructor; [apply (AllNodes_here H) | apply (AllNodes_children H)].
  - destruct (findChild part (Children current)) as [[i c]|] eqn:E.
    + constructor; [apply (AllNodes_here H)|]. simpl.
      apply Forall_replaceAt; [apply (AllNodes_children H)|].
      apply IH. apply findChild_Some in E as [E _].
      pose proof (Forall_nth_error _ _ _ _ (AllNodes_children H) E) as Hc.
      destruct (historyPaths path || historyPaths (Path c));
        constructor; simpl;
        (apply (AllNodes_here Hc) || apply (AllNodes_children Hc)).
    + constructor; [apply (AllNodes_here H)|]. simpl.
      apply Forall_app; split; [apply (AllNodes_children H)|].
      constructor; [|constructor]. apply IH.
      constructor; simpl; [reflexivity | constructor].
Qed.

Lemma buildTree_X0 paths historyPaths :
  AllNodes (fun n => X n = 0%Z) (buildTree paths historyPaths).
Proof.
  unfold buildTree.
  assert (G : forall t, AllNodes (fun n => X n = 0%Z) t ->
              AllNodes (fun n => X n = 0%Z)
                (fold_left (insertPath historyPaths) paths t)).
  { induction paths as [|p r IH]; intros t H; simpl; [assumption|].
    apply IH. now apply insertParts_X0. }
  apply G. constructor; simpl; [reflexivity | constructor].
Qed.

Lemma compressFuel_X0 fuel :
  forall n, AllNodes (fun n => X n = 0%Z) n ->
            AllNodes (fun n => X n = 0%Z) (compressFuel fuel n).
Proof.
  induction fuel as [|f IH]; intros n H; simpl; [assumption|].
  destruct (negb (IsDir n) || (List.length (Children n) =? 0)%nat);
    [assumption|].
  assert (Hm : Forall (AllNodes (fun n => X n = 0%Z))
                 (map (compressFuel f) (Children n))).
  { apply Forall_map. eapply Forall_impl; [|apply (AllNodes_children H)].
    intros c Hc. now apply IH. }
  assert (Hn : AllNodes (fun n => X n = 0%Z)
                 (setChildren n (map (compressFuel f) (Children n))))
    by (constructor; [apply (AllNodes_here H) | exact Hm]).
  destruct (String.eqb (Name n) "ROOT"); [exact Hn|].
  destruct (map (compressFuel f) (Children n)) as [|c [|d r]] eqn:E;
    try exact Hn.
  destruct ((18 <? Str.len (Name n) + 1 + Str.len (Name c))%Z
            && (4 <? countLeaves c)%Z); [exact Hn|].
  apply IH. inversion Hm as [|? ? Hc _]; subst.
  constructor; simpl; [apply (AllNodes_here H) | apply (AllNodes_children Hc)].
Qed.

Lemma AllNodes_descend P r :
  forall n n', AllNodes P n -> descend n r = Some n' -> P n'.
Proof.
  induction r as [|i r IH]; intros n n' H E; simpl in E.
  - inversion E; subst. apply (AllNodes_here H).
  - destruct (nth_error (Children n) i) as [c|] eqn:Hi; [|discriminate].
    apply (IH c); [|assumption].
    apply (Forall_nth_error _ _ _ _ (AllNodes_children H) Hi).
Qed.

Lemma findLoop_sound root targetPath fuel :
  forall stack q,
    Forall (validEntry root) stack ->
    findLoop fuel targetPath stack = Some q ->
    nodeAt root q <> None.
Proof.
  induction fuel as [|f IH]; intros stack q Hv H.
  - destruct stack as [|[p n] rest]; discriminate.
  - destruct stack as [|[p n] rest]; [discriminate|].
    simpl in H. inversion Hv as [|? ? Hp Hrest]; subst.
    unfold validEntry in Hp. simpl in Hp.
    destruct (String.eqb (Path n) targetPath).
    + inversion H; subst. congruence.
    + eapply IH; [|exact H].
      apply Forall_app. split; [|assumption].
      apply Forall_forall. intros [p' c] Hin. apply in_rev in Hin.
      apply childEntries_spec in Hin as (i & Hp' & Hi). subst p'.
      unfold validEntry. simpl. now apply (nodeAt_child _ _ n).
Qed.

Lemma findNode_sound root targetPath q :
  findNode root targetPath = Some q -> nodeAt root q <> None.
Proof.
  unfold findNode. destruct (String.eqb (Path root) targetPath).
  - intros H. inversion H; subst. discriminate.
  - apply findLoop_sound. constructor; [reflexivity | constructor].
Qed.

(** The model [NewTreeModel] returns has its selection in the tree and
    all columns at 0. *)
Lemma NewTreeModel_renderable paths width height historyPaths :
  let m := NewTreeModel paths width height historyPaths in
  exists s, SelectedNode m = Some s
            /\ nodeAt (Root m) s <> None
            /\ (forall d0, nodeAt (Root m) (displayRoot m) = Some d0 ->
                           (-1 <= X d0)%Z).
Proof.
  intros m. unfold m, NewTreeModel. cbn [SelectedNode Root].
  set (root := compressTree (buildTree paths historyPaths)).
  assert (HX : AllNodes (fun n => X n = 0%Z) root)
    by (apply compressFuel_X0, buildTree_X0).
  assert (Hfb : nodeAt root match Children root with
                            | [] => []
                            | _ :: _ => [0%nat]
                            end <> None).
  { destruct (Children root) as [|c r] eqn:E; [discriminate|].
    unfold nodeAt. simpl. rewrite E. discriminate. }
  eexists. split; [reflexivity|]. split.
  - destruct paths as [|p0 rest]; [exact Hfb|].
    destruct (findNode root p0) as [q|] eqn:F; [|exact Hfb].
    now apply findNode_sound in F.
  - intros d0 H. unfold nodeAt in H.
    rewrite (AllNodes_descend _ _ _ _ HX H). lia.
Qed.

(** Rendering a freshly built model in a viewport with a positive height
    and a width that is not negative completes, with any styling. *)
Lemma NewTreeModel_view renderStyle runes glyph paths width height historyPaths :
  (0 < height)%Z -> (0 <= width)%Z ->
  exists frame,
    View renderStyle runes glyph (NewTreeModel paths width height historyPaths)
    = Done frame.
Proof.
  intros Hh Hw.
  destruct (NewTreeModel_renderable paths width height historyPaths)
    as (s & Hs & Hv & Hd).
  destruct (View_done renderStyle runes glyph _ s Hs Hv Hd) as (frame & E & _).
  - right. simpl. lia.
  - eauto.
Qed.

(* ===================================================================== *)
(** ** Every state of the engine can be rendered                          *)
(* ===================================================================== *)

Lemma displayRootFrom_eq q n :
  displayRootFrom q n =
  match Children n with
  | [c] => if IsDir c then displayRootFrom (0%nat :: q) c else q
  | _ => q
  end.
Proof. destruct n as [nm pth [|c [|d r]] dir hist x y]; reflexivity. Qed.

Lemma displayRootFrom_layout sel expanded n :
  forall q' q d st,
    displayRootFrom q' (fst (layoutAssign sel expanded q d st n))
    = displayRootFrom q' n.
Proof.
  induction n as [n IH] using Node_ind'. intros q' q d st.
  rewrite (displayRootFrom_eq q' n), displayRootFrom_eq.
  rewrite layoutAssign_fst. cbn [Children].
  destruct (Children n) as [|c [|c2 r]] eqn:E.
  - reflexivity.
  - rewrite layoutChildren_cons. cbn [fst layoutChildren].
    inversion IH as [|? ? Hc _]; subst.
    destruct (existsb (pos_eqb (0%nat :: q))
                (visibleChildren sel expanded q n)) eqn:V; cbn [fst].
    + rewrite layoutAssign_fst. cbn [IsDir].
      destruct (IsDir c); [|reflexivity].
      rewrite <- (Hc (0%nat :: q') (0%nat :: q) (d + 1)%Z
                     (afterOwnRow sel q d st n)).
      now rewrite layoutAssign_fst.
    + reflexivity.
  - rewrite layoutChildren_cons. cbv zeta. cbn [fst].
    rewrite layoutChildren_cons. cbv zeta. cbn [fst]. reflexivity.
Qed.

Lemma displayRootFrom_shift shift n :
  forall q, displayRootFrom q (applyXShift shift n) = displayRootFrom q n.
Proof.
  induction n as [n IH] using Node_ind'. intros q.
  rewrite (displayRootFrom_eq q n), displayRootFrom_eq.
  assert (E : Children (applyXShift shift n)
              = map (applyXShift shift) (Children n)) by (now destruct n).
  rewrite E.
  destruct (Children n) as [|c [|c2 r]]; try reflexivity.
  inversion IH as [|? ? Hc _]; subst. simpl.
  replace (IsDir (applyXShift shift c)) with (IsDir c) by (now destruct c).
  destruct (IsDir c); [apply Hc | reflexivity].
Qed.

Lemma nodeAt_parent root i p :
  nodeAt root (i :: p) <> None -> nodeAt root p <> None.
Proof.
  unfold nodeAt. simpl. rewrite descend_app.
  destruct (descend root (rev p)); congruence.
Qed.

Lemma Renderable_select m s' :
  Renderable m -> nodeAt (Root m) s' <> None ->
  Renderable (setSelected m (Some s')).
Proof.
  intros (s & Hs & Hv & Hd) Hs'. exists s'. repeat split; assumption.
Qed.

Lemma Renderable_moveSelection m delta :
  Renderable m -> Renderable (moveSelection m delta).
Proof.
  intros H. unfold moveSelection.
  destruct (SelectedNode m) as [[|i p]|] eqn:E; try assumption.
  destruct (nodeAt (Root m) p) as [parent|] eqn:Ep; [|assumption].
  destruct ((0 <=? Z.of_nat i + delta)%Z
            && (Z.of_nat i + delta <? Z.of_nat (List.length (Children parent)))%Z)
    eqn:B; [|assumption].
  apply andb_true_iff in B as [B1 B2].
  apply Z.leb_le in B1. apply Z.ltb_lt in B2.
  apply Renderable_select; [assumption|].
  destruct (nth_error (Children parent) (Z.to_nat (Z.of_nat i + delta)))
    as [c|] eqn:Hc.
  - rewrite (nodeAt_child _ _ _ _ _ Ep Hc). discriminate.
  - apply nth_error_None in Hc. lia.
Qed.

Lemma Renderable_enterDirectory m :
  Renderable m -> Renderable (enterDirectory m).
Proof.
  intros H. unfold enterDirectory.
  destruct (SelectedNode m) as [q|] eqn:E; [|assumption].
  destruct (nodeAt (Root m) q) as [n|] eqn:En; [|assumption].
  destruct (IsDir n && (0 <? List.length (Children n))%nat) eqn:B;
    [|assumption].
  apply andb_true_iff in B as [_ B]. apply Nat.ltb_lt in B.
  apply Renderable_select; [assumption|].
  destruct (Children n) as [|c r] eqn:Hc; [simpl in B; lia|].
  rewrite (nodeAt_child _ _ n 0%nat c En); [discriminate|].
  now rewrite Hc.
Qed.

Lemma Renderable_leaveDirectory m :
  Renderable m -> Renderable (leaveDirectory m).
Proof.
  intros H. unfold leaveDirectory.
  destruct (SelectedNode m) as [[|i [|j p]]|] eqn:E; try assumption.
  apply Renderable_select; [assumption|].
  destruct H as (s & Hs & Hv & _). rewrite E in Hs. inversion Hs; subst s.
  now apply nodeAt_parent in Hv.
Qed.

Lemma Renderable_layoutRoot m :
  Renderable m -> Renderable (layoutRoot m (getExpandedMap m)).
Proof.
  intros (s & Hs & Hv & Hd). rewrite layoutRoot_eq. cbv zeta.
  exists s. cbn [SelectedNode Root]. split; [assumption|].
  unfold displayRoot. cbn [Root]. rewrite displayRootFrom_layout.
  fold (displayRoot m).
  set (L := layoutAssign (SelectedNode m) (getExpandedMap m) [] 0
              (mkLayoutState (fun _ => 0%Z) (fun _ => 0%Z)) (Root m)).
  split.
  - unfold nodeAt in *.
    pose proof (descend_layout (SelectedNode m) (getExpandedMap m) (rev s)
                  (Root m) [] 0 (mkLayoutState (fun _ => 0%Z) (fun _ => 0%Z))
                  (Z.le_refl 0)) as H.
    fold L in H. destruct (descend (Root m) (rev s)); [|congruence].
    destruct H as (n' & Hn' & _). congruence.
  - intros d0 H0. unfold nodeAt in *.
    pose proof (descend_layout (SelectedNode m) (getExpandedMap m)
                  (rev (displayRoot m)) (Root m) [] 0
                  (mkLayoutState (fun _ => 0%Z) (fun _ => 0%Z))
                  (Z.le_refl 0)) as H.
    fold L in H.
    destruct (descend (Root m) (rev (displayRoot m))) as [n0|] eqn:E0.
    + destruct H as (n' & Hn' & Hx). rewrite Hn' in H0. inversion H0; subst d0.
      specialize (Hd n0 eq_refl). lia.
    + congruence.
Qed.

Lemma Renderable_fields m root' w h off cw :
  Renderable (mkTreeModel root' (SelectedNode m) (Width m) (Height m)
                (ScrollOffset m) (ColWidths m)) ->
  Renderable (mkTreeModel root' (SelectedNode m) w h off cw).
Proof. intros (s & Hs & Hv & Hd). exists s. repeat split; assumption. Qed.

Lemma Renderable_Update m k : Renderable m -> Renderable (Update m k).
Proof.
  intros H. unfold Update.
  set (m0 := match k with
             | KeyUp => moveSelection m (-1)
             | KeyDown => moveSelection m 1
             | KeyRight => enterDirectory m
             | KeyLeft => leaveDirectory m
             | KeyOther => m
             end).
  assert (H0 : Renderable m0).
  { unfold m0. destruct k;
      auto using Renderable_moveSelection, Renderable_enterDirectory,
                 Renderable_leaveDirectory. }
  destruct (SelectedNode m0) as [s|] eqn:Es; [|assumption].
  pose proof (Renderable_layoutRoot m0 H0) as H1.
  destruct (nodeAt (Root (layoutRoot m0 (getExpandedMap m0))) s); [|assumption].
  destruct H1 as (s1 & A & B & C). exists s1. repeat split; assumption.
Qed.

Lemma Renderable_afterView m : Renderable m -> Renderable (afterView m).
Proof.
  intros (s & Hs & Hv & Hd).
  destruct (viewLayout_laid m s Hs Hv Hd)
    as (Hs2 & _ & _ & (selected & Hsel) & _).
  exists s. unfold afterView. cbn [SelectedNode Root].
  split; [assumption|]. split; [congruence|].
  unfold displayRoot. cbn [Root]. unfold viewLayout. cbn [Root].
  rewrite layoutRoot_eq. cbv zeta. cbn [Root].
  rewrite displayRootFrom_shift, displayRootFrom_layout.
  set (L := layoutAssign (SelectedNode m) (getExpandedMap m) [] 0
              (mkLayoutState (fun _ => 0%Z) (fun _ => 0%Z)) (Root m)).
  intros d0 H0. unfold nodeAt in H0. rewrite descend_applyXShift in H0.
  destruct (displayRootFrom [] (Root m)) as [|i dr] eqn:E.
  - simpl in H0. inversion H0; subst d0. rewrite applyXShift_X.
    unfold L. rewrite layoutAssign_fst. simpl. lia.
  - unfold nodeAt.
    destruct (descend (fst L) (rev (i :: dr))) as [d1|] eqn:E1;
      [|discriminate].
    simpl in H0. inversion H0; subst d0. rewrite applyXShift_X. lia.
Qed.

(** Every state the engine goes through can be rendered. *)
Lemma Reachable_Renderable m : Reachable m -> Renderable m.
Proof.
  induction 1 as [paths width height historyPaths|m k _ IH|m _ IH
                  |m width height _ IH].
  - apply NewTreeModel_renderable.
  - now apply Renderable_Update.
  - now apply Renderable_afterView.
  - destruct IH as (s & Hs & Hv & Hd). exists s. repeat split; assumption.
Qed.


(* ===================================================================== *)
(** ** [View] on degenerate viewports                                     *)
(* ===================================================================== *)





Example view_panics_on_negative_width :
  View plainStyle byteRunes asciiGlyph negativeWidthModel = Panics.
Proof. vm_compute. reflexivity. Qed.

(** The frames of the repository's tree test, with plain styling. *)
Example view_of_test_input :
  View plainStyle byteRunes asciiGlyph
       (leaveDirectory (NewTreeModel testPaths 24 4 noHistory))
  = Done ("> src/            T-main" ++ newline
          ++ "README.md/        L-util" ++ newline
          ++ "go.mod/                 " ++ newline
          ++ "go.sum/                 ")%string.
Proof. vm_compute. reflexivity. Qed.

(* ===================================================================== *)
(** * Further properties of the tree engine                               *)
(* ===================================================================== *)

(** ** Vertical scrolling in [Update] *)

Lemma navigation_keeps_fields m k :
  let m0 := match k with
            | KeyUp => moveSelection m (-1)
            | KeyDown => moveSelection m 1
            | KeyRight => enterDirectory m
            | KeyLeft => leaveDirectory m
            | KeyOther => m
            end in
  Root m0 = Root m /\ Width m0 = Width m /\ Height m0 = Height m
  /\ ScrollOffset m0 = ScrollOffset m.
Proof.
  destruct k; cbv zeta.
  - unfold moveSelection.
    destruct (SelectedNode m) as [[|i p]|]; try (repeat split; reflexivity).
    destruct (nodeAt (Root m) p); [|repeat split; reflexivity].
    destruct (_ && _); repeat split; reflexivity.
  - unfold moveSelection.
    destruct (SelectedNode m) as [[|i p]|]; try (repeat split; reflexivity).
    destruct (nodeAt (Root m) p); [|repeat split; reflexivity].
    destruct (_ && _); repeat split; reflexivity.
  - unfold enterDirectory.
    destruct (SelectedNode m) as [q|]; [|repeat split; reflexivity].
    destruct (nodeAt (Root m) q); [|repeat split; reflexivity].
    destruct (_ && _); repeat split; reflexivity.
  - unfold leaveDirectory.
    destruct (SelectedNode m) as [[|i [|j p]]|]; repeat split; reflexivity.
  - repeat split; reflexivity.
Qed.


(** ** Horizontal scrolling in [View] *)

Lemma sumFrom_shift cw lo k :
  (sumFrom cw lo (S k) = cw lo + sumFrom cw (lo + 1) k)%Z.
Proof. reflexivity. Qed.






(** ** Column widths *)

Lemma displayWidth_le b name : (displayWidth b name <= 40)%Z.
Proof.
  unfold displayWidth.
  match goal with |- context [if (40 <? ?w)%Z then _ else _] =>
    destruct (40 <? w)%Z eqn:E;
      [|apply Z.ltb_ge in E;
        destruct (w <? 20)%Z; lia] end.
  simpl. lia.
Qed.

Lemma afterOwnRow_clamped sel q d st node :
  (forall k, widths st k = 0 \/ 20 <= widths st k <= 40)%Z ->
  (forall k, widths (afterOwnRow sel q d st node) k = 0
             \/ 20 <= widths (afterOwnRow sel q d st node) k <= 40)%Z.
Proof.
  intros H k. unfold afterOwnRow. cbn [widths].
  pose proof (displayWidth_ge (isSelectedPos sel q) (Name node)) as G.
  pose proof (displayWidth_le (isSelectedPos sel q) (Name node)) as L.
  destruct (widths st d <? displayWidth (isSelectedPos sel q) (Name node))%Z;
    [|apply H].
  unfold upd. destruct (k =? d)%Z; [right; lia | apply H].
Qed.

Lemma layoutAssign_clamped sel expanded node :
  forall q d st,
    (forall k, widths st k = 0 \/ 20 <= widths st k <= 40)%Z ->
    (forall k,
        widths (snd (layoutAssign sel expanded q d st node)) k = 0
        \/ 20 <= widths (snd (layoutAssign sel expanded q d st node)) k
           <= 40)%Z.
Proof.
  induction node as [node IH] using Node_ind'.
  intros q d st H. rewrite layoutAssign_snd.
  assert (C : forall vis i s0,
             (forall k, widths s0 k = 0 \/ 20 <= widths s0 k <= 40)%Z ->
             (forall k,
                 widths (snd (layoutChildren sel expanded vis q d i
                                (Children node) s0)) k = 0
                 \/ 20 <= widths (snd (layoutChildren sel expanded vis q d i
                                         (Children node) s0)) k <= 40)%Z).
  { induction IH as [|c r Hc Hr IHr]; intros vis i s0 H0; [exact H0|].
    rewrite layoutChildren_cons. cbn [snd].
    apply IHr.
    destruct (existsb (pos_eqb (i :: q)) vis); [apply Hc; exact H0 | exact H0]. }
  apply C. apply afterOwnRow_clamped. exact H.
Qed.

(** X3. After a layout pass every column width is 0 (no node in that
    column) or lies between 20 and 40, and the first column is never
    empty. *)
Theorem layout_column_widths_clamped m expanded k :
  (ColWidths (layoutRoot m expanded) k = 0
   \/ 20 <= ColWidths (layoutRoot m expanded) k <= 40)%Z
  /\ (20 <= ColWidths (layoutRoot m expanded) 0 <= 40)%Z.
Proof.
  rewrite layoutRoot_eq. cbv zeta. cbn [ColWidths].
  set (st0 := mkLayoutState (fun _ => 0%Z) (fun _ => 0%Z)).
  assert (H : forall j,
             (widths (snd (layoutAssign (SelectedNode m) expanded [] 0 st0
                             (Root m))) j = 0
              \/ 20 <= widths (snd (layoutAssign (SelectedNode m) expanded []
                                      0 st0 (Root m))) j <= 40)%Z).
  { apply layoutAssign_clamped. intros j. left. reflexivity. }
  split; [apply H|].
  destruct (H 0%Z) as [E|E]; [|exact E].
  exfalso.
  rewrite layoutAssign_snd in E.
  pose proof (layoutChildren_widths_mono (SelectedNode m) expanded
                (visibleChildren (SelectedNode m) expanded [] (Root m))
                [] 0%Z (Children (Root m)) 0%nat
                (afterOwnRow (SelectedNode m) [] 0 st0 (Root m)) 0%Z) as M.
  pose proof (afterOwnRow_widths (SelectedNode m) [] 0%Z st0 (Root m) 0%Z)
    as [_ G].
  lia.
Qed.

(** ** The layout pass touches coordinates only *)

Lemma eraseXY_layoutAssign sel expanded node :
  forall q d st,
    eraseXY (fst (layoutAssign sel expanded q d st node)) = eraseXY node.
Proof.
  induction node as [node IH] using Node_ind'.
  intros q d st. rewrite layoutAssign_fst.
  destruct node as [nm pth cs dir hist x y]. cbn [Name Path Children IsDir
    IsHistory X Y] in *. cbn [eraseXY Name Path Children IsDir IsHistory].
  f_equal.
  generalize (visibleChildren sel expanded q (mkNode nm pth cs dir hist x y)).
  generalize (afterOwnRow sel q d st (mkNode nm pth cs dir hist x y)).
  generalize 0%nat.
  induction IH as [|c r Hc Hr IHr]; intros i s0 vis; [reflexivity|].
  rewrite layoutChildren_cons. cbn [fst map]. f_equal.
  - destruct (existsb (pos_eqb (i :: q)) vis); [apply Hc | reflexivity].
  - apply IHr.
Qed.

Lemma eraseXY_applyXShift shift node :
  eraseXY (applyXShift shift node) = eraseXY node.
Proof.
  induction node as [node IH] using Node_ind'.
  destruct node as [nm pth cs dir hist x y]. cbn [Children] in IH.
  cbn [applyXShift eraseXY Name Path Children IsDir IsHistory X Y].
  f_equal. rewrite map_map.
  induction IH as [|c r Hc Hr IHr]; [reflexivity|].
  cbn [map]. now rewrite Hc, IHr.
Qed.

Lemma eraseXY_layoutRoot m expanded :
  eraseXY (Root (layoutRoot m expanded)) = eraseXY (Root m).
Proof. rewrite layoutRoot_eq. cbv zeta. cbn [Root]. apply eraseXY_layoutAssign. Qed.

(** X4. Neither a key handled by [Update] nor the layout and column shift
    of a [View] changes anything in the tree but the coordinates: names,
    paths, flags and children stay as [NewTreeModel] made them. *)
Theorem update_and_view_change_coordinates_only m k :
  eraseXY (Root (Update m k)) = eraseXY (Root m)
  /\ eraseXY (Root (afterView m)) = eraseXY (Root m).
Proof.
  split.
  - unfold Update.
    pose proof (navigation_keeps_fields m k) as F. cbv zeta in F.
    set (m0 := match k with
               | KeyUp => moveSelection m (-1)
               | KeyDown => moveSelection m 1
               | KeyRight => enterDirectory m
               | KeyLeft => leaveDirectory m
               | KeyOther => m
               end) in *.
    destruct F as (Fr & _).
    destruct (SelectedNode m0) as [s0|]; [|now rewrite Fr].
    destruct (nodeAt (Root (layoutRoot m0 (getExpandedMap m0))) s0);
      cbn [Root]; rewrite eraseXY_layoutRoot; now rewrite Fr.
  - unfold afterView, viewLayout. cbv zeta. cbn [Root].
    rewrite eraseXY_applyXShift. apply eraseXY_layoutRoot.
Qed.

(** ** Compression *)

Lemma compressTree_size n : (size (compressTree n) <= size n)%nat.
Proof. apply compressFuel_size. Qed.

Lemma compressTree_idem_upto k :
  forall n, (size n <= k)%nat ->
            compressTree (compressTree n) = compressTree n.
Proof.
  induction k as [|k IH]; intros n Hn.
  { rewrite size_unfold in Hn. lia. }
  pose proof (compressTree_eq n) as E.
  destruct (negb (IsDir n) || (List.length (Children n) =? 0)%nat) eqn:B.
  { rewrite E. exact E. }
  cbv zeta in E.
  assert (Hcs : map compressTree (map compressTree (Children n))
                = map compressTree (Children n)).
  { rewrite map_map. apply map_ext_in. intros c Hc. apply IH.
    pose proof (size_child _ _ Hc). rewrite (size_unfold n) in Hn. lia. }
  set (r := setChildren n (map compressTree (Children n))) in *.
  assert (Er : compressTree r =
               if String.eqb (Name n) "ROOT" then r
               else match Children r with
                    | [child] =>
                        if (18 <? Str.len (Name n) + 1 + Str.len (Name child))%Z
                           && (4 <? countLeaves child)%Z
                        then r
                        else compressTree
                               (mkNode (Str.Join (Name n) (Name child))
                                  (Path child) (Children child) (IsDir child)
                                  (IsHistory n) (X n) (Y n))
                    | _ => r
                    end).
  { rewrite (compressTree_eq r).
    replace (negb (IsDir r) || (List.length (Children r) =? 0)%nat)
      with false.
    2:{ rewrite <- B. unfold r. cbn [setChildren IsDir Children].
        now rewrite length_map. }
    cbv zeta.
    replace (setChildren r (map compressTree (Children r))) with r.
    2:{ unfold r at 2 3. cbn [setChildren Children]. rewrite Hcs.
        reflexivity. }
    reflexivity. }
  destruct (String.eqb (Name n) "ROOT").
  { rewrite E. exact Er. }
  destruct (Children r) as [|c' [|c2 rest]] eqn:Ec.
  - rewrite E. exact Er.
  - destruct ((18 <? Str.len (Name n) + 1 + Str.len (Name c'))%Z
              && (4 <? countLeaves c')%Z).
    + rewrite E. exact Er.
    + rewrite E. apply IH.
      rewrite size_unfold. cbn [Children].
      assert (Hin : In c' (map compressTree (Children n))).
      { unfold r in Ec. cbn [setChildren Children] in Ec. rewrite Ec.
        left. reflexivity. }
      apply in_map_iff in Hin as (c & <- & Hc).
      pose proof (size_child _ _ Hc) as S1.
      pose proof (compressTree_size c) as S2.
      rewrite (size_unfold (compressTree c)) in S2.
      rewrite (size_unfold n) in Hn. lia.
  - rewrite E. exact Er.
Qed.

(** X5. [compressTree] is idempotent: compressing a compressed tree
    changes nothing. *)
Theorem compressTree_idempotent n :
  compressTree (compressTree n) = compressTree n.
Proof. apply (compressTree_idem_upto (size n)). lia. Qed.

Lemma countLeaves_length n :
  countLeaves n = Z.of_nat (List.length (leafPaths n)).
Proof.
  induction n as [n IH] using Node_ind'.
  rewrite countLeaves_unfold, leafPaths_unfold.
  destruct (Children n) as [|c r] eqn:E; [reflexivity|].
  clear E. induction IH as [|c0 r0 Hc Hr IHr]; [reflexivity|].
  cbn [fold_right flat_map]. rewrite length_app, Hc, IHr. lia.
Qed.

(** X6. Compression loses no file: the compressed tree has the same leaf
    paths, in the same order, as the tree it was made from, and
    [countLeaves] is the number of these paths, at least one. *)
Theorem compression_keeps_leaf_paths n :
  leafPaths (compressTree n) = leafPaths n
  /\ countLeaves (compressTree n) = Z.of_nat (List.length (leafPaths n))
  /\ (1 <= countLeaves n)%Z.
Proof.
  split; [apply compressTree_leafPaths|].
  split; [rewrite compressTree_countLeaves; apply countLeaves_length|].
  induction n as [n IH] using Node_ind'.
  rewrite countLeaves_unfold.
  destruct (Children n) as [|c r]; [lia|].
  inversion IH as [|c0 r0 Hc Hr]; subst.
  cbn [fold_right].
  assert (0 <= fold_right (fun c acc => countLeaves c + acc) 0 r)%Z.
  { clear Hc IH. induction Hr as [|c1 r1 H1 Hr1 IHr1]; cbn [fold_right]; lia. }
  lia.
Qed.

(** ** The builder: names and repeated paths *)

Lemma insertParts_nodup historyPaths path parts :
  forall walked current,
    AllNodes (fun n => NoDup (map Name (Children n))) current ->
    AllNodes (fun n => NoDup (map Name (Children n)))
             (insertParts historyPaths path parts walked current).
Proof.
  induction parts as [|part rest IH]; intros walked current H; simpl.
  - destruct (walked && historyPaths path); [|assumption].
    constructor; [apply (AllNodes_here H) | apply (AllNodes_children H)].
  - destruct (findChild part (Children current)) as [[i c]|] eqn:E.
    + pose proof (findChild_Some _ _ _ _ E) as [En Ec].
      constructor; cbn [setChildren Children].
      * rewrite (map_Name_replaceAt _ _ c);
          [apply (AllNodes_here H) | exact En |].
        rewrite insertParts_Name.
        now destruct (historyPaths path || historyPaths (Path c)).
      * apply Forall_replaceAt; [apply (AllNodes_children H)|].
        apply IH. apply nth_error_In in En.
        pose proof (AllNodes_children H) as Hc.
        rewrite Forall_forall in Hc. specialize (Hc _ En).
        destruct (historyPaths path || historyPaths (Path c));
          constructor; simpl;
          try apply (AllNodes_here Hc); apply (AllNodes_children Hc).
    + constructor; cbn [setChildren Children].
      * rewrite map_app. cbn [map]. rewrite insertParts_Name. cbn [Name].
        apply NoDup_app; [apply (AllNodes_here H) | | ].
        -- constructor; [intros [] | constructor].
        -- intros x Hx [<-|[]]. exact (findChild_None _ _ E Hx).
      * apply Forall_app; split; [apply (AllNodes_children H)|].
        constructor; [|constructor]. apply IH.
        constructor; simpl; constructor.
Qed.

Lemma buildTree_nodup paths historyPaths :
  AllNodes (fun n => NoDup (map Name (Children n)))
           (buildTree paths historyPaths).
Proof.
  unfold buildTree.
  assert (G : forall t,
             AllNodes (fun n => NoDup (map Name (Children n))) t ->
             AllNodes (fun n => NoDup (map Name (Children n)))
                      (fold_left (insertPath historyPaths) paths t)).
  { induction paths as [|p r IH]; intros t H; simpl; [assumption|].
    apply IH. now apply insertParts_nodup. }
  apply G. constructor; simpl; constructor.
Qed.

Lemma findChild_nodup cs :
  forall i c,
    NoDup (map Name cs) -> nth_error cs i = Some c ->
    findChild (Name c) cs = Some (i, c).
Proof.
  induction cs as [|d r IH]; intros [|i] c N H; simpl in *;
    try discriminate.
  - inversion H; subst. now rewrite String.eqb_refl.
  - inversion N as [|? ? Hd Hr]; subst.
    destruct (String.eqb (Name d) (Name c)) eqn:E.
    + apply String.eqb_eq in E. exfalso. apply Hd. rewrite E.
      apply in_map. now apply nth_error_In in H.
    + now rewrite (IH i c Hr H).
Qed.

(** X7. In the tree [buildTree] makes, no node has two children of the
    same name. *)
Theorem buildTree_child_names_distinct paths historyPaths :
  AllNodes (fun n => NoDup (map Name (Children n)))
           (buildTree paths historyPaths).
Proof. apply buildTree_nodup. Qed.

Lemma insertParts_IsDir_any historyPaths path parts walked t :
  IsDir (insertParts historyPaths path parts walked t) = IsDir t.
Proof.
  destruct parts as [|x rest]; simpl.
  - now destruct (walked && historyPaths path).
  - now destruct (findChild x (Children t)) as [[i c]|].
Qed.

Lemma insertParts_IsHistory_mono historyPaths path parts walked t :
  IsHistory t = true ->
  IsHistory (insertParts historyPaths path parts walked t) = true.
Proof.
  destruct parts as [|x rest]; simpl.
  - now destruct (walked && historyPaths path).
  - now destruct (findChild x (Children t)) as [[i c]|].
Qed.

Lemma replaceAt_same cs : forall i c,
  nth_error cs i = Some c -> replaceAt i c cs = cs.
Proof.
  induction cs as [|d r IH]; intros [|i] c H; simpl in *;
    try discriminate.
  - now inversion H.
  - now rewrite (IH i c H).
Qed.

Lemma setIsHistory_same c : IsHistory c = true -> setIsHistory c true = c.
Proof. destruct c; simpl; now intros ->. Qed.

Lemma setIsDir_same c : IsDir c = true -> setIsDir c true = c.
Proof. destruct c; simpl; now intros ->. Qed.

Lemma setChildren_same c : setChildren c (Children c) = c.
Proof. now destruct c. Qed.

(** A path that is in the tree is walked without any change. *)
Lemma insertParts_present historyPaths path parts :
  forall walked t,
    Present historyPaths path parts walked t ->
    insertParts historyPaths path parts walked t = t.
Proof.
  induction parts as [|x rest IH]; intros walked t H; simpl in *.
  - destruct (walked && historyPaths path) eqn:B; [|reflexivity].
    apply setIsHistory_same. now apply H.
  - destruct H as (i & c & F & D & Hh & P).
    rewrite F.
    pose proof (findChild_Some _ _ _ _ F) as [En _].
    replace (if historyPaths path || historyPaths (Path c)
             then setIsHistory c true else c) with c.
    2:{ destruct (historyPaths path || historyPaths (Path c)) eqn:B;
          [|reflexivity].
        symmetry. apply setIsHistory_same. now apply Hh. }
    rewrite (setIsDir_same c D), (IH true c P), (replaceAt_same _ _ _ En).
    apply setChildren_same.
Qed.

(** After its walk a path is in the tree. *)
Lemma Present_after_insert historyPaths path parts :
  forall walked t,
    Present historyPaths path parts walked
            (insertParts historyPaths path parts walked t).
Proof.
  induction parts as [|x rest IH]; intros walked t; simpl.
  - intros B. rewrite B. destruct t; reflexivity.
  - destruct (findChild x (Children t)) as [[i c]|] eqn:F.
    + pose proof (findChild_Some _ _ _ _ F) as [En Ec].
      set (c2 := setIsDir (if historyPaths path || historyPaths (Path c)
                           then setIsHistory c true else c) true).
      exists i, (insertParts historyPaths path rest true c2).
      cbn [setChildren Children].
      split; [|split; [|split]].
      * apply (findChild_replaceAt_same _ _ _ c); [exact F|].
        rewrite insertParts_Name. unfold c2.
        now destruct (historyPaths path || historyPaths (Path c)).
      * rewrite insertParts_IsDir_any. unfold c2.
        now destruct (historyPaths path || historyPaths (Path c)).
      * assert (P2 : Path c2 = Path c).
        { unfold c2.
          now destruct (historyPaths path || historyPaths (Path c)). }
        rewrite insertParts_Path, P2. intros B.
        apply insertParts_IsHistory_mono. unfold c2.
        now rewrite B.
      * apply IH.
    + set (c2 := setIsDir
                   (mkNode x (Str.Join (Path t) x) []
                      match rest with [] => false | _ :: _ => true end
                      (historyPaths path
                       || historyPaths (Str.Join (Path t) x)) 0 0) true).
      exists (List.length (Children t)),
        (insertParts historyPaths path rest true c2).
      cbn [setChildren Children].
      split; [|split; [|split]].
      * apply findChild_app_new; [exact F|].
        now rewrite insertParts_Name.
      * now rewrite insertParts_IsDir_any.
      * rewrite insertParts_Path. intros B.
        apply insertParts_IsHistory_mono. exact B.
      * apply IH.
Qed.

Lemma Present_children historyPaths path x rest w w' t t' :
  Children t = Children t' ->
  Present historyPaths path (x :: rest) w t ->
  Present historyPaths path (x :: rest) w' t'.
Proof. simpl. now intros ->. Qed.

Lemma Present_history historyPaths path parts w c c' :
  Children c' = Children c ->
  (IsHistory c = true -> IsHistory c' = true) ->
  Present historyPaths path parts w c ->
  Present historyPaths path parts w c'.
Proof.
  intros Hc Hh. destruct parts as [|x rest]; simpl.
  - intros H B. apply Hh, H, B.
  - now rewrite Hc.
Qed.

(** The walk of another path leaves a path in the tree. *)
Lemma Present_kept historyPaths path parts :
  forall w t path' parts' w',
    Present historyPaths path parts w t ->
    Present historyPaths path parts w
            (insertParts historyPaths path' parts' w' t).
Proof.
  induction parts as [|x rest IH]; intros w t path' parts' w' H.
  - simpl in *. intros B. apply insertParts_IsHistory_mono, H, B.
  - destruct parts' as [|y rest'].
    + simpl. destruct (w' && historyPaths path'); exact H.
    + destruct H as (i & c & F & D & Hh & P).
      pose proof (findChild_Some _ _ _ _ F) as [En Ec].
      cbn [insertParts].
      destruct (findChild y (Children t)) as [[j c']|] eqn:F'.
      * set (c2 := setIsDir (if historyPaths path' || historyPaths (Path c')
                             then setIsHistory c' true else c') true).
        destruct (String.eqb x y) eqn:Exy.
        -- apply String.eqb_eq in Exy. subst y.
           rewrite F in F'. injection F' as <- <-.
           exists i, (insertParts historyPaths path' rest' true c2).
           cbn [setChildren Children].
           assert (N2 : Name c2 = x).
           { unfold c2.
             now destruct (historyPaths path' || historyPaths (Path c)). }
           assert (P2 : Path c2 = Path c).
           { unfold c2.
             now destruct (historyPaths path' || historyPaths (Path c)). }
           assert (C2 : Children c2 = Children c).
           { unfold c2.
             now destruct (historyPaths path' || historyPaths (Path c)). }
           assert (H2 : IsHistory c = true -> IsHistory c2 = true).
           { unfold c2.
             now destruct (historyPaths path' || historyPaths (Path c)). }
           split; [|split; [|split]].
           ++ apply (findChild_replaceAt_same _ _ _ c); [exact F|].
              now rewrite insertParts_Name.
           ++ now rewrite insertParts_IsDir_any.
           ++ rewrite insertParts_Path, P2. intros B.
              apply insertParts_IsHistory_mono, H2, Hh, B.
           ++ apply IH. apply (Present_history _ _ _ _ c); assumption.
        -- apply String.eqb_neq in Exy.
           pose proof (findChild_Some _ _ _ _ F') as [En' Ec'].
           exists i, c. cbn [setChildren Children].
           split; [|split; [|split]]; try assumption.
           rewrite (findChild_replaceAt_other _ _ _ c'); try assumption.
           ++ congruence.
           ++ rewrite insertParts_Name. unfold c2.
              destruct (historyPaths path' || historyPaths (Path c'));
                simpl; congruence.
      * exists i, c. cbn [setChildren Children].
        split; [|split; [|split]]; try assumption.
        rewrite findChild_app_other; [exact F|].
        rewrite insertParts_Name. cbn [setIsDir Name].
        intros ->. rewrite F in F'. discriminate.
Qed.

Lemma Present_build historyPaths p paths :
  forall t, In p paths ->
            Present historyPaths p (Str.Split p) false
                    (fold_left (insertPath historyPaths) paths t).
Proof.
  induction paths as [|p0 r IH]; intros t Hin; [destruct Hin|].
  destruct Hin as [<-|H]; simpl.
  - assert (G : forall l t0,
               Present historyPaths p0 (Str.Split p0) false t0 ->
               Present historyPaths p0 (Str.Split p0) false
                       (fold_left (insertPath historyPaths) l t0)).
    { induction l as [|q l IHl]; intros t0 H0; simpl; [exact H0|].
      apply IHl. now apply Present_kept. }
    apply G. apply Present_after_insert.
  - now apply IH.
Qed.

Lemma buildTree_repeated historyPaths p l1 l2 :
  In p l1 ->
  buildTree (l1 ++ p :: l2) historyPaths = buildTree (l1 ++ l2) historyPaths.
Proof.
  intros H. unfold buildTree. rewrite !fold_left_app. cbn [fold_left].
  f_equal. unfold insertPath at 2. apply insertParts_present.
  now apply Present_build.
Qed.

(** X8. A path that occurs again later in the list changes nothing:
    the tree, and the whole model [NewTreeModel] makes, are those of the
    list without the later occurrence. *)
Theorem repeated_path_changes_nothing historyPaths p l1 l2 width height :
  In p l1 ->
  buildTree (l1 ++ p :: l2) historyPaths = buildTree (l1 ++ l2) historyPaths
  /\ NewTreeModel (l1 ++ p :: l2) width height historyPaths
     = NewTreeModel (l1 ++ l2) width height historyPaths.
Proof.
  intros H. split; [now apply buildTree_repeated|].
  unfold NewTreeModel. rewrite (buildTree_repeated historyPaths p l1 l2 H).
  destruct l1 as [|p0 l1]; [destruct H|]. reflexivity.
Qed.

Lemma repeated_path_changes_nothing_witness :
  buildTree (["a/b"; "c"] ++ "a/b" :: ["d"]) historyAB
  = buildTree (["a/b"; "c"] ++ ["d"]) historyAB
  /\ NewTreeModel (["a/b"; "c"] ++ "a/b" :: ["d"]) 80 20 historyAB
     = NewTreeModel (["a/b"; "c"] ++ ["d"]) 80 20 historyAB.
Proof.
  apply (repeated_path_changes_nothing historyAB "a/b" ["a/b"; "c"] ["d"]
           80 20).
  left. reflexivity.
Defined.

(** ** The leaves of the tree are the input paths nothing extends *)

Lemma leaf_follow t :
  AllNodes (fun n => NoDup (map Name (Children n))) t ->
  forall x, In x (leafPaths t) ->
    exists route c,
      follow t route = Some c /\ Children c = [] /\ Path c = x
      /\ (route = [] -> Children t = []).
Proof.
  induction t as [t IH] using Node_ind'. intros N x H.
  rewrite leafPaths_unfold in H.
  destruct (Children t) as [|e es] eqn:E.
  - destruct H as [H|[]]. exists [], t. repeat split; auto.
  - apply in_flat_map in H as [d [Hd Hx]].
    pose proof (AllNodes_children N) as Nc. rewrite E in Nc.
    rewrite Forall_forall in IH, Nc.
    destruct (IH d Hd (Nc d Hd) x Hx) as (route & c & Hf & Hc & Hp & _).
    destruct (In_nth_error _ _ Hd) as [i Hi].
    exists (Name d :: route), c. repeat split; try assumption.
    + simpl. rewrite E.
      rewrite (findChild_nodup (e :: es) i d); [exact Hf | | exact Hi].
      rewrite <- E. apply (AllNodes_here N).
    + discriminate.
Qed.

Lemma follow_snoc r : forall t s c,
  follow t (r ++ [s]) = Some c ->
  exists parent, follow t r = Some parent
                 /\ In s (map Name (Children parent)).
Proof.
  induction r as [|y r IH]; intros t s c H; simpl in *.
  - exists t. split; [reflexivity|].
    destruct (findChild s (Children t)) as [[i d]|] eqn:F; [|discriminate].
    apply findChild_Some in F as [Hn Hs]. rewrite <- Hs.
    apply in_map. now apply nth_error_In in Hn.
  - destruct (findChild y (Children t)) as [[i d]|]; [|discriminate].
    now apply (IH d s c).
Qed.

Lemma addIfNew_In names x s :
  In s (addIfNew names x) -> In s names \/ x = Some s.
Proof.
  destruct x as [y|]; simpl; [|now left].
  destruct (existsb (String.eqb y) names); [now left|].
  intros H. apply in_app_or in H as [H|[H|[]]]; [now left | right; now subst].
Qed.

Lemma firstOccurrences_In route paths s :
  In s (firstOccurrences route paths) ->
  exists p, In p paths /\ nextAfter route (Str.Split p) = Some s.
Proof.
  unfold firstOccurrences.
  assert (G : forall names,
             In s (fold_left
                     (fun names p =>
                        addIfNew names (nextAfter route (Str.Split p)))
                     paths names) ->
             In s names
             \/ exists p, In p paths
                          /\ nextAfter route (Str.Split p) = Some s).
  { induction paths as [|a r IH]; intros names H; simpl in H; [now left|].
    destruct (IH _ H) as [H1|(p & Hp & Hn)].
    - apply addIfNew_In in H1 as [H1|H1]; [now left|].
      right. exists a. split; [now left | exact H1].
    - right. exists p. split; [now right | exact Hn]. }
  intros H. destruct (G [] H) as [[]|H']. exact H'.
Qed.

Lemma addIfNew_nil names x : addIfNew names x = [] -> names = [] /\ x = None.
Proof.
  destruct x as [y|]; simpl; [|now split].
  destruct (existsb (String.eqb y) names) eqn:E.
  - intros ->. discriminate.
  - intros H. apply app_eq_nil in H as [_ H]. discriminate.
Qed.

Lemma firstOccurrences_nil route paths :
  firstOccurrences route paths = [] ->
  forall p, In p paths -> nextAfter route (Str.Split p) = None.
Proof.
  unfold firstOccurrences.
  assert (G : forall names,
             fold_left
               (fun names p => addIfNew names (nextAfter route (Str.Split p)))
               paths names = [] ->
             names = []
             /\ forall p, In p paths -> nextAfter route (Str.Split p) = None).
  { induction paths as [|a r IH]; intros names H; simpl in H.
    - split; [exact H | intros p []].
    - destruct (IH _ H) as [H1 H2].
      apply addIfNew_nil in H1 as [H1 H3].
      split; [exact H1|]. intros p [<-|Hp]; [exact H3 | now apply H2]. }
  intros H. apply (G [] H).
Qed.

Lemma nextAfter_Some r : forall segs s,
  nextAfter r segs = Some s -> exists rest, segs = r ++ s :: rest.
Proof.
  induction r as [|y r IH]; intros [|x segs] s H; simpl in H;
    try discriminate.
  - inversion H; subst. now exists segs.
  - destruct (String.eqb x y) eqn:E; [|discriminate].
    apply String.eqb_eq in E. subst y.
    destruct (IH _ _ H) as [rest ->]. now exists rest.
Qed.

Lemma nextAfter_app l rest : nextAfter l (l ++ rest) = hd_error rest.
Proof.
  induction l as [|y l IH]; simpl; [now destruct rest|].
  now rewrite String.eqb_refl.
Qed.

Lemma buildTree_leaf_is_input paths historyPaths x :
  Forall (fun p => cleanRelative p = true) paths ->
  paths <> [] ->
  In x (leafPaths (buildTree paths historyPaths)) ->
  In x paths
  /\ forall p', In p' paths ->
                nextAfter (Str.Split x) (Str.Split p') = None.
Proof.
  intros Hc Hne Hx.
  destruct (leaf_follow _ (buildTree_nodup paths historyPaths) x Hx)
    as (route & c & Hf & Hl & Hp & Hroot).
  assert (Hr : route <> []).
  { intros ->. specialize (Hroot eq_refl).
    destruct paths as [|p0 r]; [contradiction|].
    destruct (follow_build historyPaths p0 (p0 :: r) rootNode
                (or_introl eq_refl)) as [c0 H0].
    fold (buildTree (p0 :: r) historyPaths) in H0.
    destruct (Str.Split p0) as [|y ys] eqn:S;
      [now apply Split_nonempty in S|].
    simpl in H0. rewrite Hroot in H0. discriminate. }
  destruct (exists_last Hr) as (r' & s & ->).
  destruct (follow_snoc _ _ _ _ Hf) as (parent & Hfp & Hs).
  pose proof (buildTree_childNames paths historyPaths r') as N1.
  unfold childNamesAt in N1. rewrite Hfp in N1. rewrite N1 in Hs.
  destruct (firstOccurrences_In _ _ _ Hs) as (p & Hpin & Hn).
  destruct (nextAfter_Some _ _ _ Hn) as [rest Hsplit].
  pose proof (buildTree_childNames paths historyPaths (r' ++ [s])) as N2.
  unfold childNamesAt in N2. rewrite Hf, Hl in N2. cbn [map] in N2.
  symmetry in N2.
  pose proof (firstOccurrences_nil _ _ N2) as Hnone.
  assert (Hrest : rest = []).
  { specialize (Hnone p Hpin). rewrite Hsplit in Hnone.
    replace (r' ++ s :: rest) with ((r' ++ [s]) ++ rest) in Hnone
      by now rewrite <- app_assoc.
    rewrite nextAfter_app in Hnone. now destruct rest. }
  subst rest.
  pose proof (PathsFrom_follow _ _ _ _
                (PathsFrom_build paths historyPaths Hc) Hf) as Pc.
  cbn [app] in Pc. apply PathsFrom_path in Pc.
  assert (R : routePath (r' ++ [s]) = Str.JoinSep (r' ++ [s])).
  { unfold routePath.
    destruct (r' ++ [s]) eqn:A;
      [apply app_eq_nil in A as [_ A]; discriminate | reflexivity]. }
  assert (E : x = p).
  { rewrite <- Hp, Pc, R, <- Hsplit. apply JoinSep_Split. }
  rewrite E. split; [exact Hpin|].
  rewrite Hsplit. exact Hnone.
Qed.

(** X9. For a non-empty list of clean relative paths, the leaves of the
    tree [NewTreeModel] shows are exactly the input paths that no input
    path continues: every such path is the path of a leaf, and every
    leaf carries such a path. *)
Theorem leaves_are_the_unextended_paths paths width height historyPaths x :
  Forall (fun p => cleanRelative p = true) paths ->
  paths <> [] ->
  In x (leafPaths (Root (NewTreeModel paths width height historyPaths)))
  <-> (In x paths
       /\ forall p', In p' paths ->
                     nextAfter (Str.Split x) (Str.Split p') = None).
Proof.
  intros Hc Hne. unfold NewTreeModel. cbv zeta. cbn [Root].
  rewrite compressTree_leafPaths. split.
  - now apply buildTree_leaf_is_input.
  - intros [Hin Hn]. now apply buildTree_leaf.
Qed.

Lemma leaves_are_the_unextended_paths_witness :
  In "a/b" (leafPaths (Root (NewTreeModel prefixPaths 80 20 noHistory)))
  <-> (In "a/b" prefixPaths
       /\ forall p', In p' prefixPaths ->
                     nextAfter (Str.Split "a/b") (Str.Split p') = None).
Proof.
  apply (leaves_are_the_unextended_paths prefixPaths 80 20 noHistory "a/b").
  - repeat constructor.
  - discriminate.
Defined.

(** ** [findNode] *)

Lemma findLoop_sound_path root targetPath fuel :
  forall stack q,
    Forall (validEntry root) stack ->
    findLoop fuel targetPath stack = Some q ->
    exists n, nodeAt root q = Some n /\ Path n = targetPath.
Proof.
  induction fuel as [|f IH]; intros stack q Hv H.
  - destruct stack as [|[p n] rest]; discriminate.
  - destruct stack as [|[p n] rest]; [discriminate|].
    simpl in H. inversion Hv as [|? ? Hp Hrest]; subst.
    unfold validEntry in Hp. simpl in Hp.
    destruct (String.eqb (Path n) targetPath) eqn:E.
    + inversion H; subst. exists n. split; [exact Hp|].
      now apply String.eqb_eq.
    + eapply IH; [|exact H].
      apply Forall_app. split; [|assumption].
      apply Forall_forall. intros [p' c] Hin. apply in_rev in Hin.
      apply childEntries_spec in Hin as (i & Hp' & Hi). subst p'.
      unfold validEntry. simpl. now apply (nodeAt_child _ _ n).
Qed.

(** X10. [findNode] is exact: the node it returns carries the target
    path, and it returns nil only when no node of the tree carries it. *)
Theorem findNode_exact root targetPath :
  match findNode root targetPath with
  | Some q => exists n, nodeAt root q = Some n /\ Path n = targetPath
  | None => ~ hasPath targetPath root
  end.
Proof.
  destruct (findNode root targetPath) as [q|] eqn:E.
  - unfold findNode in E.
    destruct (String.eqb (Path root) targetPath) eqn:B.
    + inversion E; subst. exists root. split; [reflexivity|].
      now apply String.eqb_eq.
    + apply (findLoop_sound_path root targetPath (size root) [([], root)]);
        [|exact E].
      constructor; [reflexivity | constructor].
  - intros H. destruct (findNode_complete root targetPath H) as (q & n & F & _).
    rewrite F in E. discriminate.
Qed.

(** ** Navigation *)

Lemma setSelected_back m s :
  SelectedNode m = s -> forall s', setSelected (setSelected m s') s = m.
Proof. intros <- s'. now destruct m. Qed.

(** X11. Navigation steps that moved the selection are undone by the
    opposite key: after a move by [delta] to an existing sibling the move
    by [-delta] restores the model, and after entering the children of a
    node other than the root, leaving restores it. *)
Theorem navigation_round_trips m i p parent :
  SelectedNode m = Some (i :: p) ->
  nodeAt (Root m) p = Some parent ->
  (i < List.length (Children parent))%nat ->
  (forall delta,
      (0 <= Z.of_nat i + delta < Z.of_nat (List.length (Children parent)))%Z ->
      moveSelection (moveSelection m delta) (- delta) = m)
  /\ (forall n, nodeAt (Root m) (i :: p) = Some n ->
                IsDir n = true -> Children n <> [] ->
                leaveDirectory (enterDirectory m) = m).
Proof.
  intros Hs Hp Hi. split.
  - intros delta Hd. unfold moveSelection at 2. rewrite Hs, Hp.
    replace ((0 <=? Z.of_nat i + delta)%Z
             && (Z.of_nat i + delta
                 <? Z.of_nat (List.length (Children parent)))%Z) with true.
    2:{ symmetry. apply andb_true_iff. split;
          [apply Z.leb_le | apply Z.ltb_lt]; lia. }
    unfold moveSelection. cbn [setSelected SelectedNode Root]. rewrite Hp.
    replace (Z.of_nat (Z.to_nat (Z.of_nat i + delta)) + - delta)%Z
      with (Z.of_nat i) by lia.
    replace ((0 <=? Z.of_nat i)%Z
             && (Z.of_nat i <? Z.of_nat (List.length (Children parent)))%Z)
      with true.
    2:{ symmetry. apply andb_true_iff. split;
          [apply Z.leb_le | apply Z.ltb_lt]; lia. }
    rewrite Nat2Z.id. destruct m; cbn in *. now rewrite Hs.
  - intros n Hn Hd Hc. unfold enterDirectory. rewrite Hs, Hn, Hd.
    replace (0 <? List.length (Children n))%nat with true.
    2:{ symmetry. apply Nat.ltb_lt. destruct (Children n);
          [contradiction | simpl; lia]. }
    cbn [andb]. unfold leaveDirectory. cbn [setSelected SelectedNode].
    destruct m; cbn in *. now rewrite Hs.
Qed.

Lemma navigation_round_trips_witness :
  (forall delta,
      (0 <= Z.of_nat 0 + delta < Z.of_nat 2)%Z ->
      moveSelection (moveSelection twoFilesModel delta) (- delta)
      = twoFilesModel)
  /\ (forall n, nodeAt (Root twoFilesModel) [0%nat; 0%nat] = Some n ->
                IsDir n = true -> Children n <> [] ->
                leaveDirectory (enterDirectory twoFilesModel) = twoFilesModel).
Proof.
  apply (navigation_round_trips twoFilesModel 0%nat [0%nat]
           (mkNode "a" "a"
              [mkNode "b" "a/b" [] true false 0 0;
               mkNode "c" "a/c" [] true false 0 0] true false 0 0)).
  - vm_compute. reflexivity.
  - vm_compute. reflexivity.
  - simpl. lia.
Defined.

(** X12. In every state the engine reaches from [NewTreeModel] by keys,
    renderings and resizes, the selection is set and is a node of the
    tree, and [SelectedPath] is that node's path without a leading
    ["ROOT/"]. *)
Theorem reachable_selection_is_a_node m :
  Reachable m ->
  exists s n, SelectedNode m = Some s
              /\ nodeAt (Root m) s = Some n
              /\ SelectedPath m = Str.TrimPrefix (Path n) "ROOT/".
Proof.
  intros H. destruct (Reachable_Renderable m H) as (s & Hs & Hn & _).
  destruct (nodeAt (Root m) s) as [n|] eqn:E; [|contradiction].
  exists s, n. repeat split; try assumption.
  unfold SelectedPath. now rewrite Hs, E.
Qed.

Lemma reachable_selection_is_a_node_witness :
  exists s n, SelectedNode (Update deepModel KeyLeft) = Some s
              /\ nodeAt (Root (Update deepModel KeyLeft)) s = Some n
              /\ SelectedPath (Update deepModel KeyLeft)
                 = Str.TrimPrefix (Path n) "ROOT/".
Proof.
  apply (reachable_selection_is_a_node (Update deepModel KeyLeft)).
  apply Reach_update, Reach_new.
Defined.

(* ===================================================================== *)
(** * The host program                                                    *)
(* ===================================================================== *)

(** ** [combineFiles] *)

Lemma addUnseen_spec st path :
  (forall x, In x (fst st) <-> In x (snd st)) ->
  NoDup (snd st) ->
  (forall x, In x (fst (addUnseen st path))
             <-> In x (snd (addUnseen st path)))
  /\ NoDup (snd (addUnseen st path))
  /\ (forall x, In x (snd (addUnseen st path))
                <-> In x (snd st) \/ x = path).
Proof.
  intros Hs Hn. unfold addUnseen.
  destruct (existsb (String.eqb path) (fst st)) eqn:E.
  - apply existsb_name in E.
    split; [exact Hs|]. split; [exact Hn|].
    intros x. split; [now left|].
    intros [H| ->]; [exact H | now apply Hs].
  - assert (Hnot : ~ In path (snd st)).
    { intros H. apply Hs in H. apply existsb_name in H. congruence. }
    cbn [fst snd]. split; [|split].
    + intros x. rewrite in_app_iff. simpl. rewrite (Hs x).
      split; [intros [<-|H] | intros [H|[<-|[]]]]; auto.
    + apply NoDup_app; [exact Hn | constructor; [intros [] | constructor] |].
      intros x Hx [<-|[]]. contradiction.
    + intros x. rewrite in_app_iff. simpl.
      split; [intros [H|[<-|[]]] | intros [H| ->]]; auto.
Qed.

Lemma addUnseen_eq st path :
  addUnseen st path
  = if existsb (String.eqb path) (fst st) then st
    else (path :: fst st, snd st ++ [path]).
Proof. reflexivity. Qed.

Lemma fold_addUnseen l :
  forall st,
    (forall x, In x (fst st) <-> In x (snd st)) ->
    NoDup (snd st) ->
    (forall x, In x (fst (fold_left addUnseen l st))
               <-> In x (snd (fold_left addUnseen l st)))
    /\ NoDup (snd (fold_left addUnseen l st))
    /\ (forall x, In x (snd (fold_left addUnseen l st))
                  <-> In x (snd st) \/ In x l)
    /\ snd (fold_left addUnseen l st)
       = snd st ++ filter (fun x => negb (existsb (String.eqb x) (fst st)))
                     (snd (fold_left addUnseen l ([], []))).
Proof.
  induction l as [|a l IH] using rev_ind; intros st Hs Hn.
  - simpl. split; [exact Hs|]. split; [exact Hn|]. split.
    + intros x. split; [now left | intros [H|[]]; exact H].
    + now rewrite app_nil_r.
  - rewrite !fold_left_app. cbn [fold_left].
    destruct (IH st Hs Hn) as (I1 & I2 & I3 & I4).
    destruct (IH ([], []) ltac:(intros x; reflexivity) ltac:(constructor))
      as (J1 & J2 & J3 & _).
    destruct (addUnseen_spec (fold_left addUnseen l st) a I1 I2)
      as (A1 & A2 & A3).
    split; [exact A1|]. split; [exact A2|]. split.
    + intros x. rewrite A3, I3, in_app_iff. simpl.
      split; [intros [[H|H]| ->] | intros [H|[H|[<-|[]]]]]; auto.
    + rewrite !addUnseen_eq.
      destruct (existsb (String.eqb a) (fst (fold_left addUnseen l st)))
        eqn:E1;
        destruct (existsb (String.eqb a) (fst (fold_left addUnseen l ([], []))))
          eqn:E2; cbn [fst snd].
      * exact I4.
      * rewrite filter_app. cbn [filter].
        replace (negb (existsb (String.eqb a) (fst st))) with false.
        -- now rewrite app_nil_r.
        -- symmetry. apply negb_false_iff. apply existsb_name.
           apply existsb_name in E1. apply I1, I3 in E1.
           destruct E1 as [E1|E1]; [now apply Hs|].
           exfalso.
           assert (In a (fst (fold_left addUnseen l ([], [])))).
           { apply J1, J3. now right. }
           apply existsb_name in H. congruence.
      * exfalso.
        apply existsb_name in E2. apply J1, J3 in E2.
        destruct E2 as [[]|E2].
        assert (In a (fst (fold_left addUnseen l st))).
        { apply I1, I3. now right. }
        apply existsb_name in H. congruence.
      * rewrite filter_app. cbn [filter].
        replace (negb (existsb (String.eqb a) (fst st))) with true.
        -- now rewrite I4, <- app_assoc.
        -- symmetry. apply negb_true_iff.
           destruct (existsb (String.eqb a) (fst st)) eqn:E3; [|reflexivity].
           exfalso. apply existsb_name in E3. apply Hs in E3.
           assert (In a (fst (fold_left addUnseen l st))).
           { apply I1, I3. now left. }
           apply existsb_name in H. congruence.
Qed.

(** X13. [combineFiles] returns a list without repeats that holds
    exactly the paths of its two arguments. *)
Theorem combineFiles_no_repeats historyFiles currentDirFiles :
  NoDup (combineFiles historyFiles currentDirFiles)
  /\ forall x, In x (combineFiles historyFiles currentDirFiles)
               <-> In x historyFiles \/ In x currentDirFiles.
Proof.
  unfold combineFiles.
  destruct (fold_addUnseen historyFiles ([], [])
              ltac:(intros x; reflexivity) ltac:(constructor))
    as (H1 & H2 & H3 & _).
  destruct (fold_addUnseen currentDirFiles
              (fold_left addUnseen historyFiles ([], [])) H1 H2)
    as (_ & C2 & C3 & _).
  split; [exact C2|].
  intros x. rewrite C3, H3. simpl. tauto.
Qed.

(** X14. [combineFiles] lists the history first: the result is the
    history without its repeats, followed by the current-directory files
    that are not in the history, each once, in their order; a history
    without repeats is kept as it is. *)
Theorem combineFiles_history_first historyFiles currentDirFiles :
  combineFiles historyFiles currentDirFiles
  = combineFiles historyFiles []
    ++ filter (fun x => negb (existsb (String.eqb x) historyFiles))
         (combineFiles [] currentDirFiles)
  /\ (NoDup historyFiles -> combineFiles historyFiles [] = historyFiles).
Proof.
  unfold combineFiles. cbn [fold_left].
  destruct (fold_addUnseen historyFiles ([], [])
              ltac:(intros x; reflexivity) ltac:(constructor))
    as (H1 & H2 & H3 & _).
  destruct (fold_addUnseen currentDirFiles
              (fold_left addUnseen historyFiles ([], [])) H1 H2)
    as (_ & _ & _ & C4).
  split.
  - rewrite C4. f_equal. apply filter_ext. intros x. f_equal.
    destruct (existsb (String.eqb x) historyFiles) eqn:E.
    + apply existsb_name. apply existsb_name in E.
      apply H1, H3. now right.
    + destruct (existsb (String.eqb x)
                  (fst (fold_left addUnseen historyFiles ([], [])))) eqn:E';
        [|reflexivity].
      apply existsb_name in E'. apply H1, H3 in E'. destruct E' as [[]|E'].
      apply existsb_name in E'. congruence.
  - clear. induction historyFiles as [|a l IH] using rev_ind; intros N;
      [reflexivity|].
    rewrite fold_left_app. cbn [fold_left].
    apply NoDup_remove in N as [N Hn]. rewrite app_nil_r in N, Hn.
    destruct (fold_addUnseen l ([], [])
                ltac:(intros x; reflexivity) ltac:(constructor))
      as (H1 & _ & H3 & _).
    rewrite addUnseen_eq.
    destruct (existsb (String.eqb a) (fst (fold_left addUnseen l ([], []))))
      eqn:E.
    + exfalso. apply existsb_name in E. apply H1, H3 in E.
      destruct E as [[]|E]. contradiction.
    + cbn [snd]. now rewrite (IH N).
Qed.

(** ** [resolveSelectedPath] *)

Lemma Clean_isRooted p :
  Str.isRooted p = true -> Str.isRooted (Str.Clean p) = true.
Proof.
  intros H. unfold Str.Clean.
  destruct p as [|c r]; [discriminate|].
  cbn [String.eqb]. rewrite H. reflexivity.
Qed.

Lemma Join_isRooted a b :
  Str.isRooted a = true -> Str.isRooted (Str.Join a b) = true.
Proof.
  intros H. unfold Str.Join, Str.JoinList.
  destruct a as [|c r]; [discriminate|].
  cbn [String.eqb]. apply Clean_isRooted. exact H.
Qed.

(** X15. With an absolute base directory the resolved path of a
    non-empty selection is absolute, and an absolute selection is
    returned as it is. *)
Theorem resolveSelectedPath_absolute selectedPath baseDir :
  selectedPath <> "" ->
  IsAbs baseDir = true ->
  IsAbs (resolveSelectedPath selectedPath baseDir) = true
  /\ (IsAbs selectedPath = true ->
      resolveSelectedPath selectedPath baseDir = selectedPath).
Proof.
  intros Hne Hb. unfold resolveSelectedPath.
  apply String.eqb_neq in Hne. rewrite Hne.
  destruct (IsAbs selectedPath) eqn:Ea; [split; [exact Ea | reflexivity]|].
  split; [|discriminate].
  cbv zeta. unfold IsAbs in *.
  pose proof (Clean_isRooted baseDir Hb) as Hc.
  assert (N : String.eqb (Str.Clean baseDir) "" = false).
  { destruct (Str.Clean baseDir); [discriminate | reflexivity]. }
  rewrite N. cbn [negb andb].
  destruct (HasPrefix (Str.Clean selectedPath)
              (Str.TrimPrefix (Str.Clean baseDir) "/")).
  - reflexivity.
  - now apply Join_isRooted.
Qed.

Lemma resolveSelectedPath_absolute_witness :
  IsAbs (resolveSelectedPath "src/main.go" "/home/u") = true
  /\ (IsAbs "src/main.go" = true ->
      resolveSelectedPath "src/main.go" "/home/u" = "src/main.go").
Proof.
  apply (resolveSelectedPath_absolute "src/main.go" "/home/u").
  - discriminate.
  - reflexivity.
Defined.

Lemma Clean_rooted_plain segs :
  Forall (fun s => plainSeg s = true) segs ->
  Str.Clean ("/" ++ Str.JoinSep segs) = ("/" ++ Str.JoinSep segs)%string.
Proof.
  intros H. destruct segs as [|s r]; [reflexivity|].
  unfold Str.Clean.
  change ("/" ++ Str.JoinSep (s :: r))%string
    with (String "/"%char (Str.JoinSep (s :: r))).
  cbn [String.eqb Str.isRooted]. cbn [Str.Split].
  replace (Ascii.eqb "/" Str.Separator) with true by reflexivity.
  rewrite Split_JoinSep; [| discriminate |].
  2:{ eapply Forall_impl; [|exact H]. intros a Ha.
      now apply plainSeg_spec in Ha. }
  replace (fold_left (Str.cleanStep true) ("" :: s :: r) [])
    with (fold_left (Str.cleanStep true) (s :: r) []) by reflexivity.
  rewrite fold_cleanStep_plain by assumption.
  now rewrite app_nil_r, rev_involutive.
Qed.

Lemma stripPrefix_app p t : Str.stripPrefix p (p ++ t) = Some t.
Proof.
  induction p as [|c p IH]; simpl; [reflexivity|].
  now rewrite Ascii.eqb_refl.
Qed.

Lemma JoinSep_nonempty s r :
  plainSeg s = true -> Str.JoinSep (s :: r) <> "".
Proof.
  intros Hs. destruct (JoinSep_plain_head s r Hs) as [t ->].
  apply append_nonempty. now apply plainSeg_spec in Hs.
Qed.

(** X16. On clean inputs, an absolute base directory and a relative
    selection made of plain segments: a selection whose text begins with
    the base directory's text without its leading separator gets the
    separator put in front; any other is joined to the base directory.
    So the path of a file below the base directory that lost its leading
    separator is restored. *)
Theorem resolveSelectedPath_clean bsegs ssegs :
  ssegs <> [] ->
  Forall (fun s => plainSeg s = true) bsegs ->
  Forall (fun s => plainSeg s = true) ssegs ->
  resolveSelectedPath (Str.JoinSep ssegs) ("/" ++ Str.JoinSep bsegs)
  = (if HasPrefix (Str.JoinSep ssegs) (Str.JoinSep bsegs)
     then "/" ++ Str.JoinSep ssegs
     else "/" ++ Str.JoinSep (bsegs ++ ssegs))%string
  /\ resolveSelectedPath (Str.JoinSep (bsegs ++ ssegs))
                         ("/" ++ Str.JoinSep bsegs)
     = ("/" ++ Str.JoinSep (bsegs ++ ssegs))%string.
Proof.
  intros Hne Hb Hs.
  assert (G : forall segs,
             segs <> [] -> Forall (fun s => plainSeg s = true) segs ->
             resolveSelectedPath (Str.JoinSep segs) ("/" ++ Str.JoinSep bsegs)
             = (if HasPrefix (Str.JoinSep segs) (Str.JoinSep bsegs)
                then "/" ++ Str.JoinSep segs
                else "/" ++ Str.JoinSep (bsegs ++ segs))%string).
  { intros segs Hn Hp. unfold resolveSelectedPath.
    destruct segs as [|s r]; [congruence|].
    inversion Hp as [|? ? Hs0 Hr0]; subst.
    pose proof (JoinSep_nonempty s r Hs0) as N.
    apply String.eqb_neq in N. rewrite N.
    assert (R : IsAbs (Str.JoinSep (s :: r)) = false).
    { unfold IsAbs. destruct (JoinSep_plain_head s r Hs0) as [t ->].
      now apply plain_not_rooted. }
    rewrite R. cbv zeta.
    rewrite Clean_rooted_plain by assumption.
    rewrite Clean_plain by (discriminate || assumption).
    change (String.eqb ("/" ++ Str.JoinSep bsegs)%string "") with false.
    cbn [negb andb].
    change (Str.TrimPrefix ("/" ++ Str.JoinSep bsegs)%string "/")
      with (Str.JoinSep bsegs).
    destruct (HasPrefix (Str.JoinSep (s :: r)) (Str.JoinSep bsegs)) eqn:E;
      [reflexivity|].
    destruct bsegs as [|b bs]; [discriminate E|].
    unfold Str.Join, Str.JoinList.
    change (String.eqb ("/" ++ Str.JoinSep (b :: bs))%string "") with false.
    cbv iota.
    change (Str.JoinSep [("/" ++ Str.JoinSep (b :: bs))%string;
                         Str.JoinSep (s :: r)])
      with ("/" ++ (Str.JoinSep (b :: bs) ++ "/" ++ Str.JoinSep (s :: r)))%string.
    rewrite <- JoinSep_app by discriminate.
    apply Clean_rooted_plain. apply Forall_app. split; assumption. }
  split; [now apply G|].
  rewrite G.
  - replace (HasPrefix (Str.JoinSep (bsegs ++ ssegs)) (Str.JoinSep bsegs))
      with true; [reflexivity|].
    symmetry. unfold HasPrefix.
    destruct bsegs as [|b bs]; [reflexivity|].
    rewrite JoinSep_app by (discriminate || assumption).
    now rewrite stripPrefix_app.
  - destruct bsegs; [exact Hne | discriminate].
  - apply Forall_app. split; assumption.
Qed.

Lemma resolveSelectedPath_clean_witness :
  resolveSelectedPath (Str.JoinSep ["src"; "main.go"])
                      ("/" ++ Str.JoinSep ["home"; "u"])
  = (if HasPrefix (Str.JoinSep ["src"; "main.go"]) (Str.JoinSep ["home"; "u"])
     then "/" ++ Str.JoinSep ["src"; "main.go"]
     else "/" ++ Str.JoinSep (["home"; "u"] ++ ["src"; "main.go"]))%string
  /\ resolveSelectedPath (Str.JoinSep (["home"; "u"] ++ ["src"; "main.go"]))
                         ("/" ++ Str.JoinSep ["home"; "u"])
     = ("/" ++ Str.JoinSep (["home"; "u"] ++ ["src"; "main.go"]))%string.
Proof.
  apply (resolveSelectedPath_clean ["home"; "u"] ["src"; "main.go"]).
  - discriminate.
  - repeat constructor.
  - repeat constructor.
Defined.

(** ** The tree inside the host *)





(** ** The frame *)




(** ** Where the layout puts the selection *)

Lemma layoutChildren_nth_exact sel expanded vis q d cs :
  forall i0 st j c,
    nth_error cs j = Some c ->
    nth_error (fst (layoutChildren sel expanded vis q d i0 cs st)) j
    = Some (if existsb (pos_eqb ((i0 + j)%nat :: q)) vis
            then fst (layoutAssign sel expanded ((i0 + j)%nat :: q) (d + 1)
                        (snd (layoutChildren sel expanded vis q d i0
                                (firstn j cs) st)) c)
            else c).
Proof.
  induction cs as [|c0 r IH]; intros i0 st j c H.
  - destruct j; discriminate.
  - rewrite layoutChildren_cons. cbv zeta. cbn [fst].
    destruct j as [|j]; cbn [nth_error] in *.
    + inversion H; subst. rewrite Nat.add_0_r. cbn [firstn layoutChildren snd].
      now destruct (existsb (pos_eqb (i0 :: q)) vis).
    + rewrite (IH (S i0) _ j c H).
      replace (S i0 + j)%nat with (i0 + S j)%nat by lia.
      cbn [firstn]. rewrite (layoutChildren_cons _ _ _ _ _ _ c0 (firstn j r)).
      cbv zeta. cbn [snd]. reflexivity.
Qed.

Lemma layoutChildren_skip sel expanded vis q d cs :
  forall i0 st,
    (forall k, (k < List.length cs)%nat ->
               existsb (pos_eqb ((i0 + k)%nat :: q)) vis = false) ->
    layoutChildren sel expanded vis q d i0 cs st = (cs, st).
Proof.
  induction cs as [|c0 r IH]; intros i0 st H; [reflexivity|].
  rewrite layoutChildren_cons. cbv zeta.
  pose proof (H 0%nat ltac:(simpl; lia)) as H0. rewrite Nat.add_0_r in H0.
  rewrite H0. cbn [fst snd].
  rewrite IH; [reflexivity|].
  intros k Hk. replace (S i0 + k)%nat with (i0 + S k)%nat by lia.
  apply H. simpl. lia.
Qed.

Lemma layoutChildren_all_counter sel expanded vis q d cs :
  forall i0 st,
    (forall k, (k < List.length cs)%nat ->
               existsb (pos_eqb ((i0 + k)%nat :: q)) vis = true) ->
    yCounters (snd (layoutChildren sel expanded vis q d i0 cs st)) (d + 1)
    = (yCounters st (d + 1) + Z.of_nat (List.length cs))%Z.
Proof.
  induction cs as [|c0 r IH]; intros i0 st H; [simpl; lia|].
  rewrite layoutChildren_cons. cbv zeta.
  pose proof (H 0%nat ltac:(simpl; lia)) as H0. rewrite Nat.add_0_r in H0.
  rewrite H0. cbn [snd].
  rewrite IH.
  - destruct (layoutAssign_row sel expanded c0 (i0 :: q) (d + 1)%Z st)
      as (_ & _ & R).
    rewrite R. cbn [List.length]. lia.
  - intros k Hk. replace (S i0 + k)%nat with (i0 + S k)%nat by lia.
    apply H. simpl. lia.
Qed.

Lemma existsb_childPtrs q n j :
  (j < List.length (Children n))%nat ->
  existsb (pos_eqb (j :: q)) (childPtrs q n) = true.
Proof.
  intros H. apply existsb_exists. exists (j :: q).
  split; [|apply pos_eqb_refl].
  unfold childPtrs. apply in_map_iff. exists j. split; [reflexivity|].
  apply in_seq. lia.
Qed.

(** The visible children of a node above the selection. *)
Lemma visibleChildren_on_path s q j t node :
  s = rev (j :: t) ++ q ->
  visibleChildren (Some s) ([] :: markUpwards s) q node
  = match t with
    | [] => childPtrs q node
    | _ :: _ => [j :: q]
    end.
Proof.
  intros Hs. unfold visibleChildren.
  assert (Ex : isExpanded ([] :: markUpwards s) q = true).
  { apply isExpanded_In. right. apply markUpwards_spec.
    exists (rev (j :: t)). exact Hs. }
  rewrite Ex. cbn [negb].
  assert (Nq : pos_eqb q s = false).
  { apply pos_eqb_false. intros E. rewrite Hs in E.
    symmetry in E. revert E. apply app_length_neq.
    cbn [rev]. now destruct (rev t). }
  rewrite Nq. cbn [orb].
  destruct t as [|j2 t2].
  - cbn [rev app] in Hs. subst s. cbn [parentOf]. now rewrite pos_eqb_refl.
  - assert (Hs' : s = rev (j2 :: t2) ++ j :: q).
    { rewrite Hs. cbn [rev]. now rewrite <- !app_assoc. }
    destruct (rev (j2 :: t2)) as [|a l] eqn:R.
    { apply (f_equal (@List.length nat)) in R. rewrite length_rev in R.
      discriminate. }
    rewrite Hs'. cbn [app parentOf].
    replace (pos_eqb q (l ++ j :: q)) with false.
    2:{ symmetry. apply pos_eqb_false. intros E. symmetry in E. revert E.
        replace (l ++ j :: q) with ((l ++ [j]) ++ q)
          by now rewrite <- app_assoc.
        apply app_length_neq. now destruct l. }
    change (a :: l ++ j :: q) with ((a :: l) ++ j :: q).
    now rewrite childOnPath_spec.
Qed.

Lemma layout_along s t :
  forall q d st node n,
    s = rev t ++ q ->
    descend node t = Some n ->
    (forall k, (d < k)%Z -> yCounters st k = 0%Z) ->
    exists n',
      descend (fst (layoutAssign (Some s) ([] :: markUpwards s) q d st node)) t
      = Some n'
      /\ X n' = (d + Z.of_nat (List.length t))%Z
      /\ Y n' = match t with
                | [] => yCounters st d
                | _ :: _ => Z.of_nat (last t 0%nat)
                end.
Proof.
  induction t as [|j t IH]; intros q d st node n Hs Hd Hz.
  - cbn [descend].
    destruct (layoutAssign_row (Some s) ([] :: markUpwards s) node q d st)
      as (Ry & Rx & _).
    eexists. split; [reflexivity|]. cbn [List.length]. split; [lia|exact Ry].
  - cbn [descend] in Hd.
    destruct (nth_error (Children node) j) as [c|] eqn:Hc; [|discriminate].
    assert (Hj : (j < List.length (Children node))%nat).
    { apply nth_error_Some. congruence. }
    rewrite layoutAssign_fst. cbn [descend Children].
    rewrite (layoutChildren_nth_exact _ _ _ _ _ _ _ _ _ _ Hc).
    cbn [Nat.add].
    rewrite (visibleChildren_on_path s q j t node Hs).
    set (st' := afterOwnRow (Some s) q d st node).
    assert (Hst' : forall k, (d < k)%Z -> yCounters st' k = 0%Z).
    { intros k Hk. unfold st', afterOwnRow, upd. cbn [yCounters].
      replace (k =? d)%Z with false by (symmetry; apply Z.eqb_neq; lia).
      now apply Hz. }
    destruct t as [|j2 t2].
    + rewrite (existsb_childPtrs q node j Hj).
      cbn [descend] in Hd. inversion Hd; subst c. cbn [descend].
      destruct (layoutAssign_row (Some s) ([] :: markUpwards s) n (j :: q)
                  (d + 1)%Z
                  (snd (layoutChildren (Some s) ([] :: markUpwards s)
                          (childPtrs q node) q d 0
                          (firstn j (Children node)) st')))
        as (Ry & Rx & _).
      eexists. split; [reflexivity|]. cbn [List.length last].
      split; [lia|]. rewrite Ry.
      rewrite layoutChildren_all_counter.
      * rewrite length_firstn, Hst' by lia. lia.
      * intros k Hk. rewrite length_firstn in Hk. cbn [Nat.add].
        apply existsb_childPtrs. lia.
    + cbn [existsb]. rewrite pos_eqb_refl. cbn [orb].
      rewrite layoutChildren_skip.
      2:{ intros k Hk. rewrite length_firstn in Hk. cbn [Nat.add existsb].
          rewrite orb_false_r. apply pos_eqb_false. intros E.
          inversion E. lia. }
      cbn [snd].
      destruct (IH (j :: q) (d + 1)%Z st' c n) as (n' & Dn & Xn & Yn).
      * rewrite Hs. cbn [rev]. now rewrite <- !app_assoc.
      * exact Hd.
      * intros k Hk. apply Hst'. lia.
      * exists n'. split; [exact Dn|]. split.
        -- rewrite Xn. cbn [List.length]. lia.
        -- rewrite Yn. reflexivity.
Qed.

Lemma layoutRoot_places_selection m s n :
  SelectedNode m = Some s ->
  nodeAt (Root m) s = Some n ->
  exists n',
    nodeAt (Root (layoutRoot m (getExpandedMap m))) s = Some n'
    /\ X n' = Z.of_nat (List.length s)
    /\ Y n' = match s with
              | [] => 0%Z
              | i :: _ => Z.of_nat i
              end.
Proof.
  intros Hs Hn. rewrite layoutRoot_eq. cbv zeta. cbn [Root].
  unfold getExpandedMap. rewrite Hs. unfold nodeAt in *.
  destruct (layout_along s (rev s) [] 0%Z
              (mkLayoutState (fun _ => 0%Z) (fun _ => 0%Z)) (Root m) n)
    as (n' & Dn & Xn & Yn).
  - now rewrite rev_involutive, app_nil_r.
  - exact Hn.
  - reflexivity.
  - exists n'. split; [exact Dn|]. split.
    + rewrite Xn, length_rev. lia.
    + rewrite Yn. destruct s as [|i p]; [reflexivity|].
      cbn [rev]. rewrite last_last.
      destruct (rev p ++ [i]) eqn:E; [|reflexivity].
      apply app_eq_nil in E as [_ E]. discriminate.
Qed.

(** X19. After any key, the selected node lies in the column of its
    depth and on the row of its index among its siblings: [Update] lays
    the selection out afresh, whatever was selected before. *)
Theorem update_places_selection m k s n :
  SelectedNode (Update m k) = Some s ->
  nodeAt (Root (Update m k)) s = Some n ->
  X n = Z.of_nat (List.length s)
  /\ Y n = match s with
           | [] => 0%Z
           | i :: _ => Z.of_nat i
           end.
Proof.
  unfold Update.
  set (m0 := match k with
             | KeyUp => moveSelection m (-1)
             | KeyDown => moveSelection m 1
             | KeyRight => enterDirectory m
             | KeyLeft => leaveDirectory m
             | KeyOther => m
             end).
  destruct (SelectedNode m0) as [s0|] eqn:E0.
  2:{ intros Hs. rewrite E0 in Hs. discriminate. }
  assert (Hsel : SelectedNode (layoutRoot m0 (getExpandedMap m0)) = Some s0)
    by (rewrite layoutRoot_eq; exact E0).
  assert (G : nodeAt (Root (layoutRoot m0 (getExpandedMap m0))) s = Some n ->
              s = s0 ->
              X n = Z.of_nat (List.length s)
              /\ Y n = match s with
                       | [] => 0%Z
                       | i :: _ => Z.of_nat i
                       end).
  { intros Hn ->.
    destruct (nodeAt (Root m0) s0) as [n0|] eqn:En0.
    - destruct (layoutRoot_places_selection m0 s0 n0 E0 En0)
        as (n' & Dn & Xn & Yn).
      rewrite Dn in Hn. inversion Hn; subst n'. split; assumption.
    - exfalso. rewrite layoutRoot_eq in Hn. cbv zeta in Hn. cbn [Root] in Hn.
      unfold nodeAt in *.
      pose proof (descend_layout (SelectedNode m0) (getExpandedMap m0)
                    (rev s0) (Root m0) [] 0%Z
                    (mkLayoutState (fun _ => 0%Z) (fun _ => 0%Z))
                    ltac:(lia)) as D.
      rewrite En0 in D. rewrite D in Hn. discriminate. }
  destruct (nodeAt (Root (layoutRoot m0 (getExpandedMap m0))) s0)
    as [selected|] eqn:En.
  - cbn [SelectedNode Root]. intros Hs Hn. apply G; [exact Hn|].
    rewrite Hsel in Hs. now inversion Hs.
  - intros Hs Hn. apply G; [exact Hn|].
    rewrite Hsel in Hs. now inversion Hs.
Qed.

Lemma update_places_selection_witness :
  X (mkNode "go.sum" "go.sum" [] true false 1 3)
  = Z.of_nat (List.length [3%nat])
  /\ Y (mkNode "go.sum" "go.sum" [] true false 1 3) = Z.of_nat 3.
Proof.
  apply (update_places_selection scrolledOnce KeyDown [3%nat]
           (mkNode "go.sum" "go.sum" [] true false 1 3)).
  - vm_compute. reflexivity.
  - vm_compute. reflexivity.
Defined.

(** ** History flags after the build *)

Lemma insertParts_flagged historyPaths path parts :
  forall walked t,
    AllNodes (fun n => historyPaths (Path n) = true -> IsHistory n = true) t ->
    AllNodes (fun n => historyPaths (Path n) = true -> IsHistory n = true)
             (insertParts historyPaths path parts walked t).
Proof.
  induction parts as [|x rest IH]; intros walked t H; simpl.
  - destruct (walked && historyPaths path); [|assumption].
    constructor; [reflexivity | apply (AllNodes_children H)].
  - destruct (findChild x (Children t)) as [[i c]|] eqn:F.
    + constructor; [apply (AllNodes_here H)|]. cbn [setChildren Children].
      apply Forall_replaceAt; [apply (AllNodes_children H)|].
      apply IH.
      apply findChild_Some in F as [En _]. apply nth_error_In in En.
      pose proof (AllNodes_children H) as Hc.
      rewrite Forall_forall in Hc. specialize (Hc _ En).
      destruct (historyPaths path || historyPaths (Path c));
        constructor; simpl;
        try reflexivity; try apply (AllNodes_here Hc);
        apply (AllNodes_children Hc).
    + constructor; [apply (AllNodes_here H)|]. cbn [setChildren Children].
      apply Forall_app. split; [apply (AllNodes_children H)|].
      constructor; [|constructor]. apply IH.
      constructor; simpl; [|constructor].
      intros ->. apply orb_true_r.
Qed.

Lemma insertParts_children_flagged historyPaths path parts walked t :
  Forall (AllNodes (fun n => historyPaths (Path n) = true ->
                             IsHistory n = true)) (Children t) ->
  Forall (AllNodes (fun n => historyPaths (Path n) = true ->
                             IsHistory n = true))
         (Children (insertParts historyPaths path parts walked t)).
Proof.
  intros H. destruct parts as [|x rest]; simpl.
  - now destruct (walked && historyPaths path).
  - destruct (findChild x (Children t)) as [[i c]|] eqn:F;
      cbn [setChildren Children].
    + apply Forall_replaceAt; [exact H|].
      apply insertParts_flagged.
      apply findChild_Some in F as [En _]. apply nth_error_In in En.
      rewrite Forall_forall in H. specialize (H _ En).
      destruct (historyPaths path || historyPaths (Path c));
        constructor; simpl;
        try reflexivity; try apply (AllNodes_here H);
        apply (AllNodes_children H).
    + apply Forall_app. split; [exact H|].
      constructor; [|constructor]. apply insertParts_flagged.
      constructor; simpl; [|constructor].
      intros ->. apply orb_true_r.
Qed.

Lemma Present_flag historyPaths path parts :
  forall walked t route c,
    Present historyPaths path parts walked t ->
    historyPaths path = true ->
    route <> [] ->
    isPrefix route parts = true ->
    follow t route = Some c ->
    IsHistory c = true.
Proof.
  induction parts as [|x rest IH]; intros walked t route c P Hh Hr Hp Hf.
  - destruct route; [congruence | discriminate].
  - destruct route as [|y r]; [congruence|]. cbn [isPrefix] in Hp.
    apply andb_true_iff in Hp as [Exy Hp].
    apply String.eqb_eq in Exy. subst y.
    destruct P as (i & c0 & F & _ & Hc0 & P0).
    cbn [follow] in Hf. rewrite F in Hf.
    destruct r as [|z r'].
    + cbn [follow] in Hf. inversion Hf; subst c0.
      apply Hc0. now rewrite Hh.
    + apply (IH true c0 (z :: r') c P0 Hh); [discriminate | exact Hp | exact Hf].
Qed.

(** X20. After the build, every node but the root whose own path is in
    the history set carries the history flag, and so does every node on
    the way of an input path that is in the history set. *)
Theorem buildTree_history_flags paths historyPaths :
  Forall (AllNodes (fun n => historyPaths (Path n) = true ->
                             IsHistory n = true))
         (Children (buildTree paths historyPaths))
  /\ forall p route c,
       In p paths -> historyPaths p = true ->
       route <> [] -> isPrefix route (Str.Split p) = true ->
       follow (buildTree paths historyPaths) route = Some c ->
       IsHistory c = true.
Proof.
  split.
  - unfold buildTree.
    assert (G : forall t,
               Forall (AllNodes (fun n => historyPaths (Path n) = true ->
                                          IsHistory n = true)) (Children t) ->
               Forall (AllNodes (fun n => historyPaths (Path n) = true ->
                                          IsHistory n = true))
                      (Children (fold_left (insertPath historyPaths) paths t))).
    { induction paths as [|p r IH]; intros t H; simpl; [assumption|].
      apply IH. now apply insertParts_children_flagged. }
    apply G. constructor.
  - intros p route c Hin Hh Hr Hp Hf.
    apply (Present_flag historyPaths p (Str.Split p) false
             (buildTree paths historyPaths) route c); try assumption.
    now apply Present_build.
Qed.

(** ** The paths of the nodes *)

Lemma descend_follow r :
  forall t c,
    AllNodes (fun n => NoDup (map Name (Children n))) t ->
    descend t r = Some c ->
    exists route, List.length route = List.length r
                  /\ follow t route = Some c.
Proof.
  induction r as [|i r IH]; intros t c N H; simpl in H.
  - exists []. split; [reflexivity | exact H].
  - destruct (nth_error (Children t) i) as [d|] eqn:Hi; [|discriminate].
    pose proof (Forall_nth_error _ _ _ _ (AllNodes_children N) Hi) as Nd.
    destruct (IH d c Nd H) as (route & Hl & Hf).
    exists (Name d :: route). split; [simpl; now rewrite Hl|].
    simpl. now rewrite (findChild_nodup _ i d (AllNodes_here N) Hi).
Qed.

Lemma AllNodes_of_descend (P : Node -> Prop) t :
  (forall r c, descend t r = Some c -> P c) -> AllNodes P t.
Proof.
  induction t as [t IH] using Node_ind'. intros H.
  constructor; [apply (H []); reflexivity|].
  rewrite Forall_forall in IH. apply Forall_forall. intros d Hd.
  apply IH; [exact Hd|]. intros r c Hc.
  destruct (In_nth_error _ _ Hd) as [i Hi].
  apply (H (i :: r)). simpl. now rewrite Hi.
Qed.

Lemma buildTree_node_path paths historyPaths r c :
  Forall (fun p => cleanRelative p = true) paths ->
  descend (buildTree paths historyPaths) r = Some c ->
  r <> [] ->
  exists p route rest,
    In p paths /\ Str.Split p = route ++ rest /\ route <> []
    /\ Path c = Str.JoinSep route.
Proof.
  intros Hc Hd Hr.
  destruct (descend_follow r _ c (buildTree_nodup paths historyPaths) Hd)
    as (route & Hl & Hf).
  assert (Hne : route <> []).
  { intros ->. destruct r; [congruence | discriminate]. }
  destruct (exists_last Hne) as (r' & s & E). subst route.
  destruct (follow_snoc _ _ _ _ Hf) as (parent & Hfp & Hs).
  pose proof (buildTree_childNames paths historyPaths r') as N1.
  unfold childNamesAt in N1. rewrite Hfp in N1. rewrite N1 in Hs.
  destruct (firstOccurrences_In _ _ _ Hs) as (p & Hpin & Hn).
  destruct (nextAfter_Some _ _ _ Hn) as [rest Hsplit].
  exists p, (r' ++ [s]), rest.
  split; [exact Hpin|]. split; [now rewrite <- app_assoc|].
  split; [exact Hne|].
  pose proof (PathsFrom_follow _ _ _ _
                (PathsFrom_build paths historyPaths Hc) Hf) as Pc.
  cbn [app] in Pc. apply PathsFrom_path in Pc. rewrite Pc.
  unfold routePath. destruct (r' ++ [s]); [congruence | reflexivity].
Qed.

Lemma compressFuel_paths (Q : string -> Prop) fuel :
  forall n, AllNodes (fun n => Q (Path n)) n ->
            AllNodes (fun n => Q (Path n)) (compressFuel fuel n).
Proof.
  induction fuel as [|f IH]; intros n H; simpl; [assumption|].
  destruct (negb (IsDir n) || (List.length (Children n) =? 0)%nat);
    [assumption|].
  assert (Hm : Forall (AllNodes (fun n => Q (Path n)))
                 (map (compressFuel f) (Children n))).
  { apply Forall_map. eapply Forall_impl; [|apply (AllNodes_children H)].
    intros c Hc. now apply IH. }
  assert (Hn : AllNodes (fun n => Q (Path n))
                 (setChildren n (map (compressFuel f) (Children n))))
    by (constructor; [apply (AllNodes_here H) | exact Hm]).
  destruct (String.eqb (Name n) "ROOT"); [exact Hn|].
  destruct (map (compressFuel f) (Children n)) as [|c [|d r]] eqn:E;
    try exact Hn.
  destruct ((18 <? Str.len (Name n) + 1 + Str.len (Name c))%Z
            && (4 <? countLeaves c)%Z); [exact Hn|].
  apply IH. inversion Hm as [|? ? Hc _]; subst.
  constructor; simpl; [apply (AllNodes_here Hc) | apply (AllNodes_children Hc)].
Qed.

(** X21. For clean relative input paths, every node of the tree
    [NewTreeModel] makes carries the root's path ["."] or the path made of
    the leading segments of some input path: no node names a place that
    is foreign to the input. *)
Theorem node_paths_come_from_input paths width height historyPaths :
  Forall (fun p => cleanRelative p = true) paths ->
  AllNodes (fun n =>
              Path n = "."
              \/ exists p route rest,
                   In p paths /\ Str.Split p = route ++ rest
                   /\ route <> [] /\ Path n = Str.JoinSep route)
           (Root (NewTreeModel paths width height historyPaths)).
Proof.
  intros Hc. unfold NewTreeModel. cbv zeta. cbn [Root]. unfold compressTree.
  apply (compressFuel_paths
           (fun path =>
              path = "."
              \/ exists p route rest,
                   In p paths /\ Str.Split p = route ++ rest
                   /\ route <> [] /\ path = Str.JoinSep route)).
  apply AllNodes_of_descend. intros r c Hd.
  destruct r as [|i r].
  - left. simpl in Hd. inversion Hd; subst.
    apply (buildTree_root paths historyPaths).
  - right. apply (buildTree_node_path paths historyPaths (i :: r) c Hc Hd).
    discriminate.
Qed.

Lemma node_paths_come_from_input_witness :
  AllNodes (fun n =>
              Path n = "."
              \/ exists p route rest,
                   In p deepPaths /\ Str.Split p = route ++ rest
                   /\ route <> [] /\ Path n = Str.JoinSep route)
           (Root (NewTreeModel deepPaths 80 20 noHistory)).
Proof.
  apply (node_paths_come_from_input deepPaths 80 20 noHistory).
  repeat constructor.
Defined.

(** ** What compression leaves behind *)

Lemma compressTree_dirs n :
  AllNodes (fun n => IsDir n = true) n ->
  AllNodes (fun n => IsDir n = true) (compressTree n).
Proof.
  unfold compressTree. generalize (size n) as fuel. intros fuel. revert n.
  induction fuel as [|f IH]; intros n H; simpl; [assumption|].
  destruct (negb (IsDir n) || (List.length (Children n) =? 0)%nat);
    [assumption|].
  assert (Hm : Forall (AllNodes (fun n => IsDir n = true))
                 (map (compressFuel f) (Children n))).
  { apply Forall_map. eapply Forall_impl; [|apply (AllNodes_children H)].
    intros c Hc. now apply IH. }
  assert (Hn : AllNodes (fun n => IsDir n = true)
                 (setChildren n (map (compressFuel f) (Children n))))
    by (constructor; [apply (AllNodes_here H) | exact Hm]).
  destruct (String.eqb (Name n) "ROOT"); [exact Hn|].
  destruct (map (compressFuel f) (Children n)) as [|c [|d r]] eqn:E;
    try exact Hn.
  destruct ((18 <? Str.len (Name n) + 1 + Str.len (Name c))%Z
            && (4 <? countLeaves c)%Z); [exact Hn|].
  apply IH. inversion Hm as [|? ? Hc _]; subst.
  constructor; simpl; [apply (AllNodes_here Hc) | apply (AllNodes_children Hc)].
Qed.

Lemma compressTree_settled_upto k :
  forall n,
    (size n <= k)%nat ->
    AllNodes (fun n => IsDir n = true) n ->
    AllNodes (fun n => Name n = "ROOT"
                       \/ forall c, Children n = [c] -> skipsMerge n c = true)
             (compressTree n).
Proof.
  induction k as [|k IH]; intros n Hk Hd.
  { rewrite size_unfold in Hk. lia. }
  rewrite compressTree_eq.
  rewrite (AllNodes_here Hd). cbn [negb orb].
  destruct (List.length (Children n) =? 0)%nat eqn:E0.
  { apply Nat.eqb_eq in E0.
    destruct (Children n) as [|c0 r0] eqn:Ec; [|discriminate].
    constructor; [right; intros c Hc; congruence|].
    rewrite Ec. constructor. }
  cbv zeta.
  assert (Hm : Forall (AllNodes (fun n => Name n = "ROOT"
                                   \/ forall c, Children n = [c] ->
                                                skipsMerge n c = true))
                 (map compressTree (Children n))).
  { apply Forall_map. apply Forall_forall. intros c Hc.
    apply IH.
    - pose proof (size_child _ _ Hc). rewrite (size_unfold n) in Hk. lia.
    - pose proof (AllNodes_children Hd) as Hcs.
      rewrite Forall_forall in Hcs. now apply Hcs. }
  destruct (String.eqb (Name n) "ROOT") eqn:Er.
  { constructor; [left; now apply String.eqb_eq in Er | exact Hm]. }
  cbn [setChildren Children].
  destruct (map compressTree (Children n)) as [|c' [|c2 rest]] eqn:Em.
  - constructor; [right; intros c Hc; discriminate Hc | constructor].
  - destruct ((18 <? Str.len (Name n) + 1 + Str.len (Name c'))%Z
              && (4 <? countLeaves c')%Z) eqn:Es.
    + constructor; [|exact Hm].
      right. intros c Hc. cbn [Children] in Hc. inversion Hc; subst c.
      unfold skipsMerge. cbn [Name]. exact Es.
    + assert (Hin : In c' (map compressTree (Children n)))
        by (rewrite Em; now left).
      apply in_map_iff in Hin as (c & Ec & Hc).
      apply IH.
      * rewrite size_unfold. cbn [Children].
        pose proof (size_child _ _ Hc) as S1.
        pose proof (compressTree_size c) as S2.
        rewrite Ec in S2. rewrite (size_unfold c') in S2.
        rewrite (size_unfold n) in Hk. lia.
      * pose proof (AllNodes_children Hd) as Hcs.
        rewrite Forall_forall in Hcs.
        pose proof (compressTree_dirs c (Hcs c Hc)) as Dc. rewrite Ec in Dc.
        constructor; simpl;
          [apply (AllNodes_here Dc) | apply (AllNodes_children Dc)].
  - constructor; [right; intros c Hc; discriminate Hc | exact Hm].
Qed.

(** X22. In the tree [NewTreeModel] makes no chain is left to merge:
    every node with exactly one child is named ["ROOT"] or is one the
    compressor keeps apart on purpose, the joined label being longer than
    18 bytes and the child carrying more than 4 leaves. *)
Theorem compressed_tree_is_settled paths width height historyPaths :
  AllNodes (fun n => Name n = "ROOT"
                     \/ forall c, Children n = [c] -> skipsMerge n c = true)
           (Root (NewTreeModel paths width height historyPaths)).
Proof.
  unfold NewTreeModel. cbv zeta. cbn [Root].
  apply (compressTree_settled_upto (size (buildTree paths historyPaths)));
    [lia|].
  unfold buildTree. apply buildTree_from.
  constructor; simpl; [reflexivity | constructor].
Qed.
